(** * ChatService (src/lib/chatService.ts): intent classification, entity
      extraction, evidence retrieval and response composition; the client and
      the check of the environment of the same file; the quartiles and the
      requirement lines of the results dashboard; the error boundary.

    JavaScript strings are modelled as lists of characters ([list ascii]),
    each character standing for the UTF-16 code unit of the same number
    (U+0000 .. U+00FF).  On that range [toLowerCase], [trim], [\s], [\b],
    [\d] and [.] are written out below exactly as ECMAScript defines them. *)

From Stdlib Require Import List Ascii String Bool Arith Lia QArith Qround.
From Stdlib Require Import Permutation Sorted DecimalString DecimalNat.
From stdpp Require Import gmap strings.
Import ListNotations.

Local Open Scope nat_scope.
Local Open Scope list_scope.

(** ** Characters and the string primitives used by the service *)

Module JS.

Definition code (c : ascii) : nat := nat_of_ascii c.

Definition in_range (lo hi : nat) (c : ascii) : bool :=
  (lo <=? code c) && (code c <=? hi).

Definition shift_up (c : ascii) : ascii := ascii_of_nat (code c + 32).
Definition shift_down (c : ascii) : ascii := ascii_of_nat (code c - 32).

(** [String.prototype.toLowerCase] on one code unit: A-Z, and the Latin-1
    capitals U+00C0..U+00DE except the multiplication sign U+00D7. *)
Definition lower_char (c : ascii) : ascii :=
  if in_range 65 90 c then shift_up c
  else if in_range 192 222 c && negb (code c =? 215) then shift_up c
  else c.

(** The regular-expression [Canonicalize] of a pattern compiled with the
    [i] flag (and without [u]): the code unit of [toUpperCase].  U+00B5 and
    U+00FF have capitals outside U+0000..U+00FF that no other character of
    the range shares, and U+00DF has a two-letter capital, so the three are
    their own canonical form. *)
Definition canonicalize (c : ascii) : ascii :=
  if in_range 97 122 c then shift_down c
  else if in_range 224 254 c && negb (code c =? 247) then shift_down c
  else c.

(** [\d] *)
Definition is_digit (c : ascii) : bool := in_range 48 57 c.

(** The word characters of [\b] and [\w]: [A-Za-z0-9_]. *)
Definition is_word (c : ascii) : bool :=
  in_range 97 122 c || in_range 65 90 c || in_range 48 57 c || (code c =? 95).

(** [\s], which is also what [trim] strips: TAB, LF, VT, FF, CR, SP, NBSP. *)
Definition is_space (c : ascii) : bool :=
  in_range 9 13 c || (code c =? 32) || (code c =? 160).

(** What [.] refuses: LF and CR. *)
Definition is_line_terminator (c : ascii) : bool :=
  (code c =? 10) || (code c =? 13).

(** A string literal as the list of its characters. *)
Definition chars (s : string) : list ascii := list_ascii_of_string s.

Definition toLowerCase (s : list ascii) : list ascii := map lower_char s.

Fixpoint trimStart (s : list ascii) : list ascii :=
  match s with
  | c :: s' => if is_space c then trimStart s' else s
  | [] => []
  end.

Definition trimEnd (s : list ascii) : list ascii := rev (trimStart (rev s)).

Definition trim (s : list ascii) : list ascii := trimEnd (trimStart s).

Definition char_eqb (a b : ascii) : bool := Ascii.eqb a b.

Fixpoint startsWith (s t : list ascii) : bool :=
  match t, s with
  | [], _ => true
  | _ :: _, [] => false
  | b :: t', a :: s' => char_eqb a b && startsWith s' t'
  end.

(** [s.includes(t)]: [t] occurs in [s] at some position. *)
Fixpoint includes (s t : list ascii) : bool :=
  startsWith s t ||
  match s with
  | [] => false
  | _ :: s' => includes s' t
  end.

(** [a.join(sep)] *)
Fixpoint join (sep : list ascii) (a : list (list ascii)) : list ascii :=
  match a with
  | [] => []
  | [x] => x
  | x :: rest => x ++ sep ++ join sep rest
  end.

(** [String(n)] for a non-negative integer. *)
Definition number_to_string (n : nat) : list ascii :=
  chars (NilEmpty.string_of_uint (Nat.to_uint n)).

(** [s.substring(0, n)] *)
Definition substring0 (n : nat) (s : list ascii) : list ascii := firstn n s.

(** [a.sort(cmp)].  The sort is stable (ECMAScript 2019 and later): for a
    comparator that orders the elements consistently the result is the one
    ordered permutation that keeps elements comparing equal in their input
    order.  Inserting from the right, each element in front of the first one
    it need not follow, computes it. *)
Fixpoint sort_insert {A : Type} (cmp : A -> A -> Q) (x : A)
         (sorted : list A) : list A :=
  match sorted with
  | [] => [x]
  | y :: ys =>
      if Qle_bool (cmp x y) 0 then x :: y :: ys
      else y :: sort_insert cmp x ys
  end.

Definition sort {A : Type} (cmp : A -> A -> Q) (a : list A) : list A :=
  fold_right (sort_insert cmp) [] a.

(** [a.slice(0, n)] *)
Definition slice0 {A : Type} (n : nat) (a : list A) : list A := firstn n a.

(** Truthiness of an optional string: present and not empty. *)
Definition truthy (s : option (list ascii)) : bool :=
  match s with
  | Some (_ :: _) => true
  | _ => false
  end.

(** The line feed of the template literals. *)
Definition nl : list ascii := [ascii_of_nat 10].

(** What a call can do: return, or throw a value, which is an [Error] with
    its message or something else. *)
Inductive Thrown : Type :=
| ErrorInstance (message : list ascii)
| OtherValue.

Inductive Outcome (A : Type) : Type :=
| Returned (a : A)
| Threw (e : Thrown).
Arguments Returned {A} a.
Arguments Threw {A} e.

Definition bind {A B : Type} (c : Outcome A) (k : A -> Outcome B)
  : Outcome B :=
  match c with
  | Returned a => k a
  | Threw e => Threw e
  end.

(** [try { body } catch (error) { handler }] *)
Definition try_catch {A : Type} (body : Outcome A)
           (handler : Thrown -> Outcome A) : Outcome A :=
  match body with
  | Returned a => Returned a
  | Threw error => handler error
  end.

End JS.

Notation "'let!' x ':=' c 'in' k" := (JS.bind c (fun x => k))
  (at level 10, x name, c at level 100, k at level 200).

(** ** The completion interface of the generation client, as the service
       reads it *)

Module OpenAI.

Record Message : Type := mkMessage { content : option (list ascii) }.
Record Choice : Type := mkChoice { message : option Message }.
Record Completion : Type := mkCompletion { choices : list Choice }.

Record Request : Type := mkRequest {
  model : list ascii;
  messages : list (list ascii * list ascii);
  temperature : Q;
  top_p : Q;
  max_tokens : nat
}.

(** [client.chat.completions.create] *)
Definition Client : Type := Request -> JS.Outcome Completion.

End OpenAI.

(** ** Regular expressions, matched the way ECMAScript does: by backtracking,
       alternatives left to right, greedy repetition. *)

Module Regex.

Inductive regex : Type :=
| Empty : regex
| Char : ascii -> regex
| Dot : regex
| Class : (ascii -> bool) -> regex
| Seq : regex -> regex -> regex
| Alt : regex -> regex -> regex
| Star : regex -> regex
| WordBoundary : regex
| Group : regex -> regex.

(** The sugar of the patterns in the source. *)
Definition lit (s : string) : regex :=
  fold_right (fun c r => Seq (Char c) r) Empty (JS.chars s).

Fixpoint seqs (rs : list regex) : regex :=
  match rs with
  | [] => Empty
  | [r] => r
  | r :: rest => Seq r (seqs rest)
  end.

Fixpoint alts (rs : list regex) : regex :=
  match rs with
  | [] => Empty
  | [r] => r
  | r :: rest => Alt r (alts rest)
  end.

Definition Opt (r : regex) : regex := Alt r Empty.
Definition Plus (r : regex) : regex := Seq r (Star r).
Definition dotstar : regex := Star Dot.

(** A compiled pattern with its flags. *)
Record RegExp : Type := mkRegExp {
  source : regex;
  ignoreCase : bool;
  global : bool
}.

(** The matcher's state: the characters already passed (nearest first), the
    characters still ahead, and what capture group 1 holds. *)
Record mstate : Type := mkState {
  before : list ascii;
  ahead : list ascii;
  capture : option (list ascii)
}.

Definition is_word_at (l : list ascii) : bool :=
  match l with
  | c :: _ => JS.is_word c
  | [] => false
  end.

Definition at_boundary (st : mstate) : bool :=
  xorb (is_word_at (before st)) (is_word_at (ahead st)).

Definition char_matches (icase : bool) (p c : ascii) : bool :=
  if icase then JS.char_eqb (JS.canonicalize p) (JS.canonicalize c)
  else JS.char_eqb p c.

Definition step_if (ok : ascii -> bool) (st : mstate)
           (k : mstate -> option mstate) : option mstate :=
  match ahead st with
  | c :: rest =>
      if ok c then k (mkState (c :: before st) rest (capture st)) else None
  | [] => None
  end.

(** What was read between two states of one run. *)
Definition consumed (st st' : mstate) : list ascii :=
  firstn (length (ahead st) - length (ahead st')) (ahead st).

(** Greedy repetition: one more round of [body] first, and a round that
    reads nothing is refused; when no further round leads to a match, go
    on with what follows.  [fuel] bounds the rounds; a round reads at least
    one character, so one more than the characters ahead is never used up. *)
Fixpoint star_loop (fuel : nat)
         (body : mstate -> (mstate -> option mstate) -> option mstate)
         (st : mstate) (k : mstate -> option mstate) : option mstate :=
  match fuel with
  | 0 => k st
  | S fuel' =>
      match body st (fun st' =>
               if length (ahead st') <? length (ahead st)
               then star_loop fuel' body st' k
               else None) with
      | Some r => Some r
      | None => k st
      end
  end.

Fixpoint run (icase : bool) (r : regex) (st : mstate)
         (k : mstate -> option mstate) : option mstate :=
  match r with
  | Empty => k st
  | Char p => step_if (char_matches icase p) st k
  | Dot => step_if (fun c => negb (JS.is_line_terminator c)) st k
  | Class p => step_if p st k
  | Seq r1 r2 => run icase r1 st (fun st' => run icase r2 st' k)
  | Alt r1 r2 =>
      match run icase r1 st k with
      | Some res => Some res
      | None => run icase r2 st k
      end
  | Star r1 => star_loop (S (length (ahead st))) (run icase r1) st k
  | WordBoundary => if at_boundary st then k st else None
  | Group r1 =>
      run icase r1 st (fun st' =>
        k (mkState (before st') (ahead st') (Some (consumed st st'))))
  end.

(** A match attempt anchored at the current position. *)
Definition match_here (re : RegExp) (bef ah : list ascii) : option mstate :=
  run (ignoreCase re) (source re) (mkState bef ah None) Some.

(** [RegExpBuiltinExec]: the leftmost position, from the current one on, at
    which an attempt succeeds.  Returns the characters before the match
    (nearest first), the text from the match on, and the final state. *)
Fixpoint exec_from (re : RegExp) (bef ah : list ascii)
  : option (list ascii * list ascii * mstate) :=
  match match_here re bef ah with
  | Some e => Some (bef, ah, e)
  | None =>
      match ah with
      | [] => None
      | c :: rest => exec_from re (c :: bef) rest
      end
  end.

Definition exec (re : RegExp) (s : list ascii) := exec_from re [] s.

(** [re.test(s)] for a pattern without the [g] flag. *)
Definition test (re : RegExp) (s : list ascii) : bool :=
  match exec re s with
  | Some _ => true
  | None => false
  end.

Definition matched_text (ah : list ascii) (e : mstate) : list ascii :=
  firstn (length ah - length (ahead e)) ah.

(** [s.match(re)] for a pattern with the [g] flag: every match, left to
    right, each search resuming where the previous match ended (one
    character further after an empty match); [None] is JavaScript's [null],
    returned when there is no match at all. *)
Fixpoint match_all_loop (fuel : nat) (re : RegExp) (bef ah : list ascii)
  : list (list ascii) :=
  match fuel with
  | 0 => []
  | S fuel' =>
      match exec_from re bef ah with
      | None => []
      | Some (_, ah0, e) =>
          matched_text ah0 e ::
            (if length (ahead e) <? length ah0
             then match_all_loop fuel' re (before e) (ahead e)
             else match ahead e with
                  | [] => []
                  | c :: rest => match_all_loop fuel' re (c :: before e) rest
                  end)
      end
  end.

Definition match_global (re : RegExp) (s : list ascii)
  : option (list (list ascii)) :=
  match match_all_loop (S (length s)) re [] s with
  | [] => None
  | l => Some l
  end.

(** [s.split(re)], without a limit, for a pattern without capture groups.
    [piece] is the text since the end of the last separator (nearest first),
    [bef] and [ah] the text before and from the current position.  An
    attempt is made at each position in turn; a match that ends where the
    piece starts separates nothing and is passed over; any other match ends
    the piece, and the reading resumes where the match ended.  A step either
    moves on or empties the piece, so twice the length and one more step are
    never used up. *)
Fixpoint split_loop (fuel : nat) (re : RegExp) (piece bef ah : list ascii)
  : list (list ascii) :=
  match fuel with
  | 0 => [rev piece ++ ah]
  | S fuel' =>
      match ah with
      | [] => [rev piece]
      | c :: rest =>
          match match_here re bef ah with
          | Some e =>
              if (length (ahead e) =? length ah) && (length piece =? 0)
              then split_loop fuel' re (c :: piece) (c :: bef) rest
              else rev piece :: split_loop fuel' re [] (before e) (ahead e)
          | None => split_loop fuel' re (c :: piece) (c :: bef) rest
          end
      end
  end.

Definition split (re : RegExp) (s : list ascii) : list (list ascii) :=
  match s with
  | [] =>
      match match_here re [] [] with
      | Some _ => []
      | None => [[]]
      end
  | _ :: _ => split_loop (2 * length s + 1) re [] [] s
  end.

(** *** What it means for a pattern to match, stated without the search *)

(** The state one character further. *)
Definition advance (c : ascii) (rest : list ascii) (st : mstate) : mstate :=
  mkState (c :: before st) rest (capture st).

(** [Matches icase r st st']: [r] can read the text between the states [st]
    and [st'].  A round of a repetition reads at least one character, as in
    [star_loop]. *)
Inductive Matches (icase : bool) : regex -> mstate -> mstate -> Prop :=
| M_Empty st : Matches icase Empty st st
| M_Char p c rest st :
    ahead st = c :: rest -> char_matches icase p c = true ->
    Matches icase (Char p) st (advance c rest st)
| M_Dot c rest st :
    ahead st = c :: rest -> JS.is_line_terminator c = false ->
    Matches icase Dot st (advance c rest st)
| M_Class p c rest st :
    ahead st = c :: rest -> p c = true ->
    Matches icase (Class p) st (advance c rest st)
| M_Seq r1 r2 st st1 st2 :
    Matches icase r1 st st1 -> Matches icase r2 st1 st2 ->
    Matches icase (Seq r1 r2) st st2
| M_AltL r1 r2 st st' :
    Matches icase r1 st st' -> Matches icase (Alt r1 r2) st st'
| M_AltR r1 r2 st st' :
    Matches icase r2 st st' -> Matches icase (Alt r1 r2) st st'
| M_StarStop r st : Matches icase (Star r) st st
| M_StarRound r st st1 st2 :
    Matches icase r st st1 ->
    length (ahead st1) < length (ahead st) ->
    Matches icase (Star r) st1 st2 ->
    Matches icase (Star r) st st2
| M_Boundary st :
    at_boundary st = true -> Matches icase WordBoundary st st
| M_Group r st st' :
    Matches icase r st st' ->
    Matches icase (Group r) st
      (mkState (before st') (ahead st') (Some (consumed st st'))).

End Regex.

(** ** The service *)

Module ChatService.
Import JS Regex.

(** *** Types of [@/types/chat], as the service uses them *)

Inductive ChatIntent : Type :=
| resume_detail_inquiry
| evaluation_challenge
| candidate_comparison
| skill_verification
| experience_analysis
| ambiguity_check
| unknown.

Definition intent_name (i : ChatIntent) : list ascii :=
  chars match i with
        | resume_detail_inquiry => "resume_detail_inquiry"
        | evaluation_challenge => "evaluation_challenge"
        | candidate_comparison => "candidate_comparison"
        | skill_verification => "skill_verification"
        | experience_analysis => "experience_analysis"
        | ambiguity_check => "ambiguity_check"
        | unknown => "unknown"
        end.

Record IntentClassificationResult : Type := mkIntentResult {
  intent : ChatIntent;
  confidence : Q;
  entities : gmap string (list ascii)
}.

(** Scores are the quotient of two small non-negative integers with, inside
    one call, a common divisor; on such values the order and the equality of
    the doubles are those of the fractions, which [Q] keeps exactly. *)
Record EvidenceSource : Type := mkEvidence {
  type : list ascii;
  content : list ascii;
  relevanceScore : Q;
  location : list ascii
}.

Record Scores : Type := mkScores { overall : option Q }.

Record EvaluationResult : Type := mkEvaluation {
  scores : option Scores;
  tier : option (list ascii);
  explanation : option (list ascii)
}.

Record ChatContext : Type := mkContext {
  candidateName : option (list ascii);
  resumeText : option (list ascii);
  jobDescription : option (list ascii);
  mustHaveAttributes : option (list ascii);
  evaluationResult : option EvaluationResult
}.

(** *** classifyIntent *)

Definition ci (r : regex) : RegExp := mkRegExp r true false.

(** The entries of [intentPatterns], in the order [Object.entries] yields
    them: the order of declaration. *)
Definition intentPatterns : list (ChatIntent * list RegExp) :=
  [ (resume_detail_inquiry,
      [ ci (alts [ lit "did they mention"; lit "do they have";
                   seqs [lit "where"; dotstar; lit "show"];
                   seqs [lit "what"; dotstar; lit "experience"] ]);
        ci (alts [ lit "background in"; lit "skilled in";
                   lit "familiar with" ]) ]);
    (evaluation_challenge,
      [ ci (alts [ seqs [lit "why"; dotstar; lit "qualified"];
                   seqs [lit "why"; dotstar; lit "score"];
                   seqs [lit "why"; dotstar; lit "ranked"];
                   seqs [lit "what"; dotstar; lit "wrong"] ]);
        ci (alts [ seqs [lit "reason"; dotstar; lit "failed"];
                   seqs [lit "explanation"; dotstar; lit "tier"] ]) ]);
    (candidate_comparison,
      [ ci (alts [ lit "stronger than"; lit "better than";
                   seqs [lit "compare"; dotstar; lit "to"];
                   lit "versus"; lit "vs." ]);
        ci (alts [ seqs [lit "who"; dotstar; lit "better"];
                   seqs [lit "which"; dotstar; lit "candidate"] ]) ]);
    (skill_verification,
      [ ci (alts [ seqs [lit "where"; dotstar; lit "leadership"];
                   seqs [lit "demonstrate"; dotstar; lit "skills"];
                   seqs [lit "show"; dotstar; lit "ability"] ]);
        ci (alts [ seqs [lit "evidence"; dotstar; lit "of"];
                   seqs [lit "proof"; dotstar; lit "of"] ]) ]);
    (experience_analysis,
      [ ci (alts [ seqs [lit "years"; dotstar; lit "experience"];
                   lit "how long";
                   seqs [lit "duration"; dotstar; lit "work"] ]);
        ci (alts [ seqs [lit "career"; dotstar; lit "length"];
                   seqs [lit "time"; dotstar; lit "in"] ]) ]);
    (ambiguity_check,
      [ ci (alts [ lit "justified"; lit "reasonable";
                   seqs [lit "fair"; dotstar; lit "assessment"];
                   lit "accurate" ]);
        ci (alts [ seqs [lit "should"; dotstar; lit "be"; dotstar;
                         lit "higher"];
                   seqs [lit "seems"; dotstar; lit "low"] ]) ]);
    (unknown, []) ].

(** *** extractEntities *)

Definition techVocabulary : list string :=
  [ "JavaScript"; "Python"; "React"; "Node.js"; "AWS"; "Azure"; "Docker";
    "Kubernetes"; "SQL"; "MongoDB"; "Git"; "Java"; "C++"; "HTML"; "CSS";
    "API"; "REST"; "GraphQL"; "TypeScript"; "Vue"; "Angular"; "PHP"; "Ruby";
    "Go"; "Rust"; "Swift"; "Kotlin"; "Android"; "iOS"; "Linux"; "Windows";
    "macOS"; "Jenkins"; "CI/CD"; "DevOps"; "Agile"; "Scrum";
    "Machine Learning"; "AI"; "Data Science"; "Analytics"; "Cloud";
    "Database"; "Security"; "Testing"; "QA"; "UI/UX"; "Design"; "Marketing";
    "Sales"; "Management"; "Leadership"; "Communication";
    "Project Management"; "Certification"; "Degree"; "Bachelor"; "Master";
    "PhD"; "PMP"; "Scrum Master"; "AWS Certified"; "Microsoft Certified" ].

(** [/\b(?:JavaScript|Python|...|Microsoft Certified)\b/gi] *)
Definition techPattern : RegExp :=
  mkRegExp (seqs [WordBoundary; alts (map lit techVocabulary); WordBoundary])
           true true.

(** The pattern of the years of experience, flag [i]; token by token:
    [(\d+)], [\s*], [(?:years?|yrs?)], [\s*], [(?:of\s* )?] and
    [(?:experience|exp)].  No character outside [\d] (or [\s]) has a
    canonical form inside it, so the flag leaves the two classes as they
    are. *)
Definition experiencePattern : RegExp :=
  ci (seqs [ Group (Plus (Class is_digit));
             Star (Class is_space);
             Alt (Seq (lit "year") (Opt (Char "s")))
                 (Seq (lit "yr") (Opt (Char "s")));
             Star (Class is_space);
             Opt (Seq (lit "of") (Star (Class is_space)));
             Alt (lit "experience") (lit "exp") ]).

Definition extractEntities (query : list ascii) : gmap string (list ascii) :=
  let entities : gmap string (list ascii) := ∅ in
  let techTerms := match_global techPattern query in
  let entities :=
    match techTerms with
    | Some terms => <["technologies" := join (chars ", ") terms]> entities
    | None => entities
    end in
  let experienceMatch := exec experiencePattern query in
  match experienceMatch with
  | Some (_, _, e) =>
      match capture e with
      | Some digits => <["experience_years" := digits]> entities
      | None => entities   (* group 1 takes part in every match *)
      end
  | None => entities
  end.

Fixpoint any_pattern (patterns : list RegExp) (query : list ascii) : bool :=
  match patterns with
  | [] => false
  | pattern :: rest =>
      if test pattern query then true else any_pattern rest query
  end.

Fixpoint first_intent (table : list (ChatIntent * list RegExp))
         (query : list ascii) : option ChatIntent :=
  match table with
  | [] => None
  | (i, patterns) :: rest =>
      if any_pattern patterns query then Some i else first_intent rest query
  end.

Definition classifyIntent (query : list ascii) : IntentClassificationResult :=
  match first_intent intentPatterns query with
  | Some i => mkIntentResult i (8 # 10) (extractEntities query)
  | None => mkIntentResult unknown (3 # 10) (extractEntities query)
  end.

(** *** searchResume *)

Definition is_sentence_end (c : ascii) : bool :=
  (code c =? 46) || (code c =? 33) || (code c =? 63).

(** The inner loop: one point for each query term the sentence includes. *)
Definition count_terms (sentenceLower : list ascii)
           (queryTerms : list (list ascii)) : nat :=
  fold_left
    (fun relevanceScore term =>
       if includes sentenceLower term then relevanceScore + 1
       else relevanceScore)
    queryTerms 0.

Definition quotient (a b : nat) : Q :=
  (inject_Z (Z.of_nat a) / inject_Z (Z.of_nat b))%Q.

(** The outer loop, from index [i] on, pushing onto [evidence]. *)
Fixpoint evidence_loop (queryTerms : list (list ascii))
         (sentences : list (list ascii)) (i : nat)
         (evidence : list EvidenceSource) : list EvidenceSource :=
  match sentences with
  | [] => evidence
  | s :: rest =>
      let sentence := trim s in
      let sentenceLower := toLowerCase sentence in
      let relevanceScore := count_terms sentenceLower queryTerms in
      let evidence :=
        if 0 <? relevanceScore then
          evidence ++
            [ mkEvidence (chars "resume") sentence
                (quotient relevanceScore (length queryTerms))
                (chars "Sentence " ++ number_to_string (i + 1)) ]
        else evidence in
      evidence_loop queryTerms rest (i + 1) evidence
  end.

(** [/[.!?]+/] and [/\s+/] *)
Definition sentenceEnd : RegExp :=
  mkRegExp (Plus (Class is_sentence_end)) false false.
Definition whitespace : RegExp := mkRegExp (Plus (Class is_space)) false false.

Definition sentences_of (resumeText : list ascii) : list (list ascii) :=
  List.filter (fun s => 0 <? length (trim s)) (split sentenceEnd resumeText).

Definition queryTerms_of (query : list ascii) : list (list ascii) :=
  split whitespace (toLowerCase query).

Definition by_score_desc (a b : EvidenceSource) : Q :=
  (relevanceScore b - relevanceScore a)%Q.

(** [resumeText] is [None] when the caller passes no text ([undefined]). *)
Definition searchResume (resumeText : option (list ascii))
           (query : list ascii) : list EvidenceSource :=
  if negb (truthy resumeText) then []
  else
    match resumeText with
    | None => []
    | Some resumeText =>
        let sentences := sentences_of resumeText in
        let queryTerms := queryTerms_of query in
        let evidence := evidence_loop queryTerms sentences 0 [] in
        slice0 5 (sort by_score_desc evidence)
    end.

(** *** generateResponse *)

Definition apology : list ascii :=
  chars "I apologize, but I cannot provide a response at this time.".
Definition authMessage : list ascii :=
  chars "Authentication failed. Please check that the OpenAI API key is correctly configured.".
Definition rateLimitMessage : list ascii :=
  chars "Rate limit exceeded. Please wait a moment and try again.".
Definition quotaMessage : list ascii :=
  chars "OpenAI API quota exceeded. Please check your OpenAI account.".
Definition modelMessage : list ascii :=
  chars "Model access error. The API key may not have access to gpt-4o-mini.".
Definition genericMessage : list ascii :=
  chars "I apologize, but I encountered an error while processing your request. Please check the server logs for more details.".

(** The [catch] block. *)
Definition on_error (error : Thrown) : list ascii :=
  match error with
  | ErrorInstance message =>
      if includes message (chars "401")
         || includes message (chars "Incorrect API key")
      then authMessage
      else if includes message (chars "429") then rateLimitMessage
      else if includes message (chars "insufficient_quota")
              || includes message (chars "exceeded your current quota")
      then quotaMessage
      else if includes message (chars "model") then modelMessage
      else genericMessage
  | OtherValue => genericMessage
  end.

(** What the service reads from its surroundings: which client is in use
    and the client itself, whose construction can fail.  The development
    logging writes to the console only and is left out. *)
Record Env : Type := mkEnv {
  isUsingAzure : bool;
  deploymentName : list ascii;
  getOpenAIClient : Outcome OpenAI.Client
}.

(** The double quote of the system instruction. *)
Definition dquote : ascii := ascii_of_nat 34.

(** The fixed system instruction. *)
Definition RISEN_SYSTEM_PROMPT : list ascii :=
  chars "
You are a professional HR Copilot AI, assisting a human recruiter during post-evaluation review of candidate resumes.

ROLE: You act as a context-aware analyst helping HR clarify doubts, explore resume evidence, understand evaluation outcomes, and identify hidden strengths or gaps. You are accurate, transparent, and always grounded in the candidate's actual documents and metadata.

FORMATTING RULES:
- Use clear, professional language without markdown formatting
- Never use asterisks for bold or italics
- Structure responses with clear paragraphs and proper spacing
- Use "
  ++ dquote :: chars "quotation marks"
  ++ dquote :: chars " when quoting from resumes
- Create lists with simple dashes or numbers

INPUTS: You receive candidate information including:
- Full parsed resume text
- Evaluation results (score 0-100, tier, gaps, summary, qualification status)
- Job description and must-have attributes
- Semantic similarity scores when available

RESPONSE GUIDELINES:
1. Start with a direct answer to the question
2. Provide evidence from the resume when relevant
3. Use clear paragraph breaks for readability
4. Quote specific sections when referencing the resume
5. End with actionable insights when appropriate

TONE:
- Professional yet conversational
- Confident but not overly formal
- Helpful and constructive
- Clear and easy to understand

EXPECTATIONS:
- Be concise, factual, and grounded in resume content
- Quote relevant resume sections using quotation marks
- Align with scoring system logic
- Never fabricate qualifications
- When comparing candidates, focus only on requested attributes
- Avoid speculation without clear evidence
".

(** The interpolation [${v}] of a string that is there. *)
Definition text_of (v : option (list ascii)) : list ascii :=
  match v with
  | Some s => s
  | None => []
  end.

Definition number_truthy (x : Q) : bool := negb (Qeq_bool x 0).

Section Composer.

(** [String(x)] for a number, which the service only passes on. *)
Variable Number_toString : Q -> list ascii.

(** [evaluationResult.scores?.overall || 'N/A'] *)
Definition overall_or_NA (e : EvaluationResult) : list ascii :=
  match scores e ≫= overall with
  | Some x => if number_truthy x then Number_toString x else chars "N/A"
  | None => chars "N/A"
  end.

(** The six entries of the array, [''] for a field that is not there. *)
Definition contextLines (context : ChatContext) : list (list ascii) :=
  [ if truthy (candidateName context)
    then chars "Candidate: " ++ text_of (candidateName context)
    else [];
    if truthy (jobDescription context)
    then chars "Job Description: "
           ++ substring0 500 (text_of (jobDescription context)) ++ chars "..."
    else [];
    if truthy (mustHaveAttributes context)
    then chars "Must-Have Attributes: "
           ++ text_of (mustHaveAttributes context)
    else [];
    match evaluationResult context with
    | Some e => chars "Evaluation Score: " ++ overall_or_NA e
    | None => []
    end;
    if truthy (evaluationResult context ≫= tier)
    then chars "Tier: " ++ text_of (evaluationResult context ≫= tier)
    else [];
    if truthy (evaluationResult context ≫= explanation)
    then chars "Evaluation Summary: "
           ++ text_of (evaluationResult context ≫= explanation)
    else [] ].

(** [.filter(Boolean).join('\n')] *)
Definition contextInfo (context : ChatContext) : list ascii :=
  join nl (List.filter (fun line => truthy (Some line)) (contextLines context)).

Definition evidenceText (evidence : list EvidenceSource) : list ascii :=
  if 0 <? length evidence then
    nl ++ chars "Relevant Evidence:" ++ nl
       ++ join nl (map (fun e => chars "- " ++ content e) evidence)
  else nl ++ chars "No specific evidence found in resume.".

Definition userMessage (query : list ascii) (context : ChatContext)
           (intent : IntentClassificationResult)
           (evidence : list EvidenceSource) : list ascii :=
  chars "Context:" ++ nl ++ contextInfo context ++ nl ++ nl
    ++ chars "Query: " ++ query ++ nl ++ nl
    ++ chars "Intent: " ++ intent_name (ChatService.intent intent)
    ++ chars " (confidence: " ++ Number_toString (confidence intent)
    ++ chars ")" ++ evidenceText evidence ++ nl ++ nl
    ++ chars "Please provide a helpful, evidence-based response.".

Definition request (env : Env) (query : list ascii) (context : ChatContext)
           (intent : IntentClassificationResult)
           (evidence : list EvidenceSource) : OpenAI.Request :=
  OpenAI.mkRequest
    (if isUsingAzure env then deploymentName env else chars "gpt-4o-mini")
    [ (chars "system", RISEN_SYSTEM_PROMPT);
      (chars "user", userMessage query context intent evidence) ]
    (2 # 10) (90 # 100) 4096.

(** [completion.choices[0]?.message?.content || apology] *)
Definition response_of (completion : OpenAI.Completion) : list ascii :=
  let content :=
    (hd_error (OpenAI.choices completion) ≫= OpenAI.message)
      ≫= OpenAI.content in
  if truthy content then text_of content else apology.

(** The [try] block. *)
Definition attempt (env : Env) (query : list ascii) (context : ChatContext)
           (intent : IntentClassificationResult)
           (evidence : list EvidenceSource) : Outcome (list ascii) :=
  let! client := getOpenAIClient env in
  let! completion := client (request env query context intent evidence) in
  Returned (response_of completion).

Definition generateResponse (env : Env) (query : list ascii)
           (context : ChatContext) (intent : IntentClassificationResult)
           (evidence : list EvidenceSource) : Outcome (list ascii) :=
  try_catch (attempt env query context intent evidence)
            (fun error => Returned (on_error error)).

End Composer.

End ChatService.

(** ** The client and the check of the environment *)

Module Configuration.

Import JS.

(** What the two functions read: the two keys of [process.env], and, from
    the Azure module, which service is in use and its client, whose
    construction can fail. *)
Record Surroundings : Type := mkSurroundings {
  isUsingAzure : bool;
  getAzureOpenAIClient : Outcome OpenAI.Client;
  OPENAI_API_KEY : option (list ascii);
  AZURE_OPENAI_API_KEY : option (list ascii)
}.

Definition keyNotSet : list ascii :=
  chars "OPENAI_API_KEY environment variable is not set".
Definition azureKeyNotSet : list ascii :=
  chars "AZURE_OPENAI_API_KEY environment variable is not set".
Definition keyInvalid : list ascii :=
  chars "OPENAI_API_KEY appears to be invalid (should start with sk-)".

Section Client.

(** [new OpenAI({ apiKey })] *)
Variable newOpenAI : list ascii -> Outcome OpenAI.Client.

(** One call, from the value of the module's variable [openai] ([None] for
    [null]) to the outcome and the variable's new value. *)
Definition getOpenAIClient (world : Surroundings)
           (openai : option OpenAI.Client)
  : Outcome OpenAI.Client * option OpenAI.Client :=
  if isUsingAzure world then (getAzureOpenAIClient world, openai)
  else
    match openai with
    | Some client => (Returned client, openai)
    | None =>
        let apiKey := OPENAI_API_KEY world in
        if negb (truthy apiKey) then (Threw (ErrorInstance keyNotSet), None)
        else
          match newOpenAI (ChatService.text_of apiKey) with
          | Returned client => (Returned client, Some client)
          | Threw error => (Threw error, None)
          end
    end.

End Client.

Record Validation : Type := mkValidation {
  isValid : bool;
  error : option (list ascii)
}.

Definition validateEnvironment (world : Surroundings) : Validation :=
  if isUsingAzure world then
    let azureKey := AZURE_OPENAI_API_KEY world in
    if negb (truthy azureKey) then mkValidation false (Some azureKeyNotSet)
    else mkValidation true None
  else
    let apiKey := OPENAI_API_KEY world in
    if negb (truthy apiKey) then mkValidation false (Some keyNotSet)
    else if negb (startsWith (ChatService.text_of apiKey) (chars "sk-"))
         then mkValidation false (Some keyInvalid)
         else mkValidation true None.

End Configuration.

(** ** The results dashboard: quartiles of the qualified candidates and the
       requirement lines of an expanded row *)

Module Dashboard.

Import JS.

(** The fields of an evaluation result that the dashboard reads.  The scores
    are finite numbers, kept exact. *)
Record Scores : Type := mkScores {
  overall : Q;
  preferredQualifications : Q
}.

Record EvaluationResult : Type := mkResult {
  candidateId : list ascii;
  candidateName : list ascii;
  scores : Scores;
  tier : list ascii;
  explanation : list ascii;
  mustHavesMet : bool;
  gaps : list (list ascii);
  strengths : list (list ascii);
  quartileTier : option (list ascii);
  quartileRank : option nat;
  totalQualifiedForQuartile : option nat
}.

(** [a === b] on strings *)
Definition strict_equal (a b : list ascii) : bool :=
  if List.list_eq_dec Ascii.ascii_dec a b then true else false.

(** [a.map((x, index) => f(x, index))], from [index] on *)
Fixpoint map_from {A B : Type} (f : A -> nat -> B) (index : nat)
         (a : list A) : list B :=
  match a with
  | [] => []
  | x :: rest => f x index :: map_from f (index + 1) rest
  end.

Definition map_indexed {A B : Type} (f : A -> nat -> B) (a : list A)
  : list B :=
  map_from f 0 a.

(** [Math.ceil(n / 4)] *)
Definition ceil_quarter (n : nat) : nat :=
  Z.to_nat (Qceiling (inject_Z (Z.of_nat n) / 4)).

(** The comparator of the sort. *)
Definition by_preferred_desc (a b : EvaluationResult) : Q :=
  (preferredQualifications (scores b)
   - preferredQualifications (scores a))%Q.

(** The body of the [map] over the sorted candidates. *)
Definition with_quartile (totalQualified quartileSize : nat)
           (candidate : EvaluationResult) (index : nat) : EvaluationResult :=
  let rank := index + 1 in
  let tier :=
    if rank <=? quartileSize then chars "Top Quartile (Top 25%)"
    else if rank <=? quartileSize * 2 then chars "Upper-Mid Quartile (25-50%)"
    else if rank <=? quartileSize * 3 then chars "Lower-Mid Quartile (50-75%)"
    else chars "Bottom Quartile (Bottom 25%)" in
  mkResult (candidateId candidate) (candidateName candidate)
           (scores candidate) (Dashboard.tier candidate)
           (explanation candidate) (mustHavesMet candidate)
           (gaps candidate) (strengths candidate)
           (Some tier) (Some rank) (Some totalQualified).

Definition processedResults (initialResults : list EvaluationResult)
  : list EvaluationResult :=
  let qualifiedCandidates := List.filter mustHavesMet initialResults in
  if 10 <? length qualifiedCandidates then
    let qualifiedCandidates := sort by_preferred_desc qualifiedCandidates in
    let totalQualified := length qualifiedCandidates in
    let quartileSize := ceil_quarter totalQualified in
    let updatedQualifiedCandidates :=
      map_indexed (with_quartile totalQualified quartileSize)
                  qualifiedCandidates in
    map (fun originalResult =>
           match find (fun uq => strict_equal (candidateId uq)
                                              (candidateId originalResult))
                      updatedQualifiedCandidates with
           | Some uq => uq
           | None => originalResult
           end)
        initialResults
  else initialResults.

(** [text.toLowerCase().includes(req.toLowerCase())] *)
Definition mentions (text req : list ascii) : bool :=
  includes (toLowerCase text) (toLowerCase req).

(** The line of a must-have requirement in an expanded row. *)
Definition isMet (result : EvaluationResult) (req : list ascii) : bool :=
  mustHavesMet result
  || negb (existsb (fun gap => mentions gap req) (gaps result)).

(** The line of a nice-to-have requirement: its status and its class. *)
Definition niceToHave (result : EvaluationResult) (req : list ascii)
  : list ascii * list ascii :=
  let isStrength :=
    existsb (fun strength => mentions strength req) (strengths result) in
  let isGap := existsb (fun gap => mentions gap req) (gaps result) in
  let line := (chars "Neutral", chars "text-gray-600") in
  let line := if isStrength then (chars "Aligned", chars "text-green-600")
              else line in
  let line := if isGap then (chars "Gap", chars "text-red-600") else line in
  line.

End Dashboard.

(** ** The error boundary *)

Module ErrorBoundary.

Import JS.

Section Component.

(** What React renders, and which of it counts as present for [||]. *)
Variable ReactNode : Type.
Variable present : ReactNode -> bool.

Record Props : Type := mkProps {
  children : ReactNode;
  fallback : option ReactNode
}.

(** An error is kept by its message, which is all the component reads. *)
Record State : Type := mkState {
  hasError : bool;
  error : option (list ascii)
}.

Definition initial : State := mkState false None.

Definition getDerivedStateFromError (error : list ascii) : State :=
  mkState true (Some error).

(** What [render] returns: the children, the given fallback, or the box of
    the component with its line of text ([None] where the message is
    missing). *)
Inductive Rendered : Type :=
| Children (node : ReactNode)
| Fallback (node : ReactNode)
| Box (text : option (list ascii)).

Definition render (development : bool) (props : Props) (state : State)
  : Rendered :=
  if hasError state then
    match fallback props with
    | Some node =>
        if present node then Fallback node
        else Box (if development then error state
                  else Some (chars "Please refresh the page to try again."))
    | None =>
        Box (if development then error state
             else Some (chars "Please refresh the page to try again."))
    end
  else Children (children props).

End Component.

End ErrorBoundary.


Import JS Regex ChatService.

(** ** The notions the properties are stated with *)

(** *** Text *)

Definition all_ascii : list ascii := map ascii_of_nat (seq 0 256).

(** Every character of [w] is of the class [p]. *)
Definition all_of (p : ascii -> bool) (w : list ascii) : Prop :=
  Forall (fun c => p c = true) w.

(** [t] is a piece of [s]. *)
Definition contains (s t : list ascii) : Prop :=
  exists pre post, s = pre ++ t ++ post.

(** The same text up to the case of its letters. *)
Definition same_ignoring_case (a b : list ascii) : Prop :=
  toLowerCase a = toLowerCase b.

(** [term] is, up to letter case, a piece of [sentence]. *)
Definition occurs_ignoring_case (term sentence : list ascii) : Prop :=
  exists pre w post, sentence = pre ++ w ++ post /\ same_ignoring_case w term.

(** The pieces of [s] between its maximal runs of characters of the class
    [sep]: an empty first (last) piece when [s] starts (ends) with a run, and
    the one empty piece for the empty text.  [cur] is the piece being read,
    nearest character first; [in_run] says that a run is being passed. *)
Fixpoint pieces_loop (sep : ascii -> bool) (in_run : bool)
         (cur : list ascii) (s : list ascii) : list (list ascii) :=
  match s with
  | [] => [rev cur]
  | c :: s' =>
      if sep c then
        if in_run then pieces_loop sep true cur s'
        else rev cur :: pieces_loop sep true [] s'
      else pieces_loop sep false (c :: cur) s'
  end.

Definition pieces (sep : ascii -> bool) (s : list ascii) : list (list ascii) :=
  pieces_loop sep false [] s.

(** The pattern [/[sep]+/]: a run of characters of the class [sep]. *)
Definition runs (sep : ascii -> bool) (icase glob : bool) : RegExp :=
  mkRegExp (Plus (Class sep)) icase glob.

(** [s] without its leading run of characters of the class [sep]. *)
Fixpoint drop_run (sep : ascii -> bool) (s : list ascii) : list ascii :=
  match s with
  | c :: s' => if sep c then drop_run sep s' else s
  | [] => []
  end.


(** *** Matching *)

(** Between [st] and [st'] the text [w] was read. *)
Definition reads (st : mstate) (w : list ascii) (st' : mstate) : Prop :=
  ahead st = w ++ ahead st' /\ before st' = rev w ++ before st.

(** The same, and the capture was left alone. *)
Definition plain (st : mstate) (w : list ascii) (e : mstate) : Prop :=
  reads st w e /\ capture e = capture st.

(** The state after reading [w], with [post] still ahead. *)
Definition move (st : mstate) (w post : list ascii) : mstate :=
  mkState (rev w ++ before st) post (capture st).

Definition start_state (bef ah : list ascii) : mstate := mkState bef ah None.

Definition lit_of (t : list ascii) : regex :=
  fold_right (fun c r => Seq (Char c) r) Empty t.

(** Whatever the matcher returns, the relation justifies. *)
Definition sound_at (icase : bool) (r : regex) : Prop :=
  forall st k res, run icase r st k = Some res ->
    exists st', Matches icase r st st' /\ k st' = Some res.

(** The matcher looks at its continuation through its results only. *)
Definition ext_at (icase : bool) (r : regex) : Prop :=
  forall st k1 k2, (forall s, k1 s = k2 s) ->
    run icase r st k1 = run icase r st k2.

(** Patterns made of literal text, [.], sequence, choice and repetition. *)
Fixpoint simple (r : regex) : bool :=
  match r with
  | Empty | Char _ | Dot => true
  | Seq a b | Alt a b => simple a && simple b
  | Star a => simple a
  | Class _ | WordBoundary | Group _ => false
  end.

Definition insensitive (re : RegExp) : bool :=
  simple (source re) && ignoreCase re && negb (global re).

Definition same_ahead (st st' : mstate) : Prop :=
  same_ignoring_case (ahead st) (ahead st').

(** *** Entities *)

(** [\b] between the text [left] and the text [right]: exactly one of the
    two characters that meet there is a word character. *)
Definition boundary (left right : list ascii) : bool :=
  xorb (is_word_at (rev left)) (is_word_at right).

(** [w], standing between [pre] and [post], is a term of the vocabulary [V]
    up to letter case, with a word boundary on either side. *)
Definition word_occurrence (V : list string) (pre w post : list ascii) : Prop :=
  boundary pre (w ++ post) = true /\ boundary (pre ++ w) post = true /\
  exists term, In term V /\ same_ignoring_case w (chars term).

(** [w], standing between [pre] and [post], is a term of the vocabulary [V]
    up to letter case and a word of its own: no word character comes right
    before it or right after it. *)
Definition whole_word (V : list string) (pre w post : list ascii) : Prop :=
  is_word_at (rev pre) = false /\ is_word_at post = false /\
  exists term, In term V /\ same_ignoring_case w (chars term).

Definition word_pattern (V : list string) : RegExp :=
  mkRegExp (seqs [WordBoundary; alts (map lit V); WordBoundary]) true true.

(** [Scan Occ pre rest ws]: reading [rest] (which follows [pre]) from left to
    right, [ws] are the occurrences found one after the other, each the first
    to start at or after the end of the previous one, until none is left. *)
Inductive Scan (Occ : list ascii -> list ascii -> list ascii -> Prop)
  : list ascii -> list ascii -> list (list ascii) -> Prop :=
| Scan_end pre rest :
    (forall s1 w post, rest = s1 ++ w ++ post -> ~ Occ (pre ++ s1) w post) ->
    Scan Occ pre rest []
| Scan_hit pre gap w post ws :
    (forall s1 s2 w' post', gap = s1 ++ s2 -> s2 <> [] ->
       s2 ++ w ++ post = w' ++ post' -> ~ Occ (pre ++ s1) w' post') ->
    Occ (pre ++ gap) w post ->
    Scan Occ (pre ++ gap ++ w) post ws ->
    Scan Occ pre (gap ++ w ++ post) (w :: ws).

(** What follows the number in a mention of years of experience: optional
    blanks, [year], [years], [yr] or [yrs], optional blanks, optionally [of]
    and blanks, then [experience] or [exp]; letters in either case. *)
Definition experience_phrase (phrase : list ascii) : Prop :=
  exists ws1 unit ws2 of_part kw,
    phrase = ws1 ++ unit ++ ws2 ++ of_part ++ kw /\
    all_of is_space ws1 /\
    (exists u, In u ["year"; "years"; "yr"; "yrs"] /\
               same_ignoring_case unit (chars u)) /\
    all_of is_space ws2 /\
    (of_part = [] \/
     exists o ws3, of_part = o ++ ws3 /\
                   same_ignoring_case o (chars "of") /\ all_of is_space ws3) /\
    (exists k, In k ["experience"; "exp"] /\ same_ignoring_case kw (chars k)).

Definition experience_occurrence (digits phrase : list ascii) : Prop :=
  digits <> [] /\ all_of is_digit digits /\ experience_phrase phrase.

(** *** Classification *)

Definition no_rule_matches (table : list (ChatIntent * list RegExp))
           (query : list ascii) : Prop :=
  forall i patterns pattern,
    In (i, patterns) table -> In pattern patterns -> test pattern query = false.

(** *** Retrieval *)

(** The comparator that puts the larger key first, the order it aims at, and
    the elements of one key. *)
Definition key_desc {A : Type} (key : A -> Q) (a b : A) : Q :=
  (key b - key a)%Q.
Definition not_below {A : Type} (key : A -> Q) (a b : A) : Prop :=
  (key b <= key a)%Q.
Definition has_key {A : Type} (key : A -> Q) (v : Q) (a : A) : bool :=
  Qeq_bool (key a) v.

Definition by_relevance (a b : EvidenceSource) : Prop :=
  (relevanceScore b <= relevanceScore a)%Q.

(** What one numbered sentence adds to the evidence: nothing, or its
    entry. *)
Definition entry (queryTerms : list (list ascii)) (ns : nat * list ascii)
  : list EvidenceSource :=
  let sentence := trim (snd ns) in
  let relevanceScore := count_terms (toLowerCase sentence) queryTerms in
  if 0 <? relevanceScore then
    [ mkEvidence (chars "resume") sentence
        (quotient relevanceScore (length queryTerms))
        (chars "Sentence " ++ number_to_string (fst ns)) ]
  else [].

(** The sentences with their numbers, from [i + 1] on. *)
Definition numbered (i : nat) (sentences : list (list ascii))
  : list (nat * list ascii) :=
  combine (seq (i + 1) (length sentences)) sentences.

(** The sentences that survive, in the order of the text. *)
Definition survivors (resumeText : option (list ascii))
           (query : list ascii) : list EvidenceSource :=
  match resumeText with
  | Some resumeText =>
      flat_map (entry (queryTerms_of query))
               (numbered 0 (sentences_of resumeText))
  | None => []
  end.

(** The entry of a sentence whatever the query. *)
Definition full_entry (score : Q) (ns : nat * list ascii) : EvidenceSource :=
  mkEvidence (chars "resume") (trim (snd ns)) score
             (chars "Sentence " ++ number_to_string (fst ns)).

(** *** Composition *)

(** The text the collaborator generated, if any. *)
Definition generated_text (completion : OpenAI.Completion)
  : option (list ascii) :=
  match OpenAI.choices completion with
  | choice :: _ =>
      match OpenAI.message choice with
      | Some m => OpenAI.content m
      | None => None
      end
  | [] => None
  end.

Definition fixed_error_messages : list (list ascii) :=
  [authMessage; rateLimitMessage; quotaMessage; modelMessage; genericMessage].

(** The lines of the context summary, field by field: a field that is absent
    or empty gives no line. *)
Definition field_line (label : string) (value : option (list ascii))
  : list (list ascii) :=
  match value with
  | Some (c :: s) => [chars label ++ c :: s]
  | _ => []
  end.

Definition jobDescription_line (value : option (list ascii))
  : list (list ascii) :=
  match value with
  | Some (c :: s) =>
      [chars "Job Description: " ++ firstn 500 (c :: s) ++ chars "..."]
  | _ => []
  end.

(** The line of the score is there whenever an evaluation is. *)
Definition score_line (Number_toString : Q -> list ascii)
           (value : option EvaluationResult) : list (list ascii) :=
  match value with
  | Some e => [chars "Evaluation Score: " ++ overall_or_NA Number_toString e]
  | None => []
  end.

Definition summary_lines (Number_toString : Q -> list ascii)
           (context : ChatContext) : list (list ascii) :=
  field_line "Candidate: " (candidateName context)
  ++ jobDescription_line (jobDescription context)
  ++ field_line "Must-Have Attributes: " (mustHaveAttributes context)
  ++ score_line Number_toString (evaluationResult context)
  ++ field_line "Tier: "
       (match evaluationResult context with
        | Some e => tier e
        | None => None
        end)
  ++ field_line "Evaluation Summary: "
       (match evaluationResult context with
        | Some e => explanation e
        | None => None
        end).

(** *** Retrieval in either letter case *)

(** Two entries that differ at most in the letter case of their content. *)
Definition same_entry (a b : EvidenceSource) : Prop :=
  type a = type b /\ same_ignoring_case (content a) (content b) /\
  relevanceScore a = relevanceScore b /\ location a = location b.

(** *** Configuration *)

(** A series of calls of [getOpenAIClient], one in each of the given
    surroundings: the outcomes and the variable [openai] at the end. *)
Fixpoint calls (newOpenAI : list ascii -> Outcome OpenAI.Client)
         (worlds : list Configuration.Surroundings)
         (openai : option OpenAI.Client)
  : list (Outcome OpenAI.Client) * option OpenAI.Client :=
  match worlds with
  | [] => ([], openai)
  | world :: rest =>
      let (outcome, openai) :=
        Configuration.getOpenAIClient newOpenAI world openai in
      let (outcomes, openai) := calls newOpenAI rest openai in
      (outcome :: outcomes, openai)
  end.

(** What [generateResponse] meets in given surroundings. *)
Definition env_of (newOpenAI : list ascii -> Outcome OpenAI.Client)
           (world : Configuration.Surroundings)
           (openai : option OpenAI.Client) (deployment : list ascii) : Env :=
  mkEnv (Configuration.isUsingAzure world) deployment
        (fst (Configuration.getOpenAIClient newOpenAI world openai)).

(** The outcome of one call that is in order given the variable before it:
    with Azure the Azure client; else the client of the variable; else, the
    variable being empty, an error. *)
Definition served (openai : option OpenAI.Client)
           (world : Configuration.Surroundings)
           (outcome : Outcome OpenAI.Client) : Prop :=
  if Configuration.isUsingAzure world
  then outcome = Configuration.getAzureOpenAIClient world
  else match openai with
       | Some client => outcome = Returned client
       | None => exists e, outcome = Threw e
       end.

(** *** Dashboard *)

(** The key of the ranking. *)
Definition preferred (r : Dashboard.EvaluationResult) : Q :=
  Dashboard.preferredQualifications (Dashboard.scores r).

(** The candidates that meet the must-haves, in the order of the input. *)
Definition qualified (results : list Dashboard.EvaluationResult)
  : list Dashboard.EvaluationResult :=
  List.filter Dashboard.mustHavesMet results.

(** The first entry of [l] with the given identifier, and its index. *)
Fixpoint first_with_id (id : list ascii) (l : list Dashboard.EvaluationResult)
  : option (nat * Dashboard.EvaluationResult) :=
  match l with
  | [] => None
  | c :: rest =>
      if Dashboard.strict_equal (Dashboard.candidateId c) id then Some (0, c)
      else match first_with_id id rest with
           | Some (i, d) => Some (S i, d)
           | None => None
           end
  end.


(** The result carries the given quartile label. *)
Definition has_tier (label : string) (r : Dashboard.EvaluationResult) : bool :=
  match Dashboard.quartileTier r with
  | Some t => Dashboard.strict_equal t (chars label)
  | None => false
  end.

(** The qualified results that carry the given quartile label. *)
Definition members (label : string) (results : list Dashboard.EvaluationResult)
  : list Dashboard.EvaluationResult :=
  List.filter (fun r => Dashboard.mustHavesMet r && has_tier label r) results.

(** The qualified candidates in the order [processedResults] sorts them
    into, and the place of a candidate in it, from 0. *)
Definition ranking (initialResults : list Dashboard.EvaluationResult)
  : list Dashboard.EvaluationResult :=
  sort Dashboard.by_preferred_desc (qualified initialResults).

Definition place (initialResults : list Dashboard.EvaluationResult)
           (o : Dashboard.EvaluationResult) : nat :=
  match first_with_id (Dashboard.candidateId o) (ranking initialResults) with
  | Some (i, _) => i
  | None => 0
  end.

(** A candidate for the examples, and thirteen of them, all but the fourth
    qualified. *)
Definition candidate (id : nat) (met : bool) (preferredScore : Z)
  : Dashboard.EvaluationResult :=
  Dashboard.mkResult (number_to_string id) [] 
                     (Dashboard.mkScores 0 (inject_Z preferredScore))
                     [] [] met [] [] None None None.

Definition thirteen : list Dashboard.EvaluationResult :=
  map (fun i => candidate i (negb (i =? 3)) (Z.of_nat (i mod 4))) (seq 0 13).

(** *** The error boundary *)

(** The state of the boundary after it caught the given errors, one after
    the other. *)
Definition state_after (errors : list (list ascii)) : ErrorBoundary.State :=
  fold_left (fun _ error => ErrorBoundary.getDerivedStateFromError error)
            errors ErrorBoundary.initial.

(** ** Facts about characters, checked on all 256 of them *)

Lemma in_all_ascii (c : ascii) : In c all_ascii.
Proof.
  unfold all_ascii. rewrite <- (ascii_nat_embedding c).
  apply in_map, in_seq. pose proof (nat_ascii_bounded c). lia.
Qed.

Lemma for_all_ascii (P : ascii -> bool) :
  forallb P all_ascii = true -> forall c, P c = true.
Proof. intros H c. rewrite forallb_forall in H. apply H, in_all_ascii. Qed.

Lemma for_all_ascii2 (P : ascii -> ascii -> bool) :
  forallb (fun a => forallb (P a) all_ascii) all_ascii = true ->
  forall a b, P a b = true.
Proof.
  intros H a b. apply (for_all_ascii (P a)).
  apply (for_all_ascii (fun a => forallb (P a) all_ascii) H).
Qed.

Lemma lower_space c : is_space c = true -> lower_char c = c.
Proof.
  intros H. apply Ascii.eqb_eq. revert H.
  assert (Hall : implb (is_space c) (Ascii.eqb (lower_char c) c) = true).
  { apply (for_all_ascii (fun c => implb (is_space c) (Ascii.eqb (lower_char c) c))).
    vm_compute. reflexivity. }
  intros H. now rewrite H in Hall.
Qed.

(** ** Strings *)

Section Strings.

Lemma startsWith_iff : forall t s,
  startsWith s t = true <-> exists post, s = t ++ post.
Proof.
  induction t as [|b t IH]; intros s.
  - destruct s; simpl; split; eauto.
  - destruct s as [|a s].
    + simpl. split; [discriminate | intros [post H]; discriminate].
    + change (startsWith (a :: s) (b :: t))
        with (char_eqb a b && startsWith s t).
      unfold char_eqb. rewrite andb_true_iff, Ascii.eqb_eq, IH. split.
      * intros [-> [post ->]]. now exists post.
      * intros [post H]. injection H as -> ->. eauto.
Qed.

Lemma includes_iff : forall s t, includes s t = true <-> contains s t.
Proof.
  unfold contains. induction s as [|a s IH]; intros t.
  - change (includes [] t) with (startsWith [] t || false).
    rewrite orb_false_r, startsWith_iff. split.
    + intros [post H]. now exists [], post.
    + intros [pre [post H]]. destruct pre; [|discriminate]. now exists post.
  - change (includes (a :: s) t) with (startsWith (a :: s) t || includes s t).
    rewrite orb_true_iff, startsWith_iff, IH. split.
    + intros [[post H]|[pre [post H]]].
      * now exists [], post.
      * exists (a :: pre), post. simpl. now rewrite H.
    + intros [pre [post H]]. destruct pre as [|a' pre].
      * left. now exists post.
      * right. injection H as -> H. now exists pre, post.
Qed.

Lemma includes_empty s : includes s [] = true.
Proof. apply includes_iff. now exists [], s. Qed.

Lemma lower_char_idem c : lower_char (lower_char c) = lower_char c.
Proof.
  apply Ascii.eqb_eq.
  apply (for_all_ascii (fun c => Ascii.eqb (lower_char (lower_char c)) (lower_char c))).
  vm_compute. reflexivity.
Qed.

Lemma toLowerCase_idem s : toLowerCase (toLowerCase s) = toLowerCase s.
Proof.
  unfold toLowerCase. rewrite map_map. apply map_ext. apply lower_char_idem.
Qed.

Lemma toLowerCase_fixed s :
  Forall (fun c => lower_char c = c) s <-> toLowerCase s = s.
Proof.
  unfold toLowerCase. induction s as [|c s IH]; simpl.
  - split; auto.
  - split.
    + intros H. inversion H; subst. f_equal; [assumption | now apply IH].
    + intros H. injection H as H1 H2. constructor; [assumption | now apply IH].
Qed.

Lemma includes_lower_iff s t :
  toLowerCase t = t ->
  (includes (toLowerCase s) t = true <-> occurs_ignoring_case t s).
Proof.
  intros Ht. rewrite includes_iff.
  unfold contains, occurs_ignoring_case, same_ignoring_case. rewrite Ht.
  unfold toLowerCase. split.
  - intros (pre & post & H). apply map_eq_app in H.
    destruct H as (p & r & -> & Hp & Hr). apply map_eq_app in Hr.
    destruct Hr as (w & q & -> & Hw & Hq). now exists p, w, q.
  - intros (pre & w & post & -> & <-).
    exists (map lower_char pre), (map lower_char post). now rewrite !map_app.
Qed.

(** The pieces of a split. *)
Lemma pieces_loop_not_empty sep : forall s b cur, pieces_loop sep b cur s <> [].
Proof.
  induction s as [|c s IH]; intros b cur; simpl; [discriminate|].
  destruct (sep c); [destruct b; [apply IH | discriminate] | apply IH].
Qed.

Lemma pieces_length sep s : 1 <= length (pieces sep s).
Proof.
  unfold pieces. pose proof (pieces_loop_not_empty sep s false []).
  destruct (pieces_loop sep false [] s); [congruence | simpl; lia].
Qed.



Lemma pieces_empty sep : pieces sep [] = [[]].
Proof. reflexivity. Qed.

(** A text of separators only splits into empty pieces. *)
Lemma pieces_loop_separators sep : forall s b,
  all_of sep s -> Forall (fun t => t = []) (pieces_loop sep b [] s).
Proof.
  induction s as [|c s IH]; intros b H; simpl.
  - repeat constructor.
  - inversion H as [|? ? Hc Hs]; subst. rewrite Hc.
    destruct b; [now apply IH | constructor; [reflexivity | now apply IH]].
Qed.

End Strings.

Lemma toLowerCase_spaces q : all_of is_space q -> toLowerCase q = q.
Proof.
  intros H. apply toLowerCase_fixed.
  eapply List.Forall_impl; [|exact H]. intros c. apply lower_space.
Qed.

Lemma firstn_In {A : Type} (n : nat) (l : list A) (x : A) :
  In x (firstn n l) -> In x l.
Proof.
  intros H. rewrite <- (firstn_skipn n l). apply in_or_app. now left.
Qed.

(** ** The matcher against the relation *)

Section Matcher.

Variable icase : bool.


Lemma reads_nil st : reads st [] st.
Proof. split; reflexivity. Qed.

Lemma reads_advance st c rest :
  ahead st = c :: rest -> reads st [c] (advance c rest st).
Proof. intros H. split; simpl; auto. Qed.

Lemma reads_trans st w1 st1 w2 st2 :
  reads st w1 st1 -> reads st1 w2 st2 -> reads st (w1 ++ w2) st2.
Proof.
  intros [H1 H2] [H3 H4]. split.
  - rewrite H1, H3. now rewrite app_assoc.
  - rewrite H4, H2, rev_app_distr. now rewrite app_assoc.
Qed.

Lemma reads_length st w st' :
  reads st w st' -> length (ahead st) = length w + length (ahead st').
Proof. intros [H _]. rewrite H. apply length_app. Qed.

Lemma reads_consumed st w st' : reads st w st' -> consumed st st' = w.
Proof.
  intros H. unfold consumed. rewrite (reads_length _ _ _ H).
  destruct H as [H _]. rewrite H.
  replace (length w + length (ahead st') - length (ahead st')) with (length w) by lia.
  rewrite firstn_app, Nat.sub_diag, firstn_all. simpl. apply app_nil_r.
Qed.

Lemma Matches_reads r st st' :
  Matches icase r st st' -> exists w, reads st w st'.
Proof.
  induction 1.
  - exists []. apply reads_nil.
  - exists [c]. now apply reads_advance.
  - exists [c]. now apply reads_advance.
  - exists [c]. now apply reads_advance.
  - destruct IHMatches1 as [w1 Hw1], IHMatches2 as [w2 Hw2].
    exists (w1 ++ w2). eapply reads_trans; eauto.
  - assumption.
  - assumption.
  - exists []. apply reads_nil.
  - destruct IHMatches1 as [w1 Hw1], IHMatches2 as [w2 Hw2].
    exists (w1 ++ w2). eapply reads_trans; eauto.
  - exists []. apply reads_nil.
  - destruct IHMatches as [w Hw]. exists w. exact Hw.
Qed.

Lemma step_if_sound ok st k res :
  step_if ok st k = Some res ->
  exists c rest, ahead st = c :: rest /\ ok c = true /\
                 k (advance c rest st) = Some res.
Proof.
  unfold step_if. destruct (ahead st) as [|c rest]; [discriminate|].
  destruct (ok c) eqn:E; [|discriminate]. intros H. now exists c, rest.
Qed.

Lemma step_if_complete ok st k c rest :
  ahead st = c :: rest -> ok c = true ->
  step_if ok st k = k (advance c rest st).
Proof. intros H1 H2. unfold step_if. now rewrite H1, H2. Qed.


Lemma star_loop_sound r (IH : sound_at icase r) fuel :
  forall st k res,
    star_loop fuel (run icase r) st k = Some res ->
    exists st', Matches icase (Star r) st st' /\ k st' = Some res.
Proof.
  induction fuel as [|fuel IHf]; intros st k res; simpl.
  - intros H. exists st. split; [constructor | exact H].
  - destruct (run icase r st _) as [x|] eqn:E.
    + intros Hx. injection Hx as ->.
      apply IH in E. destruct E as [st1 [HM Hk]].
      destruct (length (ahead st1) <? length (ahead st)) eqn:Hlt; [|discriminate].
      apply IHf in Hk. destruct Hk as [st2 [HM2 Hk2]].
      exists st2. split; [|exact Hk2].
      apply Nat.ltb_lt in Hlt. eapply M_StarRound; eauto.
    + intros H. exists st. split; [constructor | exact H].
Qed.

Lemma run_sound r : sound_at icase r.
Proof.
  induction r; intros st k res; simpl.
  - intros H. exists st. split; [constructor | exact H].
  - intros H. apply step_if_sound in H. destruct H as (c & rest & H1 & H2 & H3).
    exists (advance c rest st). split; [now apply M_Char | exact H3].
  - intros H. apply step_if_sound in H. destruct H as (c & rest & H1 & H2 & H3).
    exists (advance c rest st).
    split; [apply M_Dot; [exact H1 | now apply negb_true_iff] | exact H3].
  - intros H. apply step_if_sound in H. destruct H as (c & rest & H1 & H2 & H3).
    exists (advance c rest st). split; [now apply M_Class | exact H3].
  - intros H. apply IHr1 in H. destruct H as [st1 [H1 H]].
    apply IHr2 in H. destruct H as [st2 [H2 H]].
    exists st2. split; [eapply M_Seq; eauto | exact H].
  - destruct (run icase r1 st k) eqn:E.
    + intros H. injection H as ->. apply IHr1 in E. destruct E as [st' [H1 H2]].
      exists st'. split; [now apply M_AltL | exact H2].
    + intros H. apply IHr2 in H. destruct H as [st' [H1 H2]].
      exists st'. split; [now apply M_AltR | exact H2].
  - intros H. exact (star_loop_sound r IHr (S (length (ahead st))) st k res H).
  - destruct (at_boundary st) eqn:E; [|discriminate].
    intros H. exists st. split; [now constructor | exact H].
  - intros H. apply IHr in H. destruct H as [st' [H1 H2]].
    eexists. split; [apply M_Group; exact H1 | exact H2].
Qed.


Lemma star_loop_ext r (IH : ext_at icase r) fuel :
  forall st k1 k2, (forall s, k1 s = k2 s) ->
    star_loop fuel (run icase r) st k1 = star_loop fuel (run icase r) st k2.
Proof.
  induction fuel as [|fuel IHf]; intros st k1 k2 Hk; simpl.
  - apply Hk.
  - rewrite (IH st _ (fun st' =>
        if length (ahead st') <? length (ahead st)
        then star_loop fuel (run icase r) st' k2 else None)).
    + now rewrite Hk.
    + intros s. destruct (_ <? _); [now apply IHf | reflexivity].
Qed.

Lemma run_ext r : ext_at icase r.
Proof.
  induction r; intros st k1 k2 Hk; simpl;
    try (unfold step_if; destruct (ahead st); [reflexivity|];
         match goal with |- context [if ?b then _ else _] => destruct b end;
         [apply Hk | reflexivity]).
  - apply Hk.
  - apply IHr1. intros s. now apply IHr2.
  - rewrite (IHr1 st k1 k2 Hk), (IHr2 st k1 k2 Hk). reflexivity.
  - exact (star_loop_ext r IHr (S (length (ahead st))) st k1 k2 Hk).
  - destruct (at_boundary st); [apply Hk | reflexivity].
  - apply IHr. intros s. apply Hk.
Qed.

(** Fuel beyond the characters ahead is never used. *)
Lemma star_loop_fuel r : forall fuel1 fuel2 st k,
  length (ahead st) < fuel1 -> length (ahead st) < fuel2 ->
  star_loop fuel1 (run icase r) st k = star_loop fuel2 (run icase r) st k.
Proof.
  induction fuel1 as [|fuel1 IH]; intros fuel2 st k H1 H2; [lia|].
  destruct fuel2 as [|fuel2]; [lia|]. simpl.
  rewrite (run_ext r st _ (fun st' =>
        if length (ahead st') <? length (ahead st)
        then star_loop fuel2 (run icase r) st' k else None)); [reflexivity|].
  intros s. destruct (length (ahead s) <? length (ahead st)) eqn:E; [|reflexivity].
  apply Nat.ltb_lt in E. apply IH; lia.
Qed.

Lemma run_complete r st st' :
  Matches icase r st st' ->
  forall k, is_Some (k st') -> is_Some (run icase r st k).
Proof.
  induction 1; intros k Hk; simpl.
  - exact Hk.
  - erewrite step_if_complete; eauto.
  - erewrite step_if_complete; eauto. now apply negb_true_iff.
  - erewrite step_if_complete; eauto.
  - apply IHMatches1. now apply IHMatches2.
  - destruct (IHMatches k Hk) as [x ->]. eauto.
  - destruct (run icase r1 st k); [eauto | now apply IHMatches].
  - destruct (run icase r st _); [eauto | exact Hk].
  - assert (Hin : is_Some (run icase r st (fun st' =>
             if length (ahead st') <? length (ahead st)
             then star_loop (length (ahead st)) (run icase r) st' k
             else None))).
    { apply IHMatches1.
      destruct (length (ahead st1) <? length (ahead st)) eqn:E.
      - rewrite (star_loop_fuel r _ (S (length (ahead st1)))); [|lia|lia].
        apply (IHMatches2 k Hk).
      - apply Nat.ltb_ge in E. lia. }
    destruct Hin as [x ->]. eauto.
  - rewrite H. exact Hk.
  - apply IHMatches. exact Hk.
Qed.

(** Literal text. *)

Lemma lit_matches_elim t : forall st st',
  Matches icase (lit_of t) st st' ->
  exists w, reads st w st' /\ Forall2 (fun p c => char_matches icase p c = true) t w /\
            capture st' = capture st.
Proof.
  induction t as [|p t IH]; intros st st' H; simpl in H.
  - inversion H; subst. exists []. split; [apply reads_nil | split; [constructor | reflexivity]].
  - inversion H as [| | | |r1 r2 s0 s1 s2 Hc Ht| | | | | |]; subst.
    inversion Hc as [|p0 c rest s0 Hah Hcm| | | | | | | | |]; subst.
    apply IH in Ht. destruct Ht as (w & Hr & Hf & Hcap).
    exists (c :: w). split; [|split].
    + apply (reads_trans st [c] (advance c rest st) w st'); [now apply reads_advance | exact Hr].
    + constructor; assumption.
    + exact Hcap.
Qed.

Lemma lit_matches_intro t w : Forall2 (fun p c => char_matches icase p c = true) t w ->
  forall st post, ahead st = w ++ post ->
    Matches icase (lit_of t) st
            (mkState (rev w ++ before st) post (capture st)).
Proof.
  induction 1 as [|p c t w Hpc Hf IH]; intros st post Hah; simpl.
  - destruct st as [b a cp]. simpl in *. subst. constructor.
  - simpl in Hah. eapply M_Seq.
    + apply (M_Char icase p c (w ++ post) st Hah Hpc).
    + specialize (IH (advance c (w ++ post) st) post eq_refl).
      simpl in IH. rewrite <- app_assoc. exact IH.
Qed.

(** A choice among several patterns. *)
Lemma alts_matches rs st st' : rs <> [] ->
  (Matches icase (alts rs) st st' <-> exists r, In r rs /\ Matches icase r st st').
Proof.
  induction rs as [|r rs IH]; [congruence|]. intros _.
  destruct rs as [|r' rs].
  - simpl. split.
    + intros H. exists r. auto.
    + intros [r0 [[->|[]] H]]. exact H.
  - change (alts (r :: r' :: rs)) with (Alt r (alts (r' :: rs))). split.
    + intros H. inversion H as [| | | | |? ? ? ? HL|? ? ? ? HR| | | |]; subst.
      * exists r. split; [now left | assumption].
      * apply IH in HR; [|congruence]. destruct HR as [r0 [Hin HM]].
        exists r0. split; [now right | exact HM].
    + intros [r0 [[->|Hin] HM]].
      * now apply M_AltL.
      * apply M_AltR. apply IH; [congruence|]. now exists r0.
Qed.

(** A run of characters of one class. *)
Lemma star_class_elim p : forall st st',
  Matches icase (Star (Class p)) st st' ->
  exists w, reads st w st' /\ Forall (fun c => p c = true) w /\
            capture st' = capture st.
Proof.
  intros st st' H. remember (Star (Class p)) as r eqn:Er.
  induction H; try discriminate.
  - exists []. split; [apply reads_nil | split; [constructor | reflexivity]].
  - injection Er as ->. specialize (IHMatches2 eq_refl).
    destruct IHMatches2 as (w & Hr & Hf & Hcap).
    inversion H as [| | |p0 c rest s0 Hah Hpc| | | | | | |]; subst.
    exists (c :: w). split; [|split].
    + apply (reads_trans st [c] (advance c rest st) w st2); [now apply reads_advance | exact Hr].
    + now constructor.
    + exact Hcap.
Qed.

Lemma star_class_intro p w : Forall (fun c => p c = true) w ->
  forall st post, ahead st = w ++ post ->
    Matches icase (Star (Class p)) st
            (mkState (rev w ++ before st) post (capture st)).
Proof.
  induction 1 as [|c w Hc Hf IH]; intros st post Hah; simpl.
  - destruct st as [b a cp]. simpl in *. subst. constructor.
  - simpl in Hah. eapply M_StarRound.
    + apply (M_Class icase p c (w ++ post) st Hah Hc).
    + simpl. rewrite Hah. simpl. lia.
    + specialize (IH (advance c (w ++ post) st) post eq_refl).
      simpl in IH. rewrite <- app_assoc. exact IH.
Qed.

End Matcher.

(** ** The search for a match *)

Section Search.

Variable re : RegExp.


Lemma match_here_sound bef ah e :
  match_here re bef ah = Some e ->
  Matches (ignoreCase re) (source re) (start_state bef ah) e.
Proof.
  unfold match_here. intros H. apply run_sound in H.
  destruct H as [st' [HM Hk]]. now injection Hk as ->.
Qed.

Lemma match_here_complete bef ah e :
  Matches (ignoreCase re) (source re) (start_state bef ah) e ->
  is_Some (match_here re bef ah).
Proof.
  intros H. unfold match_here. eapply run_complete; [exact H | eauto].
Qed.

Lemma exec_from_sound : forall ah bef b0 a0 e,
  exec_from re bef ah = Some (b0, a0, e) ->
  exists skipped,
    ah = skipped ++ a0 /\ b0 = rev skipped ++ bef /\
    match_here re b0 a0 = Some e /\
    (forall s1 s2, skipped = s1 ++ s2 -> s2 <> [] ->
       match_here re (rev s1 ++ bef) (s2 ++ a0) = None).
Proof.
  induction ah as [|c ah IH]; intros bef b0 a0 e; simpl.
  - destruct (match_here re bef []) eqn:E; [|discriminate].
    intros H. injection H as <- <- <-. exists []. repeat split; auto.
    intros s1 s2 Hs Hne. destruct s1, s2; simpl in Hs; congruence.
  - destruct (match_here re bef (c :: ah)) eqn:E.
    + intros H. injection H as <- <- <-. exists []. repeat split; auto.
      intros s1 s2 Hs Hne. destruct s1, s2; simpl in Hs; congruence.
    + intros H. apply IH in H. destruct H as (sk & H1 & H2 & H3 & H4).
      exists (c :: sk). split; [now rewrite H1|]. split.
      { simpl. rewrite <- app_assoc. exact H2. }
      split; [exact H3|].
      intros s1 s2 Hs Hne. destruct s1 as [|c1 s1].
      * simpl in *. subst s2. simpl. rewrite <- H1. exact E.
      * simpl in Hs. injection Hs as <- Hs.
        simpl. rewrite <- app_assoc. simpl. now apply H4.
Qed.

Lemma exec_from_complete : forall skipped a0 bef,
  is_Some (match_here re (rev skipped ++ bef) a0) ->
  is_Some (exec_from re bef (skipped ++ a0)).
Proof.
  induction skipped as [|c sk IH]; intros a0 bef H; simpl in *.
  - destruct a0; simpl; destruct H as [x ->]; eauto.
  - destruct (match_here re bef (c :: sk ++ a0)); [eauto|].
    apply IH. rewrite <- app_assoc in H. exact H.
Qed.

Lemma exec_from_none : forall ah bef,
  exec_from re bef ah = None ->
  forall s1 s2, ah = s1 ++ s2 -> match_here re (rev s1 ++ bef) s2 = None.
Proof.
  intros ah bef H s1 s2 ->.
  destruct (match_here re (rev s1 ++ bef) s2) eqn:E; [|reflexivity].
  assert (Hs : is_Some (exec_from re bef (s1 ++ s2))).
  { apply exec_from_complete. rewrite E. eauto. }
  rewrite H in Hs. destruct Hs. discriminate.
Qed.

End Search.


(** ** Splitting on runs of characters of a class *)

Section Splitting.

Variable sep : ascii -> bool.
Variables icase glob : bool.

(** A repetition of the class reads the whole run. *)
Lemma star_class_greedy : forall fuel st,
  length (ahead st) < fuel ->
  exists e,
    star_loop fuel (step_if sep) st Some = Some e /\
    ahead e = drop_run sep (ahead st).
Proof.
  induction fuel as [|fuel IH]; intros st Hfuel; [lia|].
  simpl. unfold step_if at 1.
  destruct (ahead st) as [|c rest] eqn:Hah.
  - exists st. now rewrite Hah.
  - simpl. destruct (sep c) eqn:Hc.
    + assert (Hlt : (length rest <? S (length rest)) = true)
        by (apply Nat.ltb_lt; lia).
      rewrite Hlt.
      destruct (IH (mkState (c :: before st) rest (capture st)))
        as (e & He & Hrest); [simpl in *; lia|].
      rewrite He. now exists e.
    + exists st. now rewrite Hah.
Qed.

Lemma runs_match_here bef ah :
  match ah with
  | c :: rest =>
      if sep c then
        exists e, match_here (runs sep icase glob) bef ah = Some e /\
                  ahead e = drop_run sep rest
      else match_here (runs sep icase glob) bef ah = None
  | [] => match_here (runs sep icase glob) bef ah = None
  end.
Proof.
  unfold match_here, runs. simpl. unfold step_if. simpl.
  destruct ah as [|c rest]; [reflexivity|].
  destruct (sep c); [|reflexivity].
  destruct (star_class_greedy (S (length rest))
              (mkState (c :: bef) rest None)) as (e & He & Hrest);
    [simpl; lia|].
  exists e. split; [exact He | exact Hrest].
Qed.

Lemma drop_run_length s : length (drop_run sep s) <= length s.
Proof.
  induction s as [|c s IH]; simpl; [lia|].
  destruct (sep c); simpl; lia.
Qed.

Lemma pieces_loop_in_run : forall s,
  pieces_loop sep true [] s = pieces_loop sep false [] (drop_run sep s).
Proof.
  induction s as [|c s IH]; simpl; [reflexivity|].
  destruct (sep c) eqn:Hc; [exact IH|]. simpl. now rewrite Hc.
Qed.

Lemma split_loop_pieces : forall fuel piece bef ah,
  length ah < fuel ->
  Regex.split_loop fuel (runs sep icase glob) piece bef ah = pieces_loop sep false piece ah.
Proof.
  induction fuel as [|fuel IH]; intros piece bef ah Hfuel; [lia|].
  destruct ah as [|c rest]; [reflexivity|].
  pose proof (runs_match_here bef (c :: rest)) as Hm.
  simpl in Hfuel. simpl Regex.split_loop. simpl pieces_loop.
  cbv beta iota in Hm. revert Hm. destruct (sep c); intros Hm.
  - destruct Hm as (e & -> & Hrest).
    pose proof (drop_run_length rest) as Hlen.
    assert (Hne : (length (ahead e) =? S (length rest)) = false).
    { apply Nat.eqb_neq. rewrite Hrest. lia. }
    rewrite Hne. simpl andb. cbv iota.
    rewrite pieces_loop_in_run, Hrest. f_equal. apply IH. lia.
  - rewrite Hm. apply IH. lia.
Qed.

Lemma split_pieces s : split (runs sep icase glob) s = pieces sep s.
Proof.
  unfold split, pieces. destruct s as [|c s].
  - pose proof (runs_match_here [] []) as H. simpl in H. now rewrite H.
  - apply split_loop_pieces. simpl. lia.
Qed.

End Splitting.

Lemma sentences_of_pieces resumeText :
  sentences_of resumeText
  = List.filter (fun s => 0 <? length (trim s))
                (pieces is_sentence_end resumeText).
Proof.
  unfold sentences_of. f_equal.
  apply (split_pieces is_sentence_end false false).
Qed.

Lemma queryTerms_of_pieces query :
  queryTerms_of query = pieces is_space (toLowerCase query).
Proof. apply (split_pieces is_space false false). Qed.

Lemma queryTerms_of_length query : 1 <= length (queryTerms_of query).
Proof. rewrite queryTerms_of_pieces. apply pieces_length. Qed.


(** ** Letter case *)

Lemma char_matches_lower p c :
  char_matches true p c = Ascii.eqb (lower_char p) (lower_char c).
Proof.
  apply Bool.eqb_prop.
  apply (for_all_ascii2 (fun p c => Bool.eqb (char_matches true p c)
                                     (Ascii.eqb (lower_char p) (lower_char c)))).
  vm_compute. reflexivity.
Qed.

Lemma ci_Forall2 t w :
  Forall2 (fun p c => char_matches true p c = true) t w <->
  same_ignoring_case w t.
Proof.
  unfold same_ignoring_case, toLowerCase. split.
  - induction 1 as [|p c t w H Hf IH]; simpl; [reflexivity|].
    rewrite char_matches_lower in H. apply Ascii.eqb_eq in H. now rewrite H, IH.
  - revert w. induction t as [|p t IH]; intros [|c w] H; simpl in H; try discriminate.
    + constructor.
    + injection H as H1 H2. constructor; [|now apply IH].
      rewrite char_matches_lower. apply Ascii.eqb_eq. now symmetry.
Qed.

Lemma same_ignoring_case_length a b :
  same_ignoring_case a b -> length a = length b.
Proof.
  unfold same_ignoring_case, toLowerCase. intros H.
  rewrite <- (length_map lower_char a), H. apply length_map.
Qed.

(** ** Whole-word occurrences of the terms of a vocabulary *)

Section WordPattern.

Variable V : list string.
Hypothesis V_not_empty : V <> [].

Lemma word_pattern_source :
  source (word_pattern V) =
  Seq WordBoundary (Seq (alts (map lit V)) WordBoundary).
Proof. reflexivity. Qed.

Lemma word_match_sound pre rest e :
  match_here (word_pattern V) (rev pre) rest = Some e ->
  exists w post, rest = w ++ post /\ ahead e = post /\
                 before e = rev (pre ++ w) /\ word_occurrence V pre w post.
Proof.
  intros H. apply match_here_sound in H.
  rewrite word_pattern_source in H. simpl ignoreCase in H.
  inversion H as [| | | |r1 r2 s0 s1 s2 Hb Hrest| | | | | |]; subst.
  inversion Hb as [| | | | | | | | |s Hb1|]; subst.
  inversion Hrest as [| | | |r1 r2 s0 s1 s2 Ha Hb2| | | | | |]; subst.
  inversion Hb2 as [| | | | | | | | |s Hb3|]; subst.
  apply alts_matches in Ha; [|destruct V; [congruence | discriminate]].
  destruct Ha as (r & Hin & Hm). apply in_map_iff in Hin.
  destruct Hin as (term & <- & Hterm).
  apply lit_matches_elim in Hm. destruct Hm as (w & [Hr1 Hr2] & Hf & _).
  simpl in Hr1, Hr2. exists w, (ahead e). repeat split; try assumption.
  - now rewrite rev_app_distr.
  - unfold boundary. rewrite <- Hr1. exact Hb1.
  - unfold boundary. rewrite rev_app_distr, <- Hr2. exact Hb3.
  - exists term. split; [exact Hterm | now apply ci_Forall2].
Qed.

Lemma word_match_complete pre w post :
  word_occurrence V pre w post ->
  is_Some (match_here (word_pattern V) (rev pre) (w ++ post)).
Proof.
  intros (Hb1 & Hb2 & term & Hterm & Hci).
  apply (match_here_complete _ _ _
           (mkState (rev w ++ rev pre) post None)).
  rewrite word_pattern_source. simpl ignoreCase.
  eapply M_Seq; [apply M_Boundary; exact Hb1|].
  eapply M_Seq; [|apply M_Boundary; unfold at_boundary; simpl;
                  rewrite <- rev_app_distr; exact Hb2].
  apply alts_matches; [destruct V; [congruence | discriminate]|].
  exists (lit term). split; [now apply in_map|].
  apply (lit_matches_intro true (chars term) w); [now apply ci_Forall2 | reflexivity].
Qed.

End WordPattern.

(** ** All the matches of a global pattern *)

Section GlobalMatch.

Variable re : RegExp.
Variable Occ : list ascii -> list ascii -> list ascii -> Prop.

Hypothesis Occ_sound : forall pre rest e,
  match_here re (rev pre) rest = Some e ->
  exists w post, rest = w ++ post /\ ahead e = post /\
                 before e = rev (pre ++ w) /\ Occ pre w post.
Hypothesis Occ_complete : forall pre w post,
  Occ pre w post -> is_Some (match_here re (rev pre) (w ++ post)).
Hypothesis Occ_not_empty : forall pre w post, Occ pre w post -> w <> [].

Lemma matched_text_app w post e :
  ahead e = post -> matched_text (w ++ post) e = w.
Proof.
  intros <-. unfold matched_text. rewrite length_app.
  replace (length w + length (ahead e) - length (ahead e)) with (length w) by lia.
  rewrite firstn_app, Nat.sub_diag, firstn_all. simpl. apply app_nil_r.
Qed.

Lemma match_all_loop_scan : forall fuel pre rest,
  length rest < fuel ->
  Scan Occ pre rest (match_all_loop fuel re (rev pre) rest).
Proof.
  induction fuel as [|fuel IH]; intros pre rest Hfuel; [lia|]. simpl.
  destruct (exec_from re (rev pre) rest) as [[[b0 a0] e]|] eqn:E.
  - apply exec_from_sound in E.
    destruct E as (gap & Hrest & Hb0 & Hm & Hleft). subst b0 rest.
    rewrite <- rev_app_distr in Hm.
    destruct (Occ_sound _ _ _ Hm) as (w & post & Ha0 & Hah & Hbef & Hocc).
    subst a0. rewrite (matched_text_app w post e Hah).
    pose proof (Occ_not_empty _ _ _ Hocc) as Hne.
    assert (Hlt : (length (ahead e) <? length (w ++ post)) = true).
    { apply Nat.ltb_lt. rewrite Hah, length_app.
      destruct w; [congruence | simpl; lia]. }
    rewrite Hlt, Hbef, Hah.
    apply Scan_hit.
    + intros s1 s2 w' post' Hgap Hs2 Heq Hocc'.
      apply Occ_complete in Hocc'.
      rewrite rev_app_distr, <- Heq, (Hleft s1 s2 Hgap Hs2) in Hocc'.
      destruct Hocc'. discriminate.
    + exact Hocc.
    + rewrite <- app_assoc. apply IH.
      rewrite !length_app in Hfuel.
      destruct w; [congruence | simpl in Hfuel; lia].
  - apply Scan_end. intros s1 w post Hrest Hocc.
    apply Occ_complete in Hocc.
    rewrite rev_app_distr, (exec_from_none re _ _ E s1 (w ++ post) Hrest) in Hocc.
    destruct Hocc. discriminate.
Qed.

Lemma match_global_scan s :
  exists ws, Scan Occ [] s ws /\
             match_global re s = match ws with [] => None | _ => Some ws end.
Proof.
  exists (match_all_loop (S (length s)) re [] s). split.
  - apply (match_all_loop_scan (S (length s)) [] s). lia.
  - unfold match_global. now destruct (match_all_loop _ _ _ _).
Qed.

End GlobalMatch.

Lemma Scan_nil_iff Occ pre rest ws :
  Scan Occ pre rest ws ->
  (ws <> [] <-> exists s1 w post, rest = s1 ++ w ++ post /\ Occ (pre ++ s1) w post).
Proof.
  intros H. destruct H as [pre rest Hno | pre gap w post ws Hleft Hocc Hrest].
  - split; [congruence|]. intros (s1 & w & post & Hr & Ho). exfalso. eapply Hno; eauto.
  - split; [|discriminate]. intros _. now exists gap, w, post.
Qed.

(** ** The pattern of the years of experience *)

Section ExperiencePattern.


Lemma plain_nil st : plain st [] st.
Proof. split; [apply reads_nil | reflexivity]. Qed.

Lemma plain_trans st w1 st1 w2 st2 :
  plain st w1 st1 -> plain st1 w2 st2 -> plain st (w1 ++ w2) st2.
Proof.
  intros [H1 H2] [H3 H4]. split; [eapply reads_trans; eauto | congruence].
Qed.

Lemma move_nil st : move st [] (ahead st) = st.
Proof. now destruct st. Qed.

Lemma move_move st w1 w2 post :
  move (move st w1 (w2 ++ post)) w2 post = move st (w1 ++ w2) post.
Proof. unfold move. simpl. now rewrite rev_app_distr, app_assoc. Qed.

Lemma Seq_inv icase a b st e :
  Matches icase (Seq a b) st e ->
  exists m, Matches icase a st m /\ Matches icase b m e.
Proof. intros H. inversion H; subst. eauto. Qed.

Lemma Alt_inv icase a b st e :
  Matches icase (Alt a b) st e ->
  Matches icase a st e \/ Matches icase b st e.
Proof. intros H. inversion H; subst; auto. Qed.

Lemma Empty_inv icase st e : Matches icase Empty st e -> e = st.
Proof. intros H. now inversion H. Qed.

Lemma lit_plain s st e :
  Matches true (lit s) st e ->
  exists w, plain st w e /\ same_ignoring_case w (chars s).
Proof.
  intros H. apply (lit_matches_elim true (chars s)) in H.
  destruct H as (w & Hr & Hf & Hc). exists w. split; [now split|].
  now apply ci_Forall2.
Qed.

Lemma lit_move s w st post :
  same_ignoring_case w (chars s) -> ahead st = w ++ post ->
  Matches true (lit s) st (move st w post).
Proof.
  intros H Hah. apply (lit_matches_intro true (chars s) w); [|exact Hah].
  now apply ci_Forall2.
Qed.

Lemma spaces_plain p st e :
  Matches true (Star (Class p)) st e ->
  exists w, plain st w e /\ all_of p w.
Proof.
  intros H. apply star_class_elim in H. destruct H as (w & Hr & Hf & Hc).
  exists w. split; [now split | exact Hf].
Qed.

Lemma spaces_move p w st post :
  all_of p w -> ahead st = w ++ post ->
  Matches true (Star (Class p)) st (move st w post).
Proof. intros H Hah. now apply star_class_intro. Qed.

(** A word with an optional last letter. *)
Lemma lit_opt_plain s c st e :
  Matches true (Seq (lit s) (Opt (Char c))) st e ->
  exists w, plain st w e /\
            (same_ignoring_case w (chars s) \/
             same_ignoring_case w (chars s ++ [c])).
Proof.
  intros H. apply Seq_inv in H. destruct H as (m & H1 & H2).
  apply lit_plain in H1. destruct H1 as (w & Hp & Hs).
  apply Alt_inv in H2. destruct H2 as [H2|H2].
  - inversion H2 as [|p0 c0 rest s0 Hah Hcm| | | | | | | | |]; subst.
    exists (w ++ [c0]). split.
    + eapply plain_trans; [exact Hp|]. split; [now apply reads_advance | reflexivity].
    + right. unfold same_ignoring_case, toLowerCase in *.
      rewrite !map_app, Hs. simpl. f_equal. f_equal.
      rewrite char_matches_lower in Hcm. apply Ascii.eqb_eq in Hcm. now symmetry.
  - apply Empty_inv in H2. subst e. exists w. auto.
Qed.

Lemma lit_opt_move s c w st post :
  same_ignoring_case w (chars s) \/ same_ignoring_case w (chars s ++ [c]) ->
  ahead st = w ++ post ->
  Matches true (Seq (lit s) (Opt (Char c))) st (move st w post).
Proof.
  intros [H|H] Hah.
  - eapply M_Seq; [apply lit_move; eauto | apply M_AltR, M_Empty].
  - unfold same_ignoring_case, toLowerCase in H.
    rewrite map_app in H. apply map_eq_app in H.
    destruct H as (w1 & w2 & -> & H1 & H2).
    destruct w2 as [|c2 [|? ?]]; try discriminate. simpl in H2.
    injection H2 as H2. rewrite <- app_assoc in Hah.
    eapply M_Seq; [apply (lit_move s w1 st ([c2] ++ post)); assumption|].
    apply M_AltL. rewrite <- move_move.
    apply (M_Char true c c2 post (move st w1 ([c2] ++ post))); [reflexivity|].
    rewrite char_matches_lower. apply Ascii.eqb_eq. now symmetry.
Qed.

End ExperiencePattern.

Section ExperienceMatch.

Lemma experience_source :
  source experiencePattern =
  Seq (Group (Plus (Class is_digit)))
    (Seq (Star (Class is_space))
      (Seq (Alt (Seq (lit "year") (Opt (Char "s")))
                (Seq (lit "yr") (Opt (Char "s"))))
        (Seq (Star (Class is_space))
          (Seq (Opt (Seq (lit "of") (Star (Class is_space))))
               (Alt (lit "experience") (lit "exp")))))).
Proof. reflexivity. Qed.

Lemma digits_plain st e :
  Matches true (Plus (Class is_digit)) st e ->
  exists w, plain st w e /\ w <> [] /\ all_of is_digit w.
Proof.
  intros H. apply Seq_inv in H. destruct H as (m & H1 & H2).
  inversion H1 as [| | |p0 c rest s0 Hah Hpc| | | | | | |]; subst.
  apply spaces_plain in H2. destruct H2 as (w & Hp & Hw).
  exists ([c] ++ w). split; [|split].
  - eapply plain_trans; [|exact Hp]. split; [now apply reads_advance | reflexivity].
  - discriminate.
  - now constructor.
Qed.

Lemma digits_move w st post :
  w <> [] -> all_of is_digit w -> ahead st = w ++ post ->
  Matches true (Plus (Class is_digit)) st (move st w post).
Proof.
  intros Hne Hw Hah. destruct w as [|c w]; [congruence|].
  inversion Hw as [|? ? Hc Hw']; subst.
  eapply M_Seq; [apply (M_Class true is_digit c (w ++ post) st Hah Hc)|].
  change (c :: w) with ([c] ++ w). rewrite <- move_move.
  now apply spaces_move.
Qed.

Lemma experience_match_sound bef rest e :
  match_here experiencePattern bef rest = Some e ->
  exists digits phrase post,
    rest = digits ++ phrase ++ post /\ capture e = Some digits /\
    experience_occurrence digits phrase.
Proof.
  intros H. apply match_here_sound in H.
  rewrite experience_source in H. simpl ignoreCase in H.
  apply Seq_inv in H. destruct H as (m1 & Hg & H).
  apply Seq_inv in H. destruct H as (m2 & Hs1 & H).
  apply Seq_inv in H. destruct H as (m3 & Hu & H).
  apply Seq_inv in H. destruct H as (m4 & Hs2 & H).
  apply Seq_inv in H. destruct H as (m5 & Ho & Hk).
  inversion Hg as [| | | | | | | | | |r0 s0 e0 Hd]; subst.
  apply digits_plain in Hd. destruct Hd as (digits & [Hrd _] & Hne & Hdig).
  pose proof (reads_consumed _ _ _ Hrd) as Hcons. rewrite Hcons in *.
  apply spaces_plain in Hs1. destruct Hs1 as (ws1 & Hp1 & Hws1).
  assert (Hunit : exists unit, plain m2 unit m3 /\
            exists u, In u ["year"; "years"; "yr"; "yrs"] /\
                      same_ignoring_case unit (chars u)).
  { apply Alt_inv in Hu. destruct Hu as [Hu|Hu];
      apply lit_opt_plain in Hu; destruct Hu as (w & Hp & [Hw|Hw]);
      exists w; (split; [exact Hp|]).
    - exists "year". split; [simpl; tauto | exact Hw].
    - exists "years". split; [simpl; tauto | exact Hw].
    - exists "yr". split; [simpl; tauto | exact Hw].
    - exists "yrs". split; [simpl; tauto | exact Hw]. }
  destruct Hunit as (unit & Hpu & Hunit).
  apply spaces_plain in Hs2. destruct Hs2 as (ws2 & Hp2 & Hws2).
  assert (Hof : exists of_part, plain m4 of_part m5 /\
            (of_part = [] \/
             exists o ws3, of_part = o ++ ws3 /\
               same_ignoring_case o (chars "of") /\ all_of is_space ws3)).
  { apply Alt_inv in Ho. destruct Ho as [Ho|Ho].
    - apply Seq_inv in Ho. destruct Ho as (m & Ho1 & Ho2).
      apply lit_plain in Ho1. destruct Ho1 as (o & Hpo & Hso).
      apply spaces_plain in Ho2. destruct Ho2 as (ws3 & Hp3 & Hws3).
      exists (o ++ ws3). split; [eapply plain_trans; eauto|].
      right. now exists o, ws3.
    - apply Empty_inv in Ho. subst m5. exists []. split; [apply plain_nil | now left]. }
  destruct Hof as (of_part & Hpo & Hof).
  assert (Hkw : exists kw, plain m5 kw e /\
            exists k, In k ["experience"; "exp"] /\
                      same_ignoring_case kw (chars k)).
  { apply Alt_inv in Hk. destruct Hk as [Hk|Hk];
      apply lit_plain in Hk; destruct Hk as (kw & Hp & Hs);
      exists kw; (split; [exact Hp|]).
    - exists "experience". split; [simpl; tauto | exact Hs].
    - exists "exp". split; [simpl; tauto | exact Hs]. }
  destruct Hkw as (kw & Hpk & Hkw).
  pose proof (plain_trans _ _ _ _ _ Hp1
               (plain_trans _ _ _ _ _ Hpu
                 (plain_trans _ _ _ _ _ Hp2
                   (plain_trans _ _ _ _ _ Hpo Hpk)))) as [[Hah _] Hcap].
  simpl in Hah, Hcap. destruct Hrd as [Hrd _]. simpl in Hrd.
  exists digits, (ws1 ++ unit ++ ws2 ++ of_part ++ kw), (ahead e).
  split; [|split].
  - rewrite Hrd, Hah. now rewrite <- app_assoc.
  - exact Hcap.
  - split; [exact Hne|]. split; [exact Hdig|].
    exists ws1, unit, ws2, of_part, kw. repeat split; assumption.
Qed.

Lemma experience_match_complete bef digits phrase post :
  experience_occurrence digits phrase ->
  is_Some (match_here experiencePattern bef (digits ++ phrase ++ post)).
Proof.
  intros (Hne & Hdig & ws1 & unit & ws2 & of_part & kw & -> & Hws1 & Hunit
          & Hws2 & Hof & Hkw).
  set (st0 := start_state bef
                (digits ++ (ws1 ++ unit ++ ws2 ++ of_part ++ kw) ++ post)).
  set (rest1 := ws1 ++ unit ++ ws2 ++ of_part ++ kw ++ post).
  assert (Hah0 : ahead st0 = digits ++ rest1).
  { unfold st0, rest1. simpl. now rewrite <- !app_assoc. }
  set (st1 := mkState (before (move st0 digits rest1))
                      (ahead (move st0 digits rest1))
                      (Some (consumed st0 (move st0 digits rest1)))).
  set (st2 := move st1 ws1 (unit ++ ws2 ++ of_part ++ kw ++ post)).
  set (st3 := move st2 unit (ws2 ++ of_part ++ kw ++ post)).
  set (st4 := move st3 ws2 (of_part ++ kw ++ post)).
  set (st5 := move st4 of_part (kw ++ post)).
  set (st6 := move st5 kw post).
  apply (match_here_complete _ _ _ st6).
  rewrite experience_source. simpl ignoreCase. fold st0.
  apply M_Seq with st1.
  { apply M_Group. now apply digits_move. }
  apply M_Seq with st2.
  { now apply spaces_move. }
  apply M_Seq with st3.
  { destruct Hunit as (u & Hu & Hsu). simpl in Hu.
    destruct Hu as [<-|[<-|[<-|[<-|[]]]]].
    - apply M_AltL. apply lit_opt_move; [now left | reflexivity].
    - apply M_AltL. apply lit_opt_move; [now right | reflexivity].
    - apply M_AltR. apply lit_opt_move; [now left | reflexivity].
    - apply M_AltR. apply lit_opt_move; [now right | reflexivity]. }
  apply M_Seq with st4.
  { now apply spaces_move. }
  apply M_Seq with st5.
  { destruct Hof as [->|(o & ws3 & -> & Ho & Hws3)].
    - apply M_AltR. unfold st5. simpl app. rewrite <- (move_nil st4) at 1.
      replace (move st4 [] (ahead st4)) with (move st4 [] (kw ++ post)) by reflexivity.
      apply M_Empty.
    - apply M_AltL. unfold st5. rewrite <- move_move.
      eapply M_Seq.
      + apply lit_move; [exact Ho|]. unfold st4. simpl. now rewrite <- app_assoc.
      + now apply spaces_move. }
  destruct Hkw as (k & Hk & Hsk). simpl in Hk.
  destruct Hk as [<-|[<-|[]]].
  - apply M_AltL. now apply lit_move.
  - apply M_AltR. now apply lit_move.
Qed.

End ExperienceMatch.

(** ** Whole words *)

Section WholeWords.

Lemma is_word_lower c : is_word (lower_char c) = is_word c.
Proof.
  apply Bool.eqb_prop.
  apply (for_all_ascii (fun c => Bool.eqb (is_word (lower_char c)) (is_word c))).
  vm_compute. reflexivity.
Qed.

Lemma is_word_at_lower w : is_word_at (toLowerCase w) = is_word_at w.
Proof. destruct w as [|c w]; [reflexivity | apply is_word_lower]. Qed.

Lemma same_case_ends w t :
  same_ignoring_case w t ->
  is_word_at w = is_word_at t /\ is_word_at (rev w) = is_word_at (rev t).
Proof.
  unfold same_ignoring_case. intros H. split.
  - now rewrite <- (is_word_at_lower w), H, is_word_at_lower.
  - rewrite <- (is_word_at_lower (rev w)), <- (is_word_at_lower (rev t)).
    unfold toLowerCase in *. now rewrite !map_rev, H.
Qed.

Lemma is_word_at_app w post :
  w <> [] -> is_word_at (w ++ post) = is_word_at w.
Proof. destruct w; [congruence | reflexivity]. Qed.

Lemma is_word_at_rev_app pre w :
  w <> [] -> is_word_at (rev (pre ++ w)) = is_word_at (rev w).
Proof.
  intros Hw. rewrite rev_app_distr. apply is_word_at_app.
  intros Hnil. apply (f_equal (@length ascii)) in Hnil.
  rewrite length_rev in Hnil. destruct w; [congruence | discriminate].
Qed.

Lemma occurs_includes t s :
  occurs_ignoring_case t s <->
  includes (toLowerCase s) (toLowerCase t) = true.
Proof.
  rewrite (includes_lower_iff s (toLowerCase t) (toLowerCase_idem t)).
  unfold occurs_ignoring_case, same_ignoring_case.
  now rewrite toLowerCase_idem.
Qed.

(** Every term but C++ starts and ends with a word character. *)
Lemma techVocabulary_ends term :
  In term techVocabulary ->
  term = "C++" \/
  (chars term <> [] /\ is_word_at (chars term) = true /\
   is_word_at (rev (chars term)) = true).
Proof.
  intros Hin.
  assert (H : forallb (fun t => String.eqb t "C++"
                                || (0 <? length (chars t))
                                   && is_word_at (chars t)
                                   && is_word_at (rev (chars t)))
                      techVocabulary = true) by (vm_compute; reflexivity).
  rewrite forallb_forall in H. apply H in Hin.
  apply orb_true_iff in Hin. destruct Hin as [Hin|Hin].
  - left. now apply String.eqb_eq.
  - right. rewrite !andb_true_iff in Hin. destruct Hin as [[H1 H2] H3].
    split; [|split; assumption].
    apply Nat.ltb_lt in H1. intros Hnil. rewrite Hnil in H1. simpl in H1. lia.
Qed.

(** Where C++ does not occur, the word boundaries of the pattern delimit
    whole words. *)
Lemma word_occurrence_whole query :
  ~ occurs_ignoring_case (chars "C++") query ->
  forall pre w post, query = pre ++ w ++ post ->
    (word_occurrence techVocabulary pre w post <->
     whole_word techVocabulary pre w post).
Proof.
  intros Hcpp pre w post Hq.
  assert (Hends : forall term, In term techVocabulary ->
            same_ignoring_case w (chars term) ->
            w <> [] /\ is_word_at w = true /\ is_word_at (rev w) = true).
  { intros term Hterm Hci.
    destruct (techVocabulary_ends term Hterm) as [->|(Hne & H1 & H2)].
    - exfalso. apply Hcpp. now exists pre, w, post.
    - destruct (same_case_ends _ _ Hci) as [E1 E2].
      split; [|split; congruence].
      intros ->. apply same_ignoring_case_length in Hci.
      destruct (chars term); [congruence | discriminate]. }
  unfold word_occurrence, whole_word, boundary. split.
  - intros (Hb1 & Hb2 & term & Hterm & Hci).
    destruct (Hends term Hterm Hci) as (Hne & H1 & H2).
    rewrite (is_word_at_app w post Hne), H1 in Hb1.
    rewrite (is_word_at_rev_app pre w Hne), H2 in Hb2.
    split; [now destruct (is_word_at (rev pre))|].
    split; [now destruct (is_word_at post)|]. now exists term.
  - intros (Hb1 & Hb2 & term & Hterm & Hci).
    destruct (Hends term Hterm Hci) as (Hne & H1 & H2).
    rewrite (is_word_at_app w post Hne), H1.
    rewrite (is_word_at_rev_app pre w Hne), H2, Hb1, Hb2.
    split; [reflexivity|]. split; [reflexivity|]. now exists term.
Qed.

(** Two notions of occurrence that agree on a text give the same scans of
    it. *)
Lemma Scan_equiv (Occ1 Occ2 : list ascii -> list ascii -> list ascii -> Prop)
      query :
  (forall pre w post, query = pre ++ w ++ post ->
                      (Occ1 pre w post <-> Occ2 pre w post)) ->
  forall pre rest ws,
    query = pre ++ rest -> Scan Occ1 pre rest ws -> Scan Occ2 pre rest ws.
Proof.
  intros Heq pre rest ws Hq Hscan. revert Hq.
  induction Hscan as [pre rest Hno|pre gap w post ws Hleft Hocc Hrest IH];
    intros Hq.
  - apply Scan_end. intros s1 w post Hr Hocc.
    apply (Hno s1 w post Hr). apply Heq; [|exact Hocc].
    now rewrite Hq, Hr, <- app_assoc.
  - apply Scan_hit.
    + intros s1 s2 w' post' Hgap Hs2 Hw Hocc'.
      apply (Hleft s1 s2 w' post' Hgap Hs2 Hw). apply Heq; [|exact Hocc'].
      now rewrite Hq, Hgap, <- !app_assoc, Hw.
    + apply Heq; [|exact Hocc]. now rewrite Hq, <- app_assoc.
    + apply IH. now rewrite Hq, <- !app_assoc.
Qed.

(** What a scan lists are occurrences. *)
Lemma Scan_occurrences Occ pre rest ws :
  Scan Occ pre rest ws ->
  Forall (fun w => exists pre' post', pre ++ rest = pre' ++ w ++ post' /\
                                      Occ pre' w post') ws.
Proof.
  induction 1 as [pre rest Hno|pre gap w post ws Hleft Hocc Hrest IH].
  - constructor.
  - constructor.
    + exists (pre ++ gap), post. split; [now rewrite <- app_assoc | exact Hocc].
    + eapply List.Forall_impl; [|exact IH].
      intros w' (pre' & post' & Hq & Hocc'). exists pre', post'.
      split; [|exact Hocc']. rewrite <- Hq. now rewrite <- !app_assoc.
Qed.

End WholeWords.

(** ** The entities of a query *)

Section Entities.

Lemma techVocabulary_not_empty : techVocabulary <> [].
Proof. discriminate. Qed.

Lemma tech_occurrence_not_empty pre w post :
  word_occurrence techVocabulary pre w post -> w <> [].
Proof.
  intros (_ & _ & term & Hterm & Hci) ->.
  apply same_ignoring_case_length in Hci.
  assert (H : forallb (fun t => 0 <? length (chars t)) techVocabulary = true)
    by (vm_compute; reflexivity).
  rewrite forallb_forall in H. apply H in Hterm.
  apply Nat.ltb_lt in Hterm. simpl in Hci. lia.
Qed.

Lemma techPattern_scan query :
  exists terms,
    Scan (word_occurrence techVocabulary) [] query terms /\
    match_global techPattern query
    = match terms with [] => None | _ => Some terms end.
Proof.
  apply (match_global_scan (word_pattern techVocabulary)).
  - apply word_match_sound, techVocabulary_not_empty.
  - apply word_match_complete, techVocabulary_not_empty.
  - apply tech_occurrence_not_empty.
Qed.

Lemma technologies_lookup query :
  extractEntities query !! "technologies"
  = match match_global techPattern query with
    | Some terms => Some (join (chars ", ") terms)
    | None => None
    end.
Proof.
  unfold extractEntities.
  destruct (match_global techPattern query) as [terms|];
    destruct (exec experiencePattern query) as [[[b a] e]|];
    try destruct (capture e);
    rewrite ?lookup_insert_ne by discriminate;
    rewrite ?lookup_insert_eq, ?lookup_empty; reflexivity.
Qed.

Lemma experience_lookup query :
  extractEntities query !! "experience_years"
  = match exec experiencePattern query with
    | Some (_, _, e) => capture e
    | None => None
    end.
Proof.
  unfold extractEntities.
  destruct (match_global techPattern query) as [terms|];
    destruct (exec experiencePattern query) as [[[b a] e]|];
    try destruct (capture e);
    rewrite ?lookup_insert_eq; rewrite ?lookup_insert_ne by discriminate;
    rewrite ?lookup_empty; reflexivity.
Qed.

Lemma other_lookup query key :
  key <> "technologies" -> key <> "experience_years" ->
  extractEntities query !! key = None.
Proof.
  intros H1 H2. unfold extractEntities.
  destruct (match_global techPattern query) as [terms|];
    destruct (exec experiencePattern query) as [[[b a] e]|];
    try destruct (capture e);
    rewrite ?lookup_insert_ne by congruence;
    rewrite ?lookup_insert_ne by congruence;
    apply lookup_empty.
Qed.

Lemma experience_exec query :
  match exec experiencePattern query with
  | Some (_, _, e) =>
      exists pre digits phrase post,
        query = pre ++ digits ++ phrase ++ post /\
        capture e = Some digits /\
        experience_occurrence digits phrase /\
        (forall pre' digits' phrase' post',
            query = pre' ++ digits' ++ phrase' ++ post' ->
            experience_occurrence digits' phrase' ->
            length pre <= length pre')
  | None =>
      forall pre digits phrase post,
        query = pre ++ digits ++ phrase ++ post ->
        ~ experience_occurrence digits phrase
  end.
Proof.
  unfold exec. destruct (exec_from experiencePattern [] query)
    as [[[b0 a0] e]|] eqn:E.
  - apply exec_from_sound in E.
    destruct E as (pre & Hq & Hb0 & Hm & Hleft).
    apply experience_match_sound in Hm.
    destruct Hm as (digits & phrase & post & Ha0 & Hcap & Hocc).
    exists pre, digits, phrase, post. subst a0.
    split; [exact Hq|]. split; [exact Hcap|]. split; [exact Hocc|].
    intros pre' digits' phrase' post' Hq' Hocc'.
    destruct (le_lt_dec (length pre) (length pre')) as [Hle|Hlt]; [exact Hle|].
    exfalso.
    assert (Hsplit : exists s2, pre = pre' ++ s2 /\ s2 <> []).
    { rewrite Hq in Hq'.
      assert (Hp : pre' = firstn (length pre') pre).
      { apply (f_equal (firstn (length pre'))) in Hq'.
        rewrite firstn_app, (firstn_app _ pre') in Hq'.
        rewrite Nat.sub_diag, firstn_all in Hq'. simpl in Hq'.
        rewrite app_nil_r in Hq'.
        replace (length pre' - length pre) with 0 in Hq' by lia.
        simpl in Hq'. rewrite app_nil_r in Hq'. now symmetry. }
      exists (skipn (length pre') pre). split.
      - rewrite Hp at 1. now rewrite firstn_skipn.
      - intros Hnil. pose proof (length_skipn (length pre') pre) as Hl.
        rewrite Hnil in Hl. simpl in Hl. lia. }
    destruct Hsplit as (s2 & Hpre & Hs2).
    pose proof (Hleft pre' s2 Hpre Hs2) as Hnone.
    assert (Heq : s2 ++ digits ++ phrase ++ post = digits' ++ phrase' ++ post').
    { rewrite Hq, Hpre, <- app_assoc in Hq'. now apply app_inv_head in Hq'. }
    rewrite Heq in Hnone.
    pose proof (experience_match_complete (rev pre' ++ []) digits' phrase'
                  post' Hocc') as Hsome.
    rewrite Hnone in Hsome. destruct Hsome. discriminate.
  - intros pre digits phrase post Hq Hocc.
    pose proof (exec_from_none _ _ _ E pre (digits ++ phrase ++ post) Hq) as Hnone.
    pose proof (experience_match_complete (rev pre ++ []) digits phrase post Hocc)
      as Hsome.
    rewrite Hnone in Hsome. destruct Hsome. discriminate.
Qed.

End Entities.

(** ** Patterns that ignore letter case *)

Section LetterCase.

Lemma line_terminator_lower c c' :
  lower_char c = lower_char c' ->
  is_line_terminator c = is_line_terminator c'.
Proof.
  assert (H : forall a, is_line_terminator a = is_line_terminator (lower_char a)).
  { intros a. apply Bool.eqb_prop.
    apply (for_all_ascii (fun a => Bool.eqb (is_line_terminator a)
                                     (is_line_terminator (lower_char a)))).
    vm_compute. reflexivity. }
  intros E. now rewrite (H c), (H c'), E.
Qed.


Lemma same_ahead_cons st st' c rest :
  same_ahead st st' -> ahead st = c :: rest ->
  exists c' rest', ahead st' = c' :: rest' /\
                   lower_char c = lower_char c' /\
                   same_ignoring_case rest rest'.
Proof.
  unfold same_ahead, same_ignoring_case, toLowerCase. intros H Hah.
  rewrite Hah in H. destruct (ahead st') as [|c' rest']; [discriminate|].
  injection H as H1 H2. now exists c', rest'.
Qed.

Lemma Matches_any_case r st e :
  Matches true r st e -> simple r = true ->
  forall st', same_ahead st st' ->
    exists e', Matches true r st' e' /\ same_ahead e e'.
Proof.
  induction 1 as [st|p c rest st Hah Hc|c rest st Hah Hc|p c rest st Hah Hc
                  |r1 r2 st st1 st2 H1 IH1 H2 IH2|r1 r2 st e H1 IH1
                  |r1 r2 st e H1 IH1|r st|r st st1 st2 H1 IH1 Hlt H2 IH2
                  |st Hb|r st e H1 IH1];
    intros Hs st' Hsame; simpl in Hs; try discriminate.
  - exists st'. split; [constructor | exact Hsame].
  - destruct (same_ahead_cons _ _ _ _ Hsame Hah) as (c' & rest' & Hah' & Hcc & Hr).
    exists (advance c' rest' st'). split; [|exact Hr].
    apply M_Char; [exact Hah'|].
    rewrite char_matches_lower in *. now rewrite <- Hcc.
  - destruct (same_ahead_cons _ _ _ _ Hsame Hah) as (c' & rest' & Hah' & Hcc & Hr).
    exists (advance c' rest' st'). split; [|exact Hr].
    apply M_Dot; [exact Hah'|]. now rewrite <- (line_terminator_lower _ _ Hcc).
  - apply andb_true_iff in Hs. destruct Hs as [Hs1 Hs2].
    destruct (IH1 Hs1 st' Hsame) as (m' & Hm1 & Hsame1).
    destruct (IH2 Hs2 m' Hsame1) as (e' & Hm2 & Hsame2).
    exists e'. split; [eapply M_Seq; eauto | exact Hsame2].
  - apply andb_true_iff in Hs. destruct Hs as [Hs1 Hs2].
    destruct (IH1 Hs1 st' Hsame) as (e' & Hm & He).
    exists e'. split; [now apply M_AltL | exact He].
  - apply andb_true_iff in Hs. destruct Hs as [Hs1 Hs2].
    destruct (IH1 Hs2 st' Hsame) as (e' & Hm & He).
    exists e'. split; [now apply M_AltR | exact He].
  - exists st'. split; [constructor | exact Hsame].
  - destruct (IH1 Hs st' Hsame) as (m' & Hm1 & Hsame1).
    destruct (IH2 Hs m' Hsame1) as (e' & Hm2 & Hsame2).
    exists e'. split; [|exact Hsame2].
    eapply M_StarRound; eauto.
    rewrite <- (same_ignoring_case_length _ _ Hsame),
            <- (same_ignoring_case_length _ _ Hsame1). exact Hlt.
Qed.

Lemma test_true_iff re query :
  test re query = true <->
  exists pre rest e,
    query = pre ++ rest /\
    Matches (ignoreCase re) (source re) (start_state (rev pre) rest) e.
Proof.
  unfold test, exec. split.
  - destruct (exec_from re [] query) as [[[b0 a0] e]|] eqn:E; [|discriminate].
    intros _. apply exec_from_sound in E.
    destruct E as (pre & Hq & Hb0 & Hm & _). rewrite app_nil_r in Hb0. subst b0.
    apply match_here_sound in Hm. now exists pre, a0, e.
  - intros (pre & rest & e & -> & Hm).
    apply match_here_complete in Hm.
    rewrite <- (app_nil_r (rev pre)) in Hm.
    apply exec_from_complete in Hm. destruct Hm as [x ->]. now destruct x as [[? ?] ?].
Qed.

Lemma test_any_case re query query' :
  simple (source re) = true -> ignoreCase re = true ->
  same_ignoring_case query query' ->
  test re query = true -> test re query' = true.
Proof.
  intros Hs Hi Hq. rewrite !test_true_iff. rewrite Hi.
  intros (pre & rest & e & -> & Hm).
  unfold same_ignoring_case, toLowerCase in Hq. rewrite map_app in Hq.
  symmetry in Hq. apply map_eq_app in Hq.
  destruct Hq as (pre' & rest' & -> & Hpre & Hrest).
  destruct (Matches_any_case _ _ _ Hm Hs (start_state (rev pre') rest'))
    as (e' & Hm' & _).
  { unfold same_ahead, same_ignoring_case, toLowerCase. simpl. now symmetry. }
  now exists pre', rest', e'.
Qed.

Lemma test_same_case re query query' :
  simple (source re) = true -> ignoreCase re = true ->
  same_ignoring_case query query' ->
  test re query = test re query'.
Proof.
  intros Hs Hi Hq.
  destruct (test re query) eqn:E1, (test re query') eqn:E2; try reflexivity.
  - rewrite (test_any_case re query query' Hs Hi Hq E1) in E2. discriminate.
  - assert (Hq' : same_ignoring_case query' query) by (now symmetry).
    rewrite (test_any_case re query' query Hs Hi Hq' E2) in E1. discriminate.
Qed.


Lemma any_pattern_same_case patterns query query' :
  forallb insensitive patterns = true ->
  same_ignoring_case query query' ->
  any_pattern patterns query = any_pattern patterns query'.
Proof.
  intros H Hq. induction patterns as [|p ps IH]; [reflexivity|].
  simpl in H. apply andb_true_iff in H. destruct H as [Hp Hps].
  unfold insensitive in Hp. rewrite !andb_true_iff in Hp.
  destruct Hp as [[Hs Hi] _]. simpl.
  rewrite (test_same_case p query query' Hs Hi Hq), (IH Hps). reflexivity.
Qed.

Lemma first_intent_same_case table query query' :
  forallb (fun entry => forallb insensitive (snd entry)) table = true ->
  same_ignoring_case query query' ->
  first_intent table query = first_intent table query'.
Proof.
  intros H Hq. induction table as [|[i ps] rest IH]; [reflexivity|].
  simpl in H. apply andb_true_iff in H. destruct H as [Hp Hrest]. simpl.
  rewrite (any_pattern_same_case ps query query' Hp Hq), (IH Hrest). reflexivity.
Qed.

End LetterCase.

(** ** The classifier's loops *)

Section Classifier.

Lemma any_pattern_true patterns query :
  any_pattern patterns query = true <->
  exists pattern, In pattern patterns /\ test pattern query = true.
Proof.
  induction patterns as [|p ps IH]; simpl.
  - split; [discriminate | intros [p [[] _]]].
  - destruct (test p query) eqn:E.
    + split; [intros _; exists p; auto | reflexivity].
    + rewrite IH. split.
      * intros [q [Hin Hq]]. exists q. auto.
      * intros [q [[<-|Hin] Hq]]; [congruence | now exists q].
Qed.

Lemma first_intent_none table query :
  no_rule_matches table query -> first_intent table query = None.
Proof.
  induction table as [|[i ps] rest IH]; intros H; [reflexivity|]. simpl.
  destruct (any_pattern ps query) eqn:E.
  - apply any_pattern_true in E. destruct E as [p [Hin Hp]].
    rewrite (H i ps p) in Hp; [discriminate | now left | exact Hin].
  - apply IH. intros j qs q Hj Hq. apply (H j qs q); [now right | exact Hq].
Qed.

Lemma first_intent_first earlier i patterns later query :
  no_rule_matches earlier query ->
  (exists pattern, In pattern patterns /\ test pattern query = true) ->
  first_intent (earlier ++ (i, patterns) :: later) query = Some i.
Proof.
  intros Hno Hyes. induction earlier as [|[j qs] rest IH]; simpl.
  - apply any_pattern_true in Hyes. now rewrite Hyes.
  - destruct (any_pattern qs query) eqn:E.
    + apply any_pattern_true in E. destruct E as [p [Hin Hp]].
      rewrite (Hno j qs p) in Hp; [discriminate | now left | exact Hin].
    + apply IH. intros k ps p Hk Hp. apply (Hno k ps p); [now right | exact Hp].
Qed.

End Classifier.

(** ** The stable sort, for a comparator that puts the larger key first *)

Section StableSort.

Context {A : Type}.
Variable key : A -> Q.


Lemma key_desc_first x y :
  Qle_bool ((key_desc key) x y) 0 = true <-> (key y <= key x)%Q.
Proof.
  unfold key_desc. rewrite Qle_bool_iff. split; intros H.
  - apply (Qplus_le_l _ _ (- key x)). rewrite Qplus_opp_r. exact H.
  - apply (Qplus_le_l _ _ (- key x)) in H. rewrite Qplus_opp_r in H. exact H.
Qed.

Lemma sort_insert_perm x l :
  Permutation (sort_insert (key_desc key) x l) (x :: l).
Proof.
  induction l as [|y l IH]; simpl; [reflexivity|].
  destruct (Qle_bool ((key_desc key) x y) 0); [reflexivity|].
  rewrite IH. apply perm_swap.
Qed.

Lemma sort_perm l : Permutation (sort (key_desc key) l) l.
Proof.
  induction l as [|x l IH]; simpl; [constructor|].
  rewrite sort_insert_perm. now constructor.
Qed.

Lemma sort_insert_sorted x l :
  StronglySorted (not_below key) l ->
  StronglySorted (not_below key) (sort_insert (key_desc key) x l).
Proof.
  induction 1 as [|y l Hs IH Hy]; simpl.
  - repeat constructor.
  - destruct (Qle_bool ((key_desc key) x y) 0) eqn:E.
    + apply key_desc_first in E. constructor; [now constructor|].
      constructor; [exact E|].
      eapply List.Forall_impl; [|exact Hy]. intros z Hz.
      unfold not_below in *. eapply Qle_trans; eauto.
    + constructor; [exact IH|].
      assert (Hxy : (key x <= key y)%Q).
      { destruct (Qlt_le_dec (key x) (key y)) as [Hlt|Hle].
        - now apply Qlt_le_weak.
        - apply key_desc_first in Hle. congruence. }
      eapply Permutation_Forall; [symmetry; apply sort_insert_perm|].
      constructor; assumption.
Qed.

Lemma sort_sorted l : StronglySorted (not_below key) (sort (key_desc key) l).
Proof.
  induction l as [|x l IH]; simpl; [constructor | now apply sort_insert_sorted].
Qed.

(** Stability: among the elements of one key the input order is kept. *)
Lemma sort_insert_stable v x l :
  List.filter (has_key key v) (sort_insert (key_desc key) x l) = List.filter (has_key key v) (x :: l).
Proof.
  induction l as [|y l IH]; [reflexivity|].
  change (sort_insert (key_desc key) x (y :: l))
    with (if Qle_bool ((key_desc key) x y) 0 then x :: y :: l
          else y :: sort_insert (key_desc key) x l).
  destruct (Qle_bool ((key_desc key) x y) 0) eqn:E; [reflexivity|].
  change (List.filter (has_key key v) (y :: sort_insert (key_desc key) x l))
    with (if has_key key v y then y :: List.filter (has_key key v) (sort_insert (key_desc key) x l)
          else List.filter (has_key key v) (sort_insert (key_desc key) x l)).
  rewrite IH. simpl.
  destruct (has_key key v x) eqn:Ex, (has_key key v y) eqn:Ey; try reflexivity.
  exfalso. unfold has_key in *. apply Qeq_bool_iff in Ex, Ey.
  assert (H : Qle_bool ((key_desc key) x y) 0 = true).
  { apply key_desc_first. rewrite Ex, Ey. apply Qle_refl. }
  congruence.
Qed.

Lemma sort_stable v l :
  List.filter (has_key key v) (sort (key_desc key) l) = List.filter (has_key key v) l.
Proof.
  induction l as [|x l IH]; [reflexivity|].
  change (sort (key_desc key) (x :: l)) with (sort_insert (key_desc key) x (sort (key_desc key) l)).
  rewrite sort_insert_stable. simpl. now rewrite IH.
Qed.

(** With one key throughout nothing moves. *)
Lemma sort_one_key v l :
  Forall (fun a => (key a == v)%Q) l -> sort (key_desc key) l = l.
Proof.
  induction 1 as [|x l Hx Hl IH]; [reflexivity|].
  change (sort (key_desc key) (x :: l)) with (sort_insert (key_desc key) x (sort (key_desc key) l)).
  rewrite IH. destruct l as [|y l]; [reflexivity|]. simpl.
  inversion Hl as [|? ? Hy _]; subst.
  assert (H : Qle_bool ((key_desc key) x y) 0 = true).
  { apply key_desc_first. rewrite Hx, Hy. apply Qle_refl. }
  now rewrite H.
Qed.

Lemma firstn_sorted (R : A -> A -> Prop) n l :
  StronglySorted R l -> StronglySorted R (firstn n l).
Proof.
  intros H. revert n. induction H as [|x l Hs IH Hx]; intros [|n]; simpl;
    try constructor.
  - apply IH.
  - apply List.Forall_forall. intros y Hy.
    rewrite List.Forall_forall in Hx. apply Hx.
    rewrite <- (firstn_skipn n l). apply in_or_app. now left.
Qed.

End StableSort.

(** ** Scores *)

Section Scores.

Lemma quotient_positive a b : 0 < a -> 0 < b -> (0 < quotient a b)%Q.
Proof.
  intros Ha Hb. unfold quotient. destruct b as [|b]; [lia|].
  unfold Qdiv, Qinv, Qmult, Qlt, inject_Z. simpl. lia.
Qed.


Lemma quotient_same b : 0 < b -> (quotient b b == 1)%Q.
Proof.
  intros Hb. unfold quotient. destruct b as [|b]; [lia|].
  unfold Qdiv, Qinv, Qmult, Qeq, inject_Z. simpl. lia.
Qed.

End Scores.

(** ** The retrieval loops *)

Section Retrieval.

Lemma count_terms_from sentenceLower : forall queryTerms k,
  fold_left
    (fun relevanceScore term =>
       if includes sentenceLower term then relevanceScore + 1
       else relevanceScore) queryTerms k
  = k + length (List.filter (includes sentenceLower) queryTerms).
Proof.
  induction queryTerms as [|t ts IH]; intros k; simpl; [lia|].
  rewrite IH. destruct (includes sentenceLower t); simpl; lia.
Qed.

Lemma count_terms_filter sentenceLower queryTerms :
  count_terms sentenceLower queryTerms
  = length (List.filter (includes sentenceLower) queryTerms).
Proof. unfold count_terms. now rewrite count_terms_from. Qed.

Lemma count_terms_bound sentenceLower queryTerms :
  count_terms sentenceLower queryTerms <= length queryTerms.
Proof. rewrite count_terms_filter. apply filter_length_le. Qed.




Lemma evidence_loop_entries queryTerms : forall sentences i evidence,
  evidence_loop queryTerms sentences i evidence
  = evidence ++ flat_map (entry queryTerms) (numbered i sentences).
Proof.
  induction sentences as [|s rest IH]; intros i evidence.
  - simpl. now rewrite app_nil_r.
  - simpl evidence_loop. rewrite IH.
    unfold numbered. simpl length. simpl seq. simpl combine. simpl flat_map.
    replace (S (i + 1)) with (i + 1 + 1) by lia.
    unfold entry at 2. simpl fst. simpl snd.
    destruct (0 <? count_terms (toLowerCase (trim s)) queryTerms).
    + now rewrite <- app_assoc.
    + reflexivity.
Qed.


Lemma searchResume_survivors resumeText query :
  searchResume resumeText query
  = firstn 5 (sort by_score_desc (survivors resumeText query)).
Proof.
  destruct resumeText as [[|c r]|]; try reflexivity.
  unfold searchResume, survivors. simpl truthy. simpl negb. cbv iota.
  now rewrite evidence_loop_entries.
Qed.

Lemma numbered_nth : forall sentences i n s,
  In (n, s) (numbered i sentences) ->
  exists idx, n = i + idx + 1 /\ nth_error sentences idx = Some s.
Proof.
  unfold numbered.
  induction sentences as [|x rest IH]; intros i n s H; [contradiction|].
  simpl in H. destruct H as [H|H].
  - injection H as <- <-. exists 0. split; [lia | reflexivity].
  - replace (S (i + 1)) with (i + 1 + 1) in H by lia.
    apply IH in H. destruct H as (idx & -> & Hnth).
    exists (S idx). split; [lia | exact Hnth].
Qed.

Lemma entry_inv queryTerms ns e :
  In e (entry queryTerms ns) ->
  0 < count_terms (toLowerCase (trim (snd ns))) queryTerms /\
  e = mkEvidence (chars "resume") (trim (snd ns))
        (quotient (count_terms (toLowerCase (trim (snd ns))) queryTerms)
                  (length queryTerms))
        (chars "Sentence " ++ number_to_string (fst ns)).
Proof.
  unfold entry.
  destruct (0 <? count_terms (toLowerCase (trim (snd ns))) queryTerms) eqn:E;
    [|contradiction].
  intros [<-|[]]. apply Nat.ltb_lt in E. split; [exact E | reflexivity].
Qed.

Lemma survivors_inv resumeText query e :
  In e (survivors (Some resumeText) query) ->
  exists idx s,
    nth_error (sentences_of resumeText) idx = Some s /\
    0 < count_terms (toLowerCase (trim s)) (queryTerms_of query) /\
    e = mkEvidence (chars "resume") (trim s)
          (quotient (count_terms (toLowerCase (trim s)) (queryTerms_of query))
                    (length (queryTerms_of query)))
          (chars "Sentence " ++ number_to_string (idx + 1)).
Proof.
  unfold survivors. intros H. apply in_flat_map in H.
  destruct H as ([n s] & Hin & He). apply numbered_nth in Hin.
  destruct Hin as (idx & -> & Hnth). apply entry_inv in He.
  simpl in He. destruct He as [Hpos ->]. now exists idx, s.
Qed.



Lemma searchResume_In resumeText query e :
  In e (searchResume resumeText query) -> In e (survivors resumeText query).
Proof.
  rewrite searchResume_survivors. intros H. apply firstn_In in H.
  eapply Permutation_in; [apply (sort_perm relevanceScore) | exact H].
Qed.

End Retrieval.

Lemma count_terms_empty_terms sentenceLower queryTerms :
  Forall (fun t => t = []) queryTerms ->
  count_terms sentenceLower queryTerms = length queryTerms.
Proof.
  intros H. rewrite count_terms_filter. f_equal.
  induction H as [|t ts -> Hts IH]; [reflexivity|].
  simpl List.filter. rewrite includes_empty. now rewrite IH.
Qed.

(** ** The composer's branches *)

Section Composer.

Lemma on_error_cases message :
  let auth := contains message (chars "401")
              \/ contains message (chars "Incorrect API key") in
  let rate := contains message (chars "429") in
  let quota := contains message (chars "insufficient_quota")
               \/ contains message (chars "exceeded your current quota") in
  let model := contains message (chars "model") in
  (auth -> on_error (ErrorInstance message) = authMessage) /\
  (~ auth -> rate -> on_error (ErrorInstance message) = rateLimitMessage) /\
  (~ auth -> ~ rate -> quota ->
     on_error (ErrorInstance message) = quotaMessage) /\
  (~ auth -> ~ rate -> ~ quota -> model ->
     on_error (ErrorInstance message) = modelMessage) /\
  (~ auth -> ~ rate -> ~ quota -> ~ model ->
     on_error (ErrorInstance message) = genericMessage).
Proof.
  intros auth rate quota model. unfold on_error.
  assert (Ha : (includes message (chars "401")
                || includes message (chars "Incorrect API key")) = true <-> auth).
  { unfold auth. now rewrite orb_true_iff, !includes_iff. }
  assert (Hr : includes message (chars "429") = true <-> rate).
  { apply includes_iff. }
  assert (Hq : (includes message (chars "insufficient_quota")
                || includes message (chars "exceeded your current quota")) = true
               <-> quota).
  { unfold quota. now rewrite orb_true_iff, !includes_iff. }
  assert (Hm : includes message (chars "model") = true <-> model).
  { apply includes_iff. }
  destruct (includes message (chars "401")
            || includes message (chars "Incorrect API key")).
  { repeat split; intros; try reflexivity; exfalso; tauto. }
  destruct (includes message (chars "429")).
  { repeat split; intros; try reflexivity; exfalso;
      (tauto || (assert (false = true) by tauto; discriminate)). }
  destruct (includes message (chars "insufficient_quota")
            || includes message (chars "exceeded your current quota")).
  { repeat split; intros; try reflexivity; exfalso;
      (tauto || (assert (false = true) by tauto; discriminate)). }
  destruct (includes message (chars "model")).
  { repeat split; intros; try reflexivity; exfalso;
      (tauto || (assert (false = true) by tauto; discriminate)). }
  repeat split; intros; try reflexivity; exfalso;
    (tauto || (assert (false = true) by tauto; discriminate)).
Qed.

Lemma on_error_fixed error : In (on_error error) fixed_error_messages.
Proof.
  unfold on_error, fixed_error_messages. destruct error as [message|].
  - repeat match goal with
           | |- context [if ?b then _ else _] => destruct b
           end; simpl; tauto.
  - simpl. tauto.
Qed.

Lemma on_error_not_empty error : on_error error <> [].
Proof.
  intros Hnil. pose proof (on_error_fixed error) as Hin.
  rewrite Hnil in Hin. unfold fixed_error_messages in Hin. simpl in Hin.
  repeat destruct Hin as [Hin|Hin]; try discriminate Hin. exact Hin.
Qed.

Lemma response_of_generated completion :
  response_of completion
  = match generated_text completion with
    | Some (c :: text) => c :: text
    | _ => apology
    end.
Proof.
  unfold response_of, generated_text.
  destruct (OpenAI.choices completion) as [|choice rest]; [reflexivity|].
  simpl. destruct (OpenAI.message choice) as [m|]; [|reflexivity].
  simpl. destruct (OpenAI.content m) as [[|c text]|]; reflexivity.
Qed.

Lemma response_of_cases completion :
  (forall text, generated_text completion = Some text -> text <> [] ->
                response_of completion = text) /\
  (generated_text completion = Some [] \/ generated_text completion = None ->
   response_of completion = apology).
Proof.
  rewrite response_of_generated. split.
  - intros text -> Hne. destruct text; [congruence | reflexivity].
  - intros [->| ->]; reflexivity.
Qed.

Lemma response_of_not_empty completion : response_of completion <> [].
Proof.
  rewrite response_of_generated.
  destruct (generated_text completion) as [[|c text]|]; discriminate.
Qed.

End Composer.

Section Summary.

Variable Number_toString : Q -> list ascii.

Lemma contextInfo_lines (context : ChatContext) :
  contextInfo Number_toString context
  = join nl (summary_lines Number_toString context).
Proof.
  unfold contextInfo. f_equal.
  destruct context as [name resume jd attrs evaluation].
  unfold contextLines, summary_lines. simpl.
  destruct name as [[|? ?]|], jd as [[|? ?]|], attrs as [[|? ?]|];
    (destruct evaluation as [[sc [[|? ?]|] [[|? ?]|]]|]); reflexivity.
Qed.

End Summary.

(** ** More on the classifier *)

Section ClassifierMore.

Lemma first_intent_some table query i :
  first_intent table query = Some i ->
  exists patterns, In (i, patterns) table /\ any_pattern patterns query = true.
Proof.
  induction table as [|[j ps] rest IH]; [discriminate|]. simpl.
  destruct (any_pattern ps query) eqn:E.
  - intros [= <-]. exists ps. split; [now left | exact E].
  - intros H. destruct (IH H) as (qs & Hin & Hq). exists qs. split; [now right | exact Hq].
Qed.

Lemma first_intent_none_inv table query :
  first_intent table query = None -> no_rule_matches table query.
Proof.
  induction table as [|[j ps] rest IH]; intros H i patterns pattern Hin Hp;
    [contradiction|].
  simpl in H. destruct (any_pattern ps query) eqn:E; [discriminate|].
  destruct Hin as [Heq|Hin].
  - injection Heq as <- <-.
    destruct (test pattern query) eqn:Et; [|reflexivity].
    assert (any_pattern ps query = true)
      by (apply any_pattern_true; now exists pattern).
    congruence.
  - now apply (IH H i patterns pattern).
Qed.

Lemma unknown_has_no_rule patterns :
  In (unknown, patterns) intentPatterns -> patterns = [].
Proof.
  unfold intentPatterns. simpl.
  intros [H|[H|[H|[H|[H|[H|[H|[]]]]]]]]; try discriminate H.
  now injection H as <-.
Qed.

Lemma first_intent_not_unknown query :
  first_intent intentPatterns query <> Some unknown.
Proof.
  intros H. apply first_intent_some in H. destruct H as (ps & Hin & Hp).
  apply unknown_has_no_rule in Hin. subst ps. discriminate.
Qed.

End ClassifierMore.

Section GapRules.

Lemma star_dot_move w : all_of (fun c => negb (is_line_terminator c)) w ->
  forall icase st post, ahead st = w ++ post ->
    Matches icase (Star Dot) st (move st w post).
Proof.
  induction 1 as [|c w Hc Hw IH]; intros icase st post Hah.
  - simpl in Hah. rewrite <- Hah. rewrite move_nil. constructor.
  - simpl in Hah. eapply M_StarRound.
    + apply (M_Dot icase c (w ++ post) st Hah). now apply negb_true_iff.
    + simpl. rewrite Hah. simpl. lia.
    + change (c :: w) with ([c] ++ w). rewrite <- move_move.
      apply IH. reflexivity.
Qed.

(** A rule [a.*b] matches every text that holds [a] and, later on the same
    line, [b], in either letter case. *)
Lemma gap_rule_matches a b pre wa mid wb post :
  same_ignoring_case wa (chars a) -> same_ignoring_case wb (chars b) ->
  all_of (fun c => negb (is_line_terminator c)) mid ->
  exists e,
    Matches true (seqs [lit a; dotstar; lit b])
            (start_state (rev pre) (wa ++ mid ++ wb ++ post)) e.
Proof.
  intros Ha Hb Hmid.
  set (st0 := start_state (rev pre) (wa ++ mid ++ wb ++ post)).
  exists (move (move (move st0 wa (mid ++ wb ++ post)) mid (wb ++ post)) wb post).
  change (seqs [lit a; dotstar; lit b]) with (Seq (lit a) (Seq dotstar (lit b))).
  eapply M_Seq; [apply lit_move; [exact Ha | reflexivity]|].
  eapply M_Seq; [apply star_dot_move; [exact Hmid | reflexivity]|].
  apply lit_move; [exact Hb | reflexivity].
Qed.

End GapRules.

(** ** The shape of a sentence *)

Section Sentences.

Lemma trimStart_suffix s : exists w, s = w ++ trimStart s /\ all_of is_space w.
Proof.
  induction s as [|c s (w & Hs & Hw)]; simpl.
  - exists []. split; [reflexivity | constructor].
  - destruct (is_space c) eqn:E.
    + exists (c :: w). split; [simpl; now f_equal | now constructor].
    + exists []. split; [reflexivity | constructor].
Qed.

Lemma trimEnd_prefix s : exists w, s = trimEnd s ++ w /\ all_of is_space w.
Proof.
  unfold trimEnd. destruct (trimStart_suffix (rev s)) as (w & Hs & Hw).
  exists (rev w). split.
  - rewrite <- rev_app_distr, <- Hs. now rewrite rev_involutive.
  - now apply List.Forall_rev.
Qed.

Lemma trim_middle s :
  exists l r, s = l ++ trim s ++ r /\ all_of is_space l /\ all_of is_space r.
Proof.
  unfold trim. destruct (trimStart_suffix s) as (l & Hl & Hsl).
  destruct (trimEnd_prefix (trimStart s)) as (r & Hr & Hsr).
  exists l, r. split; [|split; assumption]. now rewrite <- Hr.
Qed.

Lemma trim_all (P : ascii -> Prop) s : Forall P s -> Forall P (trim s).
Proof.
  destruct (trim_middle s) as (l & r & Hs & _). intros H. rewrite Hs in H.
  apply Forall_app in H. destruct H as [_ H].
  apply Forall_app in H. now destruct H.
Qed.

Lemma trimStart_head s c rest : trimStart s = c :: rest -> is_space c = false.
Proof.
  induction s as [|d s IH]; simpl; [discriminate|].
  destruct (is_space d) eqn:E; [exact IH|]. now intros [= <- _].
Qed.

Lemma trimStart_fixed s c rest : s = c :: rest -> is_space c = false ->
  trimStart s = s.
Proof. intros -> H. simpl. now rewrite H. Qed.

(** A trimmed text starts and ends with a character that is no white
    space. *)
Lemma trim_ends s :
  trimStart (trim s) = trim s /\ trimEnd (trim s) = trim s.
Proof.
  assert (Hend : forall t, trimEnd (trimEnd t) = trimEnd t).
  { intros t. unfold trimEnd. rewrite rev_involutive.
    destruct (trimStart (rev t)) as [|c rest] eqn:E; [reflexivity|].
    now rewrite (trimStart_fixed _ c rest eq_refl (trimStart_head _ _ _ E)). }
  split; [|apply Hend].
  unfold trim. destruct (trimEnd (trimStart s)) as [|c rest] eqn:E;
    [reflexivity|].
  apply (trimStart_fixed _ c rest eq_refl).
  destruct (trimEnd_prefix (trimStart s)) as (w & Hw & _).
  rewrite E in Hw. simpl in Hw. now apply (trimStart_head s c (rest ++ w)).
Qed.

Lemma trim_idem s : trim (trim s) = trim s.
Proof.
  destruct (trim_ends s) as [H1 H2]. unfold trim at 1. now rewrite H1.
Qed.

Variable sep : ascii -> bool.

Lemma pieces_loop_no_sep : forall s b cur,
  all_of (fun c => negb (sep c)) cur ->
  Forall (all_of (fun c => negb (sep c))) (pieces_loop sep b cur s).
Proof.
  induction s as [|c s IH]; intros b cur Hcur; simpl.
  - constructor; [|constructor]. now apply List.Forall_rev.
  - destruct (sep c) eqn:E.
    + destruct b; [now apply IH|].
      constructor; [now apply List.Forall_rev | apply IH; constructor].
    + apply IH. constructor; [now rewrite E | assumption].
Qed.

Lemma pieces_no_sep s :
  Forall (all_of (fun c => negb (sep c))) (pieces sep s).
Proof. apply pieces_loop_no_sep. constructor. Qed.

(** Every piece is a part of the text, in one stretch. *)
Lemma pieces_loop_contains : forall s b cur t,
  (b = true -> cur = []) ->
  In t (pieces_loop sep b cur s) ->
  contains s t \/ exists w post, t = rev cur ++ w /\ s = w ++ post.
Proof.
  induction s as [|c s IH]; intros b cur t Hb; simpl.
  - intros [<-|[]]. right. exists [], []. now rewrite app_nil_r.
  - assert (Hlater : contains s t -> contains (c :: s) t).
    { intros (pre & post & ->). now exists (c :: pre), post. }
    assert (Hfresh : In t (pieces_loop sep true [] s) -> contains (c :: s) t).
    { intros H. apply IH in H; [|reflexivity].
      destruct H as [H|(w & post & -> & ->)]; [now apply Hlater|].
      now exists [c], post. }
    destruct (sep c).
    + destruct b.
      * rewrite (Hb eq_refl). intros H. left. now apply Hfresh.
      * intros [<-|H]; [|left; now apply Hfresh].
        right. exists [], (c :: s). now rewrite app_nil_r.
    + intros H. apply IH in H; [|discriminate].
      destruct H as [H|(w & post & -> & ->)]; [left; now apply Hlater|].
      right. exists (c :: w), post. simpl. now rewrite <- app_assoc.
Qed.

Lemma pieces_contains s t : In t (pieces sep s) -> contains s t.
Proof.
  intros H. apply pieces_loop_contains in H; [|discriminate].
  destruct H as [H|(w & post & -> & ->)]; [exact H|]. now exists [], post.
Qed.

End Sentences.

Lemma contains_trim s t : contains s t -> contains s (trim t).
Proof.
  intros (pre & post & ->). destruct (trim_middle t) as (l & r & Ht & _).
  exists (pre ++ l), (r ++ post). rewrite Ht at 1.
  now rewrite <- !app_assoc.
Qed.

Lemma sentences_of_In resumeText s :
  In s (sentences_of resumeText) ->
  In s (pieces is_sentence_end resumeText) /\ trim s <> [].
Proof.
  rewrite sentences_of_pieces. intros H. apply filter_In in H.
  destruct H as [Hin Hlen]. split; [exact Hin|].
  intros E. rewrite E in Hlen. discriminate.
Qed.

(** ** The cut after five entries *)

Section Cut.

Context {A : Type}.

Lemma sorted_app (R : A -> A -> Prop) l1 l2 :
  StronglySorted R (l1 ++ l2) ->
  forall a b, In a l1 -> In b l2 -> R a b.
Proof.
  induction l1 as [|x l1 IH]; intros H a b Ha Hb; [contradiction|].
  simpl in H. inversion H as [|? ? Hs Hx]; subst.
  destruct Ha as [<-|Ha].
  - rewrite List.Forall_forall in Hx. apply Hx, in_or_app. now right.
  - now apply IH.
Qed.

End Cut.

(** ** Locations *)

Section Locations.

Lemma chars_inj a b : chars a = chars b -> a = b.
Proof.
  unfold chars. intros H.
  rewrite <- (string_of_list_ascii_of_string a),
          <- (string_of_list_ascii_of_string b). now rewrite H.
Qed.

Lemma number_to_string_inj n m :
  number_to_string n = number_to_string m -> n = m.
Proof.
  unfold number_to_string. intros H. apply chars_inj in H.
  assert (Hu : Some (Nat.to_uint n) = Some (Nat.to_uint m)).
  { rewrite <- !NilEmpty.usu. now rewrite H. }
  injection Hu as Hu. rewrite <- (Unsigned.of_to n), <- (Unsigned.of_to m).
  now rewrite Hu.
Qed.

Lemma entry_location queryTerms ns e :
  In e (entry queryTerms ns) ->
  location e = chars "Sentence " ++ number_to_string (fst ns).
Proof. intros H. apply entry_inv in H. destruct H as [_ ->]. reflexivity. Qed.

Lemma entries_locations queryTerms : forall l,
  List.NoDup (map fst l) ->
  List.NoDup (map location (flat_map (entry queryTerms) l)).
Proof.
  induction l as [|ns l IH]; intros H; simpl; [constructor|].
  inversion H as [|? ? Hnot Hrest]; subst.
  rewrite map_app. apply List.NoDup_app.
  - unfold entry. destruct (0 <? _); simpl; repeat constructor. intros [].
  - now apply IH.
  - intros loc H1 H2. apply in_map_iff in H1. destruct H1 as (e1 & <- & H1).
    apply in_map_iff in H2. destruct H2 as (e2 & Heq & H2).
    apply in_flat_map in H2. destruct H2 as (ns2 & Hin2 & H2).
    apply entry_location in H1. apply entry_location in H2.
    rewrite H1, H2 in Heq. apply app_inv_head, number_to_string_inj in Heq.
    apply Hnot. rewrite <- Heq. now apply in_map.
Qed.

Lemma numbered_fst i sentences :
  map fst (numbered i sentences) = seq (i + 1) (length sentences).
Proof.
  unfold numbered. generalize (i + 1). induction sentences as [|s l IH];
    intros n; simpl; [reflexivity|]. now rewrite IH.
Qed.

Lemma survivors_locations resumeText query :
  List.NoDup (map location (survivors resumeText query)).
Proof.
  destruct resumeText as [r|]; [|constructor]. simpl.
  apply entries_locations. rewrite numbered_fst. apply seq_NoDup.
Qed.

End Locations.

(** ** Letter case in the retrieval *)

Section RetrievalCase.

Lemma is_space_lower c : is_space (lower_char c) = is_space c.
Proof.
  apply Bool.eqb_prop.
  apply (for_all_ascii
           (fun c => Bool.eqb (is_space (lower_char c)) (is_space c))).
  vm_compute. reflexivity.
Qed.

Lemma is_sentence_end_lower c :
  is_sentence_end (lower_char c) = is_sentence_end c.
Proof.
  apply Bool.eqb_prop.
  apply (for_all_ascii
           (fun c => Bool.eqb (is_sentence_end (lower_char c))
                              (is_sentence_end c))).
  vm_compute. reflexivity.
Qed.

Lemma trimStart_lower s :
  trimStart (toLowerCase s) = toLowerCase (trimStart s).
Proof.
  induction s as [|c s IH]; [reflexivity|]. simpl.
  rewrite is_space_lower. now destruct (is_space c).
Qed.

Lemma trimEnd_lower s : trimEnd (toLowerCase s) = toLowerCase (trimEnd s).
Proof.
  unfold trimEnd.
  replace (rev (toLowerCase s)) with (toLowerCase (rev s))
    by apply map_rev.
  rewrite trimStart_lower. symmetry. apply map_rev.
Qed.

Lemma trim_lower s : trim (toLowerCase s) = toLowerCase (trim s).
Proof.
  unfold trim. rewrite trimStart_lower. apply trimEnd_lower.
Qed.

Lemma pieces_loop_lower sep :
  (forall c, sep (lower_char c) = sep c) ->
  forall s b cur,
    pieces_loop sep b (toLowerCase cur) (toLowerCase s)
    = map toLowerCase (pieces_loop sep b cur s).
Proof.
  intros Hsep. induction s as [|c s IH]; intros b cur; simpl.
  - unfold toLowerCase. now rewrite map_rev.
  - rewrite Hsep. destruct (sep c).
    + destruct b; [apply IH|]. simpl. f_equal.
      * unfold toLowerCase. now rewrite map_rev.
      * apply (IH true []).
    + apply (IH false (c :: cur)).
Qed.

Lemma pieces_lower sep s :
  (forall c, sep (lower_char c) = sep c) ->
  pieces sep (toLowerCase s) = map toLowerCase (pieces sep s).
Proof. intros H. apply (pieces_loop_lower sep H s false []). Qed.

Lemma map_eq_Forall2 {A B : Type} (f : A -> B) : forall l l',
  map f l = map f l' -> Forall2 (fun a b => f a = f b) l l'.
Proof.
  induction l as [|a l IH]; intros [|b l'] H; try discriminate; constructor.
  - now injection H.
  - apply IH. now injection H.
Qed.

Lemma filter_Forall2 {A : Type} (R : A -> A -> Prop) (p : A -> bool) l l' :
  (forall a b, R a b -> p a = p b) ->
  Forall2 R l l' -> Forall2 R (List.filter p l) (List.filter p l').
Proof.
  intros Hp. induction 1 as [|a b l l' Hab Hl IH]; simpl; [constructor|].
  rewrite <- (Hp a b Hab). destruct (p a); [now constructor | exact IH].
Qed.

Lemma sentences_of_same_case resumeText resumeText' :
  same_ignoring_case resumeText resumeText' ->
  Forall2 same_ignoring_case (sentences_of resumeText)
          (sentences_of resumeText').
Proof.
  intros H. rewrite !sentences_of_pieces. apply filter_Forall2.
  - intros a b Hab. unfold same_ignoring_case in Hab.
    assert (E : length (trim a) = length (trim b)).
    { rewrite <- (length_map lower_char (trim a)),
              <- (length_map lower_char (trim b)).
      change (length (toLowerCase (trim a)) = length (toLowerCase (trim b))).
      now rewrite <- !trim_lower, Hab. }
    now rewrite E.
  - apply (map_eq_Forall2 toLowerCase).
    rewrite <- !(pieces_lower _ _ is_sentence_end_lower). now rewrite H.
Qed.

Lemma queryTerms_of_same_case query query' :
  same_ignoring_case query query' -> queryTerms_of query = queryTerms_of query'.
Proof. unfold queryTerms_of. now intros ->. Qed.

Lemma entry_same_case queryTerms n s s' :
  same_ignoring_case s s' ->
  Forall2 same_entry (entry queryTerms (n, s)) (entry queryTerms (n, s')).
Proof.
  intros H. unfold entry. simpl fst. simpl snd. cbv zeta.
  assert (E : toLowerCase (trim s) = toLowerCase (trim s'))
    by (now rewrite <- !trim_lower, H).
  rewrite <- E.
  destruct (0 <? count_terms (toLowerCase (trim s)) queryTerms);
    constructor; [|constructor].
  repeat split. exact E.
Qed.

Lemma entries_same_case queryTerms : forall sentences sentences' i,
  Forall2 same_ignoring_case sentences sentences' ->
  Forall2 same_entry
          (flat_map (entry queryTerms) (numbered i sentences))
          (flat_map (entry queryTerms) (numbered i sentences')).
Proof.
  unfold numbered. intros sentences sentences' i H. generalize (i + 1).
  induction H as [|s s' l l' Hs Hl IH]; intros n; simpl; [constructor|].
  apply Forall2_app; [now apply entry_same_case | apply IH].
Qed.

Lemma sort_insert_same_key (x x' : EvidenceSource) : forall l l',
  same_entry x x' -> Forall2 same_entry l l' ->
  Forall2 same_entry (sort_insert by_score_desc x l)
          (sort_insert by_score_desc x' l').
Proof.
  intros l l' Hx H. induction H as [|y y' l l' Hy Hl IH]; simpl.
  - constructor; [exact Hx | constructor].
  - assert (E : by_score_desc x y = by_score_desc x' y').
    { unfold by_score_desc. destruct Hx as (_ & _ & -> & _).
      now destruct Hy as (_ & _ & -> & _). }
    rewrite <- E. destruct (Qle_bool (by_score_desc x y) 0).
    + constructor; [exact Hx|]. constructor; [exact Hy | exact Hl].
    + constructor; [exact Hy | exact IH].
Qed.

Lemma sort_same_key l l' :
  Forall2 same_entry l l' ->
  Forall2 same_entry (sort by_score_desc l) (sort by_score_desc l').
Proof.
  induction 1 as [|x x' l l' Hx Hl IH]; simpl; [constructor|].
  now apply sort_insert_same_key.
Qed.

Lemma firstn_Forall2 {A : Type} (R : A -> A -> Prop) n l l' :
  Forall2 R l l' -> Forall2 R (firstn n l) (firstn n l').
Proof.
  intros H. revert n. induction H; intros [|n]; simpl; constructor; auto.
Qed.

End RetrievalCase.

(** ** The term C++ *)

Section Cpp.

(** At a term of the vocabulary the two word boundaries of the pattern ask
    for no word character before it, and after it for a word character when
    the term is C++ and for none otherwise. *)
Lemma word_occurrence_ends pre w post :
  word_occurrence techVocabulary pre w post <->
  (exists term, In term techVocabulary /\ same_ignoring_case w (chars term)) /\
  is_word_at (rev pre) = false /\
  (same_ignoring_case w (chars "C++") -> is_word_at post = true) /\
  (~ same_ignoring_case w (chars "C++") -> is_word_at post = false).
Proof.
  unfold word_occurrence, boundary. split.
  - intros (Hb1 & Hb2 & term & Hterm & Hci).
    split; [now exists term|].
    destruct (same_case_ends _ _ Hci) as [E1 E2].
    assert (Hne : w <> []).
    { intros ->. apply same_ignoring_case_length in Hci.
      destruct (techVocabulary_ends term Hterm) as [->|(Hne & _)];
        [discriminate|]. destruct (chars term); [congruence | discriminate]. }
    rewrite (is_word_at_app w post Hne) in Hb1.
    rewrite (is_word_at_rev_app pre w Hne) in Hb2.
    destruct (techVocabulary_ends term Hterm) as [->|(_ & H1 & H2)].
    + rewrite E1 in Hb1. rewrite E2 in Hb2. simpl in Hb1, Hb2.
      split; [now destruct (is_word_at (rev pre))|].
      split; [intros _; exact Hb2 | intros Hn; now destruct Hn].
    + rewrite E1, H1 in Hb1. rewrite E2, H2 in Hb2.
      split; [now destruct (is_word_at (rev pre))|].
      split; [|intros _; now destruct (is_word_at post)].
      intros Hcpp. destruct (same_case_ends _ _ Hcpp) as [_ E3].
      rewrite E2, H2 in E3. discriminate.
  - intros ((term & Hterm & Hci) & Hpre & Hyes & Hno).
    destruct (same_case_ends _ _ Hci) as [E1 E2].
    assert (Hne : w <> []).
    { intros ->. apply same_ignoring_case_length in Hci.
      destruct (techVocabulary_ends term Hterm) as [->|(Hne & _)];
        [discriminate|]. destruct (chars term); [congruence | discriminate]. }
    rewrite (is_word_at_app w post Hne), (is_word_at_rev_app pre w Hne), Hpre.
    split; [|split; [|now exists term]].
    + rewrite E1.
      destruct (techVocabulary_ends term Hterm) as [->|(_ & H1 & _)];
        [reflexivity | now rewrite H1].
    + rewrite E2.
      destruct (techVocabulary_ends term Hterm) as [->|(_ & _ & H2)].
      * now rewrite (Hyes Hci).
      * rewrite H2, Hno; [reflexivity|].
        intros Hcpp. destruct (same_case_ends _ _ Hcpp) as [_ E3].
        rewrite E2, H2 in E3. discriminate.
Qed.

End Cpp.

(** ** The client *)

Section ClientCache.

Variable newOpenAI : list ascii -> Outcome OpenAI.Client.

Lemma calls_filled client : forall worlds,
  snd (calls newOpenAI worlds (Some client)) = Some client /\
  Forall2 (served (Some client)) worlds
          (fst (calls newOpenAI worlds (Some client))).
Proof.
  induction worlds as [|world rest [IH1 IH2]]; [split; [reflexivity|constructor]|].
  simpl. unfold Configuration.getOpenAIClient.
  destruct (Configuration.isUsingAzure world) eqn:E;
    destruct (calls newOpenAI rest (Some client)) as [outcomes final];
    simpl in *; (split; [exact IH1|]);
    (constructor; [unfold served; now rewrite E | exact IH2]).
Qed.

(** From the empty variable: the calls fail, or go to Azure, up to the first
    one that builds a client, which every later call outside Azure
    returns. *)
Lemma calls_empty : forall worlds,
  (snd (calls newOpenAI worlds None) = None /\
   Forall2 (served None) worlds (fst (calls newOpenAI worlds None))) \/
  exists before world after key client,
    worlds = before ++ world :: after /\
    Configuration.isUsingAzure world = false /\
    Configuration.OPENAI_API_KEY world = Some key /\ key <> [] /\
    newOpenAI key = Returned client /\
    snd (calls newOpenAI worlds None) = Some client /\
    Forall2 (served None) before
            (firstn (length before) (fst (calls newOpenAI worlds None))) /\
    Forall2 (served (Some client)) (world :: after)
            (skipn (length before) (fst (calls newOpenAI worlds None))).
Proof.
  induction worlds as [|world rest IH]; [left; split; [reflexivity|constructor]|].
  simpl. unfold Configuration.getOpenAIClient.
  destruct (Configuration.isUsingAzure world) eqn:E.
  - destruct (calls newOpenAI rest None) as [outcomes final]. simpl in *.
    destruct IH as [[IH1 IH2]|(before & w & after & key & client & -> & Hw
                               & Hkey & Hne & Hnew & Hfin & Hbefore & Hafter)].
    + left. split; [exact IH1|].
      constructor; [unfold served; now rewrite E | exact IH2].
    + right. exists (world :: before), w, after, key, client. simpl.
      repeat (split; [assumption || reflexivity|]).
      split; [|exact Hafter].
      constructor; [unfold served; now rewrite E | exact Hbefore].
  - destruct (Configuration.OPENAI_API_KEY world) as [[|c key]|] eqn:Hk; simpl.
    + destruct (calls newOpenAI rest None) as [outcomes final]. simpl in *.
      destruct IH as [[IH1 IH2]|(before & w & after & key & client & -> & Hw
                                 & Hkey & Hne & Hnew & Hfin & Hbefore & Hafter)].
      * left. split; [exact IH1|].
        constructor; [unfold served; rewrite E; eauto | exact IH2].
      * right. exists (world :: before), w, after, key, client. simpl.
        repeat (split; [assumption || reflexivity|]).
        split; [|exact Hafter].
        constructor; [unfold served; rewrite E; eauto | exact Hbefore].
    + destruct (newOpenAI (c :: key)) as [client|e] eqn:Hnew.
      * right. exists [], world, rest, (c :: key), client.
        destruct (calls_filled client rest) as [H1 H2].
        destruct (calls newOpenAI rest (Some client)) as [outcomes final].
        simpl in *.
        repeat (split; [assumption || reflexivity || discriminate|]).
        split; [constructor|].
        constructor; [unfold served; now rewrite E | exact H2].
      * destruct (calls newOpenAI rest None) as [outcomes final]. simpl in *.
        destruct IH as [[IH1 IH2]|(before & w & after & key' & client & -> & Hw
                                   & Hkey & Hne & Hnew' & Hfin & Hbefore & Hafter)].
        -- left. split; [exact IH1|].
           constructor; [unfold served; rewrite E; eauto | exact IH2].
        -- right. exists (world :: before), w, after, key', client. simpl.
           repeat (split; [assumption || reflexivity|]).
           split; [|exact Hafter].
           constructor; [unfold served; rewrite E; eauto | exact Hbefore].
    + destruct (calls newOpenAI rest None) as [outcomes final]. simpl in *.
      destruct IH as [[IH1 IH2]|(before & w & after & key & client & -> & Hw
                                 & Hkey & Hne & Hnew & Hfin & Hbefore & Hafter)].
      * left. split; [exact IH1|].
        constructor; [unfold served; rewrite E; eauto | exact IH2].
      * right. exists (world :: before), w, after, key, client. simpl.
        repeat (split; [assumption || reflexivity|]).
        split; [|exact Hafter].
        constructor; [unfold served; rewrite E; eauto | exact Hbefore].
Qed.

End ClientCache.

Lemma Forall2_nth_error {A B : Type} (R : A -> B -> Prop) l k :
  Forall2 R l k ->
  forall i a b, nth_error l i = Some a -> nth_error k i = Some b -> R a b.
Proof.
  induction 1 as [|x y l k Hxy Hlk IH]; intros [|i] a b Ha Hb;
    try discriminate; simpl in *.
  - injection Ha as <-. now injection Hb as <-.
  - now apply (IH i).
Qed.

Lemma calls_length newOpenAI : forall worlds openai,
  length (fst (calls newOpenAI worlds openai)) = length worlds.
Proof.
  induction worlds as [|world rest IH]; intros openai; [reflexivity|].
  simpl. destruct (Configuration.getOpenAIClient newOpenAI world openai)
    as [outcome openai'].
  specialize (IH openai').
  destruct (calls newOpenAI rest openai') as [outcomes final].
  simpl in *. now rewrite IH.
Qed.

(** ** Lists *)

Section Lists.

Context {A : Type}.

Lemma NoDup_map_inj {B : Type} (f : A -> B) (l : list A) a b :
  List.NoDup (map f l) -> In a l -> In b l -> f a = f b -> a = b.
Proof.
  induction l as [|x l IH]; [contradiction|].
  simpl. intros Hl Ha Hb Heq. inversion Hl as [|? ? Hnot Hrest]; subst.
  destruct Ha as [<-|Ha], Hb as [<-|Hb]; try reflexivity.
  - exfalso. apply Hnot. rewrite Heq. now apply in_map.
  - exfalso. apply Hnot. rewrite <- Heq. now apply in_map.
  - now apply IH.
Qed.

Lemma NoDup_map_filter {B : Type} (f : A -> B) (p : A -> bool) (l : list A) :
  List.NoDup (map f l) -> List.NoDup (map f (List.filter p l)).
Proof.
  induction l as [|x l IH]; simpl; intros H; [constructor|].
  inversion H as [|? ? Hnot Hrest]; subst.
  destruct (p x); [|now apply IH]. simpl. constructor; [|now apply IH].
  intros Hin. apply Hnot. apply in_map_iff in Hin.
  destruct Hin as (y & Hy & Hin). apply filter_In in Hin.
  rewrite <- Hy. apply in_map. tauto.
Qed.


Lemma map_seq_positions (g : A -> nat) : forall l k,
  (forall i c, nth_error l i = Some c -> g c = k + i) ->
  map g l = seq k (length l).
Proof.
  induction l as [|x l IH]; intros k H; [reflexivity|]. simpl. f_equal.
  - rewrite (H 0 x eq_refl). lia.
  - apply IH. intros i c Hi. rewrite (H (S i) c Hi). lia.
Qed.






Lemma Forall2_map_self {B : Type} (R : A -> B -> Prop) (g : A -> B) l :
  (forall x, In x l -> R x (g x)) -> Forall2 R l (map g l).
Proof.
  induction l as [|x l IH]; intros H; simpl; constructor.
  - apply H. now left.
  - apply IH. intros y Hy. apply H. now right.
Qed.

End Lists.

(** ** The quartiles of the dashboard *)

Section Quartiles.

Import Dashboard.

Lemma strict_equal_iff a b : strict_equal a b = true <-> a = b.
Proof.
  unfold strict_equal. destruct (List.list_eq_dec ascii_dec a b);
    split; (assumption || discriminate || reflexivity || congruence).
Qed.

Lemma strict_equal_refl a : strict_equal a a = true.
Proof. now apply strict_equal_iff. Qed.

(** Looking an identifier up in the annotated candidates is looking it up in
    the candidates and annotating what was found. *)
Lemma find_map_from (f : EvaluationResult -> nat -> EvaluationResult) id :
  (forall c i, candidateId (f c i) = candidateId c) ->
  forall l k,
    find (fun uq => strict_equal (candidateId uq) id) (map_from f k l)
    = match first_with_id id l with
      | Some (i, c) => Some (f c (k + i))
      | None => None
      end.
Proof.
  intros Hf. induction l as [|c l IH]; intros k; [reflexivity|]. simpl.
  rewrite Hf. destruct (strict_equal (candidateId c) id).
  - now rewrite Nat.add_0_r.
  - rewrite IH. destruct (first_with_id id l) as [[i d]|]; [|reflexivity].
    do 2 f_equal. lia.
Qed.

Lemma first_with_id_none id l :
  ~ In id (map candidateId l) -> first_with_id id l = None.
Proof.
  induction l as [|c l IH]; intros H; [reflexivity|]. simpl in *.
  destruct (strict_equal (candidateId c) id) eqn:E.
  - apply strict_equal_iff in E. tauto.
  - rewrite IH; [reflexivity | tauto].
Qed.

Lemma first_with_id_some id l i c :
  first_with_id id l = Some (i, c) ->
  nth_error l i = Some c /\ candidateId c = id.
Proof.
  revert i. induction l as [|x l IH]; intros i; [discriminate|]. simpl.
  destruct (strict_equal (candidateId x) id) eqn:E.
  - intros [= <- <-]. split; [reflexivity | now apply strict_equal_iff].
  - destruct (first_with_id id l) as [[j d]|]; [|discriminate].
    intros [= <- <-]. now apply IH.
Qed.

Lemma first_with_id_nth l :
  List.NoDup (map candidateId l) ->
  forall i c, nth_error l i = Some c ->
              first_with_id (candidateId c) l = Some (i, c).
Proof.
  induction l as [|x l IH]; intros Hl i c Hi; [destruct i; discriminate|].
  inversion Hl as [|? ? Hnot Hrest]; subst. simpl.
  destruct i as [|i]; simpl in Hi.
  - injection Hi as <-. now rewrite strict_equal_refl.
  - destruct (strict_equal (candidateId x) (candidateId c)) eqn:E.
    + exfalso. apply Hnot. apply strict_equal_iff in E. rewrite E.
      apply in_map. now apply nth_error_In in Hi.
    + now rewrite (IH Hrest i c Hi).
Qed.

Lemma with_quartile_id n q c i :
  candidateId (with_quartile n q c i) = candidateId c.
Proof. reflexivity. Qed.

(** What [processedResults] amounts to, with the ranking named. *)
Lemma processedResults_lookup initialResults :
  let n := length (qualified initialResults) in
  processedResults initialResults
  = if 10 <? n then
      map (fun o => match first_with_id (candidateId o)
                                        (ranking initialResults) with
                    | Some (i, c) => with_quartile n (ceil_quarter n) c i
                    | None => o
                    end) initialResults
    else initialResults.
Proof.
  intros n. unfold processedResults. fold (qualified initialResults).
  fold n. destruct (10 <? n); [|reflexivity].
  fold (ranking initialResults).
  assert (Hlen : length (ranking initialResults) = n).
  { apply Permutation_length. apply (sort_perm preferred). }
  rewrite Hlen. apply map_ext. intros o. unfold map_indexed.
  rewrite (find_map_from _ _ (with_quartile_id n (ceil_quarter n))).
  now destruct (first_with_id (candidateId o) (ranking initialResults))
    as [[i c]|].
Qed.

Lemma ranking_perm initialResults :
  Permutation (ranking initialResults) (qualified initialResults).
Proof. apply (sort_perm preferred). Qed.



End Quartiles.

Section Ranking.

Variable initialResults : list Dashboard.EvaluationResult.
Hypothesis distinct :
  List.NoDup (map Dashboard.candidateId initialResults).

Lemma ranking_distinct :
  List.NoDup (map Dashboard.candidateId (ranking initialResults)).
Proof.
  eapply Permutation_NoDup.
  - apply Permutation_map, Permutation_sym, ranking_perm.
  - now apply NoDup_map_filter.
Qed.

Lemma ranking_place i c :
  nth_error (ranking initialResults) i = Some c ->
  first_with_id (Dashboard.candidateId c) (ranking initialResults)
  = Some (i, c).
Proof. apply first_with_id_nth, ranking_distinct. Qed.

Lemma ranking_qualified c :
  In c (ranking initialResults) <->
  In c initialResults /\ Dashboard.mustHavesMet c = true.
Proof.
  rewrite <- (filter_In Dashboard.mustHavesMet c initialResults).
  split; apply Permutation_in;
    [apply ranking_perm | apply Permutation_sym, ranking_perm].
Qed.

Lemma place_nth c :
  In c initialResults -> Dashboard.mustHavesMet c = true ->
  nth_error (ranking initialResults) (place initialResults c) = Some c.
Proof.
  intros Hin Hq.
  assert (Hr : In c (ranking initialResults)) by now apply ranking_qualified.
  apply In_nth_error in Hr. destruct Hr as [i Hi].
  unfold place. now rewrite (ranking_place i c Hi).
Qed.

Lemma lookup_unqualified o :
  In o initialResults -> Dashboard.mustHavesMet o = false ->
  first_with_id (Dashboard.candidateId o) (ranking initialResults) = None.
Proof.
  intros Hin Hq. apply first_with_id_none. intros Hid.
  apply in_map_iff in Hid. destruct Hid as (c & Hid & Hc).
  apply ranking_qualified in Hc. destruct Hc as [Hc Hcq].
  assert (c = o) by exact (NoDup_map_inj _ _ c o distinct Hc Hin Hid).
  congruence.
Qed.

End Ranking.

(** With distinct identifiers and more than ten qualified candidates, every
    qualified result is annotated in place from its place in the ranking, and
    the places are each of 0 to n-1 once. *)
Lemma processedResults_places
      (initialResults : list Dashboard.EvaluationResult) :
  List.NoDup (map Dashboard.candidateId initialResults) ->
  let n := length (qualified initialResults) in
  10 < n ->
  Dashboard.processedResults initialResults
  = map (fun o =>
           if Dashboard.mustHavesMet o
           then Dashboard.with_quartile n (Dashboard.ceil_quarter n) o
                                        (place initialResults o)
           else o) initialResults /\
  Permutation (map (place initialResults) (qualified initialResults))
              (seq 0 n).
Proof.
  intros distinct n Hn.
  assert (Hlen : length (ranking initialResults) = n)
    by apply Permutation_length, ranking_perm.
  split.
  - rewrite processedResults_lookup. fold n.
    apply Nat.ltb_lt in Hn. rewrite Hn. apply map_ext_in. intros o Ho.
    destruct (Dashboard.mustHavesMet o) eqn:E.
    + pose proof (place_nth initialResults distinct o Ho E) as Hnth.
      now rewrite (ranking_place initialResults distinct _ o Hnth).
    + now rewrite (lookup_unqualified initialResults distinct o Ho E).
  - apply Permutation_trans
      with (map (place initialResults) (ranking initialResults)).
    + apply Permutation_map, Permutation_sym, ranking_perm.
    + rewrite <- Hlen. apply Permutation_refl'.
      apply map_seq_positions. intros i c Hi. unfold place.
      now rewrite (ranking_place initialResults distinct i c Hi).
Qed.

Section Counting.

Lemma ceil_quarter_eq n : Dashboard.ceil_quarter n = (n + 3) / 4.
Proof.
  assert (H : Qceiling (inject_Z (Z.of_nat n) / 4)
              = (- ((- Z.of_nat n) / 4))%Z).
  { unfold Qceiling, Qfloor. simpl. now rewrite Z.mul_1_r. }
  unfold Dashboard.ceil_quarter. rewrite H.
  apply Nat2Z.inj. rewrite Nat2Z.inj_div, Nat2Z.inj_add.
  change (Z.of_nat 3) with 3%Z. change (Z.of_nat 4) with 4%Z.
  pose proof (Nat2Z.is_nonneg n) as Hz. revert Hz.
  generalize (Z.of_nat n). intros z Hz.
  rewrite Z2Nat.id; Z.div_mod_to_equations; lia.
Qed.

Lemma quarters n :
  10 < n -> 3 * ((n + 3) / 4) < n /\ n <= 4 * ((n + 3) / 4).
Proof.
  intros Hn. pose proof (Nat.div_mod_eq (n + 3) 4) as H.
  pose proof (Nat.mod_upper_bound (n + 3) 4). lia.
Qed.

(** The number of indices below [n] that lie between [a] and [b]. *)
Lemma count_range a b : forall n,
  length (List.filter (fun i => (a <=? i) && (i <? b)) (seq 0 n))
  = Nat.min b n - Nat.min a n.
Proof.
  induction n as [|n IH]; [simpl; lia|].
  rewrite seq_S, List.filter_app, length_app, IH.
  change (0 + n) with n. cbn [List.filter].
  destruct (Nat.leb_spec a n); destruct (Nat.ltb_spec n b);
    cbn [andb length]; lia.
Qed.

Lemma filter_map_length {A B : Type} (p : B -> bool) (g : A -> B) l :
  length (List.filter p (map g l))
  = length (List.filter (fun x => p (g x)) l).
Proof.
  induction l as [|x l IH]; [reflexivity|]. simpl.
  destruct (p (g x)); simpl; now rewrite IH.
Qed.

Lemma filter_filter {A : Type} (p r : A -> bool) l :
  List.filter (fun x => p x && r x) l = List.filter r (List.filter p l).
Proof.
  induction l as [|x l IH]; [reflexivity|]. simpl.
  destruct (p x); simpl; [destruct (r x)|]; now rewrite IH.
Qed.

Lemma filter_perm_length {A : Type} (p : A -> bool) l l' :
  Permutation l l' ->
  length (List.filter p l) = length (List.filter p l').
Proof.
  induction 1; simpl; try reflexivity.
  - destruct (p x); simpl; now rewrite IHPermutation.
  - destruct (p x), (p y); reflexivity.
  - congruence.
Qed.

End Counting.

(** The label of the place [i], as [with_quartile] sets it. *)
Lemma with_quartile_tier n q c i :
  Dashboard.quartileTier (Dashboard.with_quartile n q c i)
  = Some (if i + 1 <=? q then chars "Top Quartile (Top 25%)"
          else if i + 1 <=? q * 2 then chars "Upper-Mid Quartile (25-50%)"
          else if i + 1 <=? q * 3 then chars "Lower-Mid Quartile (50-75%)"
          else chars "Bottom Quartile (Bottom 25%)").
Proof. reflexivity. Qed.

(** The members of a quartile are the qualified candidates whose place lies in
    its range. *)
Lemma members_count (initialResults : list Dashboard.EvaluationResult)
      (label : string) (a b : nat) :
  List.NoDup (map Dashboard.candidateId initialResults) ->
  let n := length (qualified initialResults) in
  10 < n ->
  (forall c i, i < n ->
     has_tier label (Dashboard.with_quartile n (Dashboard.ceil_quarter n) c i)
     = (a <=? i) && (i <? b)) ->
  length (members label (Dashboard.processedResults initialResults))
  = Nat.min b n - Nat.min a n.
Proof.
  intros distinct n Hn Hband.
  destruct (processedResults_places initialResults distinct Hn)
    as (Hout & Hperm).
  fold n in Hout, Hperm.
  rewrite <- (count_range a b n).
  rewrite <- (filter_perm_length _ _ _ Hperm), filter_map_length.
  unfold members. rewrite Hout, filter_map_length.
  unfold qualified. rewrite <- filter_filter.
  f_equal. apply filter_ext_in. intros o Ho.
  destruct (Dashboard.mustHavesMet o) eqn:E; cbn [andb];
    [|now rewrite E].
  change (Dashboard.mustHavesMet (Dashboard.with_quartile _ _ o _))
    with (Dashboard.mustHavesMet o).
  rewrite E. cbn [andb]. apply Hband.
  assert (Hin : In (place initialResults o)
                   (map (place initialResults) (qualified initialResults))).
  { apply in_map, filter_In. now split. }
  apply (Permutation_in _ Hperm), in_seq in Hin. lia.
Qed.

Lemma thirteen_distinct : List.NoDup (map Dashboard.candidateId thirteen).
Proof.
  unfold thirteen. rewrite map_map. simpl Dashboard.candidateId.
  apply Finite.Injective_map_NoDup; [|apply seq_NoDup].
  intros n m. apply number_to_string_inj.
Qed.

(** ** The requirement lines *)

Lemma mentions_iff text req :
  Dashboard.mentions text req = true <-> occurs_ignoring_case req text.
Proof. symmetry. apply occurs_includes. Qed.

Lemma some_mentions texts req :
  existsb (fun text => Dashboard.mentions text req) texts = true <->
  exists text, In text texts /\ occurs_ignoring_case req text.
Proof.
  rewrite existsb_exists. split; intros (text & Hin & H); exists text;
    (split; [exact Hin | now apply mentions_iff]).
Qed.

(** ** The error boundary *)

Lemma state_after_last errors error :
  state_after (errors ++ [error])
  = ErrorBoundary.getDerivedStateFromError error.
Proof. unfold state_after. now rewrite fold_left_app. Qed.

Lemma state_after_caught errors :
  errors <> [] ->
  state_after errors = ErrorBoundary.mkState true (Some (List.last errors [])).
Proof.
  intros H. destruct (exists_last H) as (l & e & ->).
  rewrite state_after_last, List.last_last. reflexivity.
Qed.

(** ** What the request depends on *)

Section Dependence.

Variable Number_toString : Q -> list ascii.

Lemma evidenceText_contents evidence evidence' :
  map content evidence = map content evidence' ->
  evidenceText evidence = evidenceText evidence'.
Proof.
  intros H. unfold evidenceText.
  rewrite <- (length_map content evidence), <- (length_map content evidence').
  rewrite <- (map_map content (fun c => chars "- " ++ c) evidence).
  rewrite <- (map_map content (fun c => chars "- " ++ c) evidence').
  now rewrite H.
Qed.

Lemma contextInfo_depends context context' :
  candidateName context = candidateName context' ->
  option_map (firstn 500) (jobDescription context)
  = option_map (firstn 500) (jobDescription context') ->
  mustHaveAttributes context = mustHaveAttributes context' ->
  evaluationResult context = evaluationResult context' ->
  contextInfo Number_toString context = contextInfo Number_toString context'.
Proof.
  intros Hn Hjd Hm He. unfold contextInfo, contextLines.
  rewrite Hn, Hm, He.
  assert (Hj : (if truthy (jobDescription context)
                then chars "Job Description: "
                       ++ substring0 500 (text_of (jobDescription context))
                       ++ chars "..."
                else [])
               = (if truthy (jobDescription context')
                  then chars "Job Description: "
                         ++ substring0 500 (text_of (jobDescription context'))
                         ++ chars "..."
                  else [])).
  { destruct (jobDescription context) as [jd|],
             (jobDescription context') as [jd'|]; try discriminate;
      [|reflexivity].
    injection Hjd as Hjd. unfold substring0. simpl text_of. rewrite Hjd.
    destruct jd as [|c jd], jd' as [|c' jd']; try discriminate; reflexivity. }
  now rewrite Hj.
Qed.

End Dependence.

(** ** The properties of the service *)

(** C1. classifyIntent goes through the intents in the order of the table
    (resume_detail_inquiry, evaluation_challenge, candidate_comparison,
    skill_verification, experience_analysis, ambiguity_check, then unknown,
    which has no rule): the first intent one of whose rules matches the query
    is returned with confidence 0.8 and the entities of the query, whatever
    later intents match as well; when no rule matches, the result is unknown
    with confidence 0.3 and the entities of the query.  Matching ignores letter
    case: two queries that differ in letter case only get the same intent and
    the same confidence. *)
Theorem classifyIntent_first_match (query : list ascii) :
  map fst intentPatterns
  = [ resume_detail_inquiry; evaluation_challenge; candidate_comparison;
      skill_verification; experience_analysis; ambiguity_check; unknown ] /\
  (forall earlier i patterns later,
      intentPatterns = earlier ++ (i, patterns) :: later ->
      no_rule_matches earlier query ->
      (exists pattern, In pattern patterns /\ test pattern query = true) ->
      classifyIntent query
      = mkIntentResult i (8 # 10) (extractEntities query)) /\
  (no_rule_matches intentPatterns query ->
   classifyIntent query
   = mkIntentResult unknown (3 # 10) (extractEntities query)) /\
  (forall query', same_ignoring_case query query' ->
     intent (classifyIntent query') = intent (classifyIntent query) /\
     confidence (classifyIntent query') = confidence (classifyIntent query)).
Proof.
  split; [reflexivity|]. split; [|split].
  - intros earlier i patterns later Htable Hno Hyes. unfold classifyIntent.
    rewrite Htable, (first_intent_first earlier i patterns later query Hno Hyes).
    reflexivity.
  - intros Hno. unfold classifyIntent.
    now rewrite (first_intent_none intentPatterns query Hno).
  - intros query' Hq. unfold classifyIntent.
    rewrite (first_intent_same_case intentPatterns query query');
      [| vm_compute; reflexivity | exact Hq].
    destruct (first_intent intentPatterns query'); split; reflexivity.
Qed.

(** A query that a rule of resume_detail_inquiry and a rule of
    experience_analysis both match is a resume_detail_inquiry. *)
Lemma classifyIntent_first_match_witness :
  classifyIntent (chars "What experience? How many years of experience?")
  = mkIntentResult resume_detail_inquiry (8 # 10)
      (extractEntities
         (chars "What experience? How many years of experience?")) /\
  (exists pattern,
      In pattern
         [ ci (alts [ seqs [lit "years"; dotstar; lit "experience"];
                      lit "how long";
                      seqs [lit "duration"; dotstar; lit "work"] ]);
           ci (alts [ seqs [lit "career"; dotstar; lit "length"];
                      seqs [lit "time"; dotstar; lit "in"] ]) ] /\
      test pattern (chars "What experience? How many years of experience?")
      = true).
Proof.
  split.
  - destruct (classifyIntent_first_match
                (chars "What experience? How many years of experience?"))
      as (_ & Hfirst & _).
    apply (Hfirst [] resume_detail_inquiry _ _ eq_refl).
    + intros i patterns pattern [].
    + eexists. split; [left; reflexivity | vm_compute; reflexivity].
  - eexists. split; [left; reflexivity | vm_compute; reflexivity].
Defined.



(** C3. searchResume returns the first five (or fewer) of the surviving
    entries, whose scores are all positive, put in descending order of
    relevanceScore by a sort that keeps entries of equal score in the order of
    their sentences; so it returns at most five entries, in non-increasing
    order of relevanceScore. *)
Theorem searchResume_ranking (resumeText : option (list ascii))
        (query : list ascii) :
  (exists ranked,
      searchResume resumeText query = firstn 5 ranked /\
      Permutation ranked (survivors resumeText query) /\
      StronglySorted by_relevance ranked /\
      forall v, List.filter (has_key relevanceScore v) ranked
                = List.filter (has_key relevanceScore v)
                              (survivors resumeText query)) /\
  (forall e, In e (survivors resumeText query) -> (0 < relevanceScore e)%Q) /\
  length (searchResume resumeText query) <= 5 /\
  StronglySorted by_relevance (searchResume resumeText query).
Proof.
  rewrite searchResume_survivors. split; [|split; [|split]].
  - exists (sort by_score_desc (survivors resumeText query)).
    split; [reflexivity|]. split; [apply (sort_perm relevanceScore)|].
    split; [apply (sort_sorted relevanceScore)|].
    intros v. apply (sort_stable relevanceScore).
  - destruct resumeText as [resumeText|]; [|contradiction].
    intros e He. apply survivors_inv in He.
    destruct He as (idx & s & _ & Hpos & ->). simpl.
    pose proof (count_terms_bound (toLowerCase (trim s)) (queryTerms_of query)).
    apply quotient_positive; lia.
  - apply firstn_le_length.
  - apply firstn_sorted. apply (sort_sorted relevanceScore).
Qed.

(** C4. When the call to the generation client throws, generateResponse
    does not throw: it returns one of five fixed sentences.  For an Error the
    message decides, in this order: "401" or "Incorrect API key" gives the
    credentials sentence; else "429" the retry-later sentence; else
    "insufficient_quota" or "exceeded your current quota" the quota sentence;
    else "model" the model-access sentence; else the generic apology, which
    is also the answer to a thrown value that is no Error. *)
Theorem generateResponse_error_mapping
        (Number_toString : Q -> list ascii)
        (env : Env) (query : list ascii) (context : ChatContext)
        (intent : IntentClassificationResult)
        (evidence : list EvidenceSource)
        (client : OpenAI.Client) (error : Thrown) :
  getOpenAIClient env = Returned client ->
  client (request Number_toString env query context
                  intent evidence) = Threw error ->
  exists reply,
    generateResponse Number_toString env query context
                     intent evidence = Returned reply /\
    In reply fixed_error_messages /\
    (error = OtherValue -> reply = genericMessage) /\
    forall message, error = ErrorInstance message ->
      let auth := contains message (chars "401")
                  \/ contains message (chars "Incorrect API key") in
      let rate := contains message (chars "429") in
      let quota := contains message (chars "insufficient_quota")
                   \/ contains message (chars "exceeded your current quota") in
      let model := contains message (chars "model") in
      (auth -> reply = authMessage) /\
      (~ auth -> rate -> reply = rateLimitMessage) /\
      (~ auth -> ~ rate -> quota -> reply = quotaMessage) /\
      (~ auth -> ~ rate -> ~ quota -> model -> reply = modelMessage) /\
      (~ auth -> ~ rate -> ~ quota -> ~ model -> reply = genericMessage).
Proof.
  intros Hclient Hcall. exists (on_error error).
  split.
  { unfold generateResponse, attempt.
    rewrite Hclient. simpl. rewrite Hcall. reflexivity. }
  split; [apply on_error_fixed|].
  split; [now intros ->|].
  intros message ->. apply on_error_cases.
Qed.

(** A client that fails with a message holding "429" gets the retry-later
    sentence. *)
Lemma generateResponse_error_mapping_witness :
  generateResponse (fun _ => [])
    (mkEnv false []
       (Returned (fun _ => Threw (ErrorInstance
                                    (chars "429 Too Many Requests")))))
    (chars "Is she qualified?") (mkContext None None None None None)
    (mkIntentResult unknown (3 # 10) ∅) []
  = Returned rateLimitMessage.
Proof.
  destruct (generateResponse_error_mapping (fun _ => [])
              (mkEnv false []
                 (Returned (fun _ => Threw (ErrorInstance
                                              (chars "429 Too Many Requests")))))
              (chars "Is she qualified?") (mkContext None None None None None)
              (mkIntentResult unknown (3 # 10) ∅) [] _ _ eq_refl eq_refl)
    as (reply & Hrun & _ & _ & Hmessage).
  destruct (Hmessage _ eq_refl) as (_ & Hrate & _).
  rewrite Hrun. f_equal. apply Hrate.
  - intros [H|H]; apply includes_iff in H; vm_compute in H; discriminate H.
  - apply includes_iff. vm_compute. reflexivity.
Defined.

(** C5. generateResponse always returns, and what it returns is never the
    empty string: the generated text when the client returns one that is not
    empty, the fixed apology when the client returns an empty or no text, and
    one of the fixed sentences when the attempt throws. *)
Theorem generateResponse_always_answers
        (Number_toString : Q -> list ascii)
        (env : Env) (query : list ascii) (context : ChatContext)
        (intent : IntentClassificationResult)
        (evidence : list EvidenceSource) :
  exists reply,
    generateResponse Number_toString env query context
                     intent evidence = Returned reply /\
    reply <> [] /\
    (forall client completion,
        getOpenAIClient env = Returned client ->
        client (request Number_toString env query context
                        intent evidence) = Returned completion ->
        (forall text, generated_text completion = Some text -> text <> [] ->
                      reply = text) /\
        (generated_text completion = Some []
         \/ generated_text completion = None -> reply = apology)) /\
    (forall error,
        attempt Number_toString env query context intent
                evidence = Threw error ->
        reply = on_error error /\ In reply fixed_error_messages).
Proof.
  unfold generateResponse, attempt.
  destruct (getOpenAIClient env) as [client|error] eqn:Hclient; simpl.
  - destruct (client (request Number_toString env query
                              context intent evidence))
      as [completion|error] eqn:Hcall; simpl.
    + exists (response_of completion). split; [reflexivity|].
      split; [apply response_of_not_empty|]. split.
      * intros client' completion' [= <-] Hcall'.
        rewrite Hcall in Hcall'. injection Hcall' as <-.
        apply response_of_cases.
      * discriminate.
    + exists (on_error error). split; [reflexivity|].
      split; [apply on_error_not_empty|]. split.
      * intros client' completion' [= <-] Hcall'.
        rewrite Hcall in Hcall'. discriminate.
      * intros error' [= <-]. split; [reflexivity | apply on_error_fixed].
  - exists (on_error error). split; [reflexivity|].
    split; [apply on_error_not_empty|]. split; [discriminate|].
    intros error' [= <-]. split; [reflexivity | apply on_error_fixed].
Qed.

(** C6, as the claim states it, fails: a context whose candidate name, job
    description, must-have attributes, evaluation score, tier and explanation
    are all absent, but which has an evaluation result, still contributes a
    line to the summary. *)
Lemma contextInfo_score_line_without_score :
  let context :=
    mkContext None None None None (Some (mkEvaluation None None None)) in
  candidateName context = None /\ jobDescription context = None /\
  mustHaveAttributes context = None /\
  (forall e, evaluationResult context = Some e ->
             scores e = None /\ tier e = None /\ explanation e = None) /\
  contextInfo (fun _ => []) context = chars "Evaluation Score: N/A".
Proof.
  simpl. repeat split; try reflexivity; now injection H as <-.
Qed.

(** C6, amended. The context summary that generateResponse puts into the
    user message is made of the lines of the fields, in their order, joined
    by line feeds.  A job description that is present appears as its first
    500 characters followed by "...", however short it is.  The candidate
    name, the job description, the must-have attributes, the tier and the
    explanation contribute no line when empty or absent.  The line of the
    evaluation score is left out only when there is no evaluation result at
    all; when there is one and its overall score is absent or zero, the line
    reads "Evaluation Score: N/A". *)
Theorem contextInfo_summary
        (Number_toString : Q -> list ascii)
        (context : ChatContext) :
  contextInfo Number_toString context
  = join nl (summary_lines Number_toString context) /\
  (forall jd, jobDescription context = Some jd -> jd <> [] ->
     jobDescription_line (jobDescription context)
     = [chars "Job Description: " ++ firstn 500 jd ++ chars "..."]) /\
  (forall env query intent evidence,
     exists rest,
       snd (nth 1 (OpenAI.messages
                     (request Number_toString env query
                              context intent evidence)) ([], []))
       = chars "Context:" ++ nl ++ contextInfo Number_toString context ++ rest) /\
  (forall e, evaluationResult context = Some e ->
     (scores e = None \/ scores e = Some (mkScores None)
      \/ exists x, scores e = Some (mkScores (Some x)) /\ (x == 0)%Q) ->
     score_line Number_toString (evaluationResult context)
     = [chars "Evaluation Score: N/A"]) /\
  (evaluationResult context = None ->
   score_line Number_toString (evaluationResult context) = []).
Proof.
  split; [apply contextInfo_lines|]. split.
  { intros jd -> Hjd. destruct jd; [congruence | reflexivity]. }
  split.
  { intros env query intent evidence. eexists. reflexivity. }
  split.
  { intros e -> H. unfold score_line, overall_or_NA.
    destruct H as [->|[->|(x & -> & Hx)]]; try reflexivity.
    simpl. unfold number_truthy.
    apply Qeq_bool_iff in Hx. now rewrite Hx. }
  now intros ->.
Qed.

(** A job description of ten characters gets the ellipsis. *)
Lemma contextInfo_summary_witness :
  contextInfo (fun _ => [])
              (mkContext None None (Some (chars "Nurse, ICU")) None None)
  = chars "Job Description: Nurse, ICU...".
Proof.
  destruct (contextInfo_summary (fun _ => [])
              (mkContext None None (Some (chars "Nurse, ICU")) None None))
    as (H & Hjd & _).
  rewrite H. unfold summary_lines.
  rewrite (Hjd (chars "Nurse, ICU") eq_refl ltac:(discriminate)).
  reflexivity.
Defined.

(** C7, as the claim states it, fails: the term API of the vocabulary occurs
    in the query and neither years nor yrs does, yet the result has no key
    technologies and has the key experience_years. *)
Lemma extractEntities_plural_not_matched :
  let query := chars "What APIs need 5 year experience" in
  (exists term, In term techVocabulary /\
                occurs_ignoring_case (chars term) query) /\
  extractEntities query !! "technologies" = None /\
  ~ occurs_ignoring_case (chars "years") query /\
  ~ occurs_ignoring_case (chars "yrs") query /\
  extractEntities query !! "experience_years" = Some (chars "5").
Proof.
  split; [|split; [|split; [|split]]].
  - exists "API". split; [simpl; tauto|].
    exists (chars "What "), (chars "API"), (chars "s need 5 year experience").
    split; reflexivity.
  - vm_compute. reflexivity.
  - intros H. apply occurs_includes in H. vm_compute in H. discriminate H.
  - intros H. apply occurs_includes in H. vm_compute in H. discriminate H.
  - vm_compute. reflexivity.
Qed.

(** C7, amended. For a query in which C++ does not occur, extractEntities
    returns a mapping with the key technologies exactly when a term of the
    vocabulary occurs in the query as a whole word: up to letter case, and
    with no word character right before it or right after it; its value is
    then these occurrences as the query writes them, found from left to
    right, each the first to start at or after the end of the previous one,
    repeats included, joined by ", ".  For every query the value of
    technologies, when there is one, joins with ", " pieces of the query that
    are terms of the vocabulary up to letter case.  The mapping has the key
    experience_years exactly when the query holds a non-empty run of digits
    followed by optional blanks, year, years, yr or yrs, optional blanks, an
    optional of with blanks, and experience or exp, in either letter case;
    its value is the digits of the leftmost such place.  There is no other
    key, and the mapping is empty when no term and no such place occurs.  For
    "5 years of experience in Python and AWS" the result is experience_years
    "5" and technologies "Python, AWS". *)
Theorem extractEntities_whole_words (query : list ascii) :
  (~ occurs_ignoring_case (chars "C++") query ->
   (exists terms,
       Scan (whole_word techVocabulary) [] query terms /\
       extractEntities query !! "technologies"
       = match terms with
         | [] => None
         | _ => Some (join (chars ", ") terms)
         end) /\
   (is_Some (extractEntities query !! "technologies") <->
    exists pre w post,
      query = pre ++ w ++ post /\ whole_word techVocabulary pre w post)) /\
  (forall value, extractEntities query !! "technologies" = Some value ->
     exists terms,
       terms <> [] /\ value = join (chars ", ") terms /\
       Forall (fun w =>
                 contains query w /\
                 exists term, In term techVocabulary /\
                              same_ignoring_case w (chars term)) terms) /\
  (is_Some (extractEntities query !! "experience_years") <->
   exists pre digits phrase post,
     query = pre ++ digits ++ phrase ++ post /\
     experience_occurrence digits phrase) /\
  (forall digits, extractEntities query !! "experience_years" = Some digits ->
     exists pre phrase post,
       query = pre ++ digits ++ phrase ++ post /\
       experience_occurrence digits phrase /\
       forall pre' digits' phrase' post',
         query = pre' ++ digits' ++ phrase' ++ post' ->
         experience_occurrence digits' phrase' ->
         length pre <= length pre') /\
  (forall key : string, key <> "technologies" -> key <> "experience_years" ->
                        extractEntities query !! key = None) /\
  ((forall term, In term techVocabulary ->
                 ~ occurs_ignoring_case (chars term) query) ->
   (forall pre digits phrase post, query = pre ++ digits ++ phrase ++ post ->
                                   ~ experience_occurrence digits phrase) ->
   extractEntities query = ∅) /\
  extractEntities (chars "5 years of experience in Python and AWS")
  = {[ "experience_years" := chars "5";
       "technologies" := chars "Python, AWS" ]}.
Proof.
  destruct (techPattern_scan query) as (terms & Hscan & Hglobal).
  assert (Htech : extractEntities query !! "technologies"
                  = match terms with
                    | [] => None
                    | _ => Some (join (chars ", ") terms)
                    end).
  { rewrite technologies_lookup, Hglobal. now destruct terms. }
  assert (Hvalue : forall value,
             extractEntities query !! "technologies" = Some value ->
             exists terms,
               terms <> [] /\ value = join (chars ", ") terms /\
               Forall (fun w =>
                         contains query w /\
                         exists term, In term techVocabulary /\
                                      same_ignoring_case w (chars term))
                      terms).
  { intros value Hv. rewrite Htech in Hv. exists terms.
    destruct terms as [|w ws]; [discriminate|]. injection Hv as <-.
    split; [discriminate|]. split; [reflexivity|].
    eapply List.Forall_impl; [|apply (Scan_occurrences _ _ _ _ Hscan)].
    intros w' (pre' & post' & Hq & _ & _ & Hterm). simpl in Hq.
    split; [now exists pre', post' | exact Hterm]. }
  pose proof (experience_exec query) as Hexp.
  pose proof (experience_lookup query) as Hlook.
  split; [|split; [exact Hvalue|split; [|split; [|split; [|split]]]]].
  - intros Hcpp.
    assert (Hwhole : Scan (whole_word techVocabulary) [] query terms).
    { apply (Scan_equiv (word_occurrence techVocabulary) _ query);
        [apply (word_occurrence_whole query Hcpp) | reflexivity | exact Hscan]. }
    split; [exists terms; now split|].
    rewrite Htech, <- (Scan_nil_iff _ _ _ _ Hwhole).
    destruct terms; split; intros H; try congruence; eauto.
    destruct H; discriminate.
  - rewrite Hlook. destruct (exec experiencePattern query) as [[[b a] e]|].
    + destruct Hexp as (pre & digits & phrase & post & Hq & Hcap & Hocc & _).
      rewrite Hcap.
      split; [intros _; now exists pre, digits, phrase, post | eauto].
    + split; [intros [x Hx]; discriminate|].
      intros (pre & digits & phrase & post & Hq & Hocc).
      exfalso. eapply Hexp; eauto.
  - intros digits Hd. rewrite Hlook in Hd.
    destruct (exec experiencePattern query) as [[[b a] e]|]; [|discriminate].
    destruct Hexp as (pre & digits0 & phrase & post & Hq & Hcap & Hocc & Hleft).
    rewrite Hcap in Hd. injection Hd as ->. now exists pre, phrase, post.
  - apply other_lookup.
  - intros Hno_tech Hno_exp. apply map_eq. intros key. rewrite lookup_empty.
    destruct (decide (key = "technologies")) as [->|Hk1].
    { destruct (extractEntities query !! "technologies") as [value|] eqn:E;
        [|reflexivity].
      exfalso. destruct (Hvalue value eq_refl) as (ws & Hne & _ & Hall).
      destruct ws as [|w ws]; [congruence|].
      inversion Hall as [|? ? ((pre & post & Hq) & term & Hterm & Hci) _]; subst.
      apply (Hno_tech term Hterm). now exists pre, w, post. }
    destruct (decide (key = "experience_years")) as [->|Hk2].
    { rewrite Hlook.
      destruct (exec experiencePattern query) as [[[b a] e]|]; [|reflexivity].
      destruct Hexp as (pre & digits & phrase & post & Hq & Hcap & Hocc & _).
      exfalso. eapply Hno_exp; eauto. }
    now apply other_lookup.
  - vm_compute. reflexivity.
Qed.

(** In "REST APIs" only REST is a word of its own. *)
Lemma extractEntities_whole_words_witness :
  extractEntities (chars "REST APIs") !! "technologies" = Some (chars "REST") /\
  exists pre w post,
    chars "REST APIs" = pre ++ w ++ post /\
    whole_word techVocabulary pre w post.
Proof.
  split; [vm_compute; reflexivity|].
  destruct (extractEntities_whole_words (chars "REST APIs"))
    as (Htech & _).
  destruct Htech as (_ & Hiff).
  - intros H. apply occurs_includes in H. vm_compute in H. discriminate H.
  - apply Hiff. vm_compute. eauto.
Defined.

(** C8. searchResume returns the empty sequence for a resume text that is
    absent or empty, whatever the query; searchResume and classifyIntent
    return a result for every input: at most five entries, and one of the
    seven intents with the entities of the query. *)
Theorem searchResume_total (query : list ascii) :
  searchResume None query = [] /\
  searchResume (Some []) query = [] /\
  (forall resumeText,
      exists result,
        searchResume resumeText query = result /\ length result <= 5) /\
  (exists result,
      classifyIntent query = result /\
      In (intent result)
         [ resume_detail_inquiry; evaluation_challenge; candidate_comparison;
           skill_verification; experience_analysis; ambiguity_check; unknown ] /\
      entities result = extractEntities query).
Proof.
  split; [reflexivity|]. split; [reflexivity|]. split.
  - intros resumeText. eexists. split; [reflexivity|].
    rewrite searchResume_survivors. apply firstn_le_length.
  - eexists. split; [reflexivity|]. unfold classifyIntent.
    destruct (first_intent intentPatterns query) as [[]|]; simpl; tauto.
Qed.



(** C10. The query always splits into at least one term (the empty query
    into the one empty term), so the score never divides by zero; the empty
    term is included in every sentence, so for a query that is empty or made
    of whitespace only every sentence that is not blank gets a score equal
    to 1, and searchResume returns the first five of them (all of them when
    there are fewer), in the order of the text. *)
Theorem searchResume_blank_query :
  (forall query, 1 <= length (split whitespace (toLowerCase query))) /\
  split whitespace (toLowerCase []) = [[]] /\
  (forall sentence, includes sentence [] = true) /\
  (forall resumeText query, all_of is_space query ->
     exists one,
       (one == 1)%Q /\
       searchResume (Some resumeText) query
       = firstn 5 (map (full_entry one)
                       (numbered 0 (sentences_of resumeText))) /\
       length (searchResume (Some resumeText) query)
       = Nat.min 5 (length (sentences_of resumeText))).
Proof.
  split; [intros; apply queryTerms_of_length|]. split; [reflexivity|].
  split; [apply includes_empty|].
  intros resumeText query Hq.
  set (terms := queryTerms_of query).
  assert (Hterms : Forall (fun t => t = []) terms).
  { unfold terms. rewrite queryTerms_of_pieces, (toLowerCase_spaces _ Hq).
    now apply pieces_loop_separators. }
  assert (Hlen : 0 < length terms).
  { pose proof (queryTerms_of_length query). unfold terms. lia. }
  exists (quotient (length terms) (length terms)).
  assert (Hsurv : survivors (Some resumeText) query
                  = map (full_entry (quotient (length terms) (length terms)))
                        (numbered 0 (sentences_of resumeText))).
  { unfold survivors. fold terms.
    induction (numbered 0 (sentences_of resumeText)) as [|ns l IH];
      [reflexivity|].
    simpl. rewrite IH. unfold entry.
    rewrite (count_terms_empty_terms _ _ Hterms).
    apply Nat.ltb_lt in Hlen. rewrite Hlen. reflexivity. }
  assert (Hres : searchResume (Some resumeText) query
                 = firstn 5 (map (full_entry (quotient (length terms)
                                                       (length terms)))
                                 (numbered 0 (sentences_of resumeText)))).
  { rewrite searchResume_survivors, Hsurv. f_equal.
    apply (sort_one_key relevanceScore
                        (quotient (length terms) (length terms))).
    apply List.Forall_forall. intros e He. apply in_map_iff in He.
    destruct He as (ns & <- & _). simpl. reflexivity. }
  split; [now apply quotient_same|]. split; [exact Hres|].
  rewrite Hres, length_firstn, length_map. unfold numbered.
  rewrite length_combine, length_seq. lia.
Qed.

(** Seven sentences and a query of two blanks: five entries. *)
Lemma searchResume_blank_query_witness :
  length (searchResume (Some (chars "A. B. C. D. E. F. G")) (chars "  ")) = 5.
Proof.
  destruct searchResume_blank_query as (_ & _ & _ & Hblank).
  destruct (Hblank (chars "A. B. C. D. E. F. G") (chars "  "))
    as (one & _ & _ & Hlength).
  - repeat constructor.
  - rewrite Hlength. reflexivity.
Defined.

(** ** Further properties of the code *)

(** X1. The confidence of [classifyIntent] tells whether a rule matched: the
    intent is unknown exactly when the confidence is 0.3, exactly when no
    rule of the table matches the query; and the intent is one of the six
    named ones exactly when the confidence is 0.8. *)
Theorem classifyIntent_confidence (query : list ascii) :
  (intent (classifyIntent query) = unknown <->
   confidence (classifyIntent query) = 3 # 10) /\
  (intent (classifyIntent query) <> unknown <->
   confidence (classifyIntent query) = 8 # 10) /\
  (intent (classifyIntent query) = unknown <->
   no_rule_matches intentPatterns query).
Proof.
  pose proof (first_intent_not_unknown query) as Hnot.
  pose proof (first_intent_none_inv intentPatterns query) as Hnone.
  pose proof (first_intent_none intentPatterns query) as Hno.
  unfold classifyIntent.
  destruct (first_intent intentPatterns query) as [i|] eqn:E; simpl.
  - split; [|split].
    + split; [congruence | discriminate].
    + split; [reflexivity | congruence].
    + split; [congruence|]. intros H. specialize (Hno H). discriminate.
  - split; [|split].
    + split; reflexivity.
    + split; [congruence | discriminate].
    + split; [intros _; now apply Hnone | reflexivity].
Qed.

(** X2. A query that holds [why] and, later on the same line, [qualified],
    each in any letter case, is never unknown: its intent is
    resume_detail_inquiry or evaluation_challenge, with confidence 0.8, and
    it is evaluation_challenge when no rule of resume_detail_inquiry matches
    the query. *)
Theorem classifyIntent_why_qualified (pre why mid qualified post : list ascii) :
  same_ignoring_case why (chars "why") ->
  same_ignoring_case qualified (chars "qualified") ->
  all_of (fun c => negb (is_line_terminator c)) mid ->
  let query := pre ++ why ++ mid ++ qualified ++ post in
  (intent (classifyIntent query) = resume_detail_inquiry \/
   intent (classifyIntent query) = evaluation_challenge) /\
  confidence (classifyIntent query) = 8 # 10 /\
  (no_rule_matches (firstn 1 intentPatterns) query ->
   intent (classifyIntent query) = evaluation_challenge).
Proof.
  intros Hwhy Hq Hmid query.
  set (first_rules := snd (nth 0 intentPatterns (unknown, []))).
  set (second_rules := snd (nth 1 intentPatterns (unknown, []))).
  assert (Hrule : any_pattern second_rules query = true).
  { apply any_pattern_true. eexists. split; [left; reflexivity|].
    apply test_true_iff.
    destruct (gap_rule_matches "why" "qualified" pre why mid qualified post
                Hwhy Hq Hmid) as (e & He).
    exists pre, (why ++ mid ++ qualified ++ post), e.
    split; [reflexivity|]. apply M_AltL. exact He. }
  assert (Hfirst : first_intent intentPatterns query
                   = if any_pattern first_rules query
                     then Some resume_detail_inquiry
                     else Some evaluation_challenge).
  { change (first_intent intentPatterns query)
      with (if any_pattern first_rules query then Some resume_detail_inquiry
            else if any_pattern second_rules query
                 then Some evaluation_challenge
                 else first_intent (skipn 2 intentPatterns) query).
    now rewrite Hrule. }
  unfold classifyIntent. rewrite Hfirst.
  destruct (any_pattern first_rules query) eqn:E1; simpl.
  - split; [now left|]. split; [reflexivity|].
    intros Hno. apply any_pattern_true in E1. destruct E1 as (p & Hin & Hp).
    rewrite (Hno resume_detail_inquiry first_rules p) in Hp;
      [discriminate | now left | exact Hin].
  - split; [now right|]. split; reflexivity.
Qed.

Lemma classifyIntent_why_qualified_witness :
  intent (classifyIntent (chars "Why was she not Qualified?"))
  = evaluation_challenge.
Proof.
  refine (proj2 (proj2 (classifyIntent_why_qualified
            [] (chars "Why") (chars " was she not ") (chars "Qualified")
            (chars "?") _ _ _)) _).
  - reflexivity.
  - reflexivity.
  - repeat constructor.
  - intros i patterns pattern [Hin|[]] Hp. injection Hin as <- <-.
    destruct Hp as [<-|[<-|[]]]; vm_compute; reflexivity.
Defined.

(** X3. Every piece of evidence [searchResume] returns has the type
    [resume], and its content is a stretch of the resume text that is not
    empty, has no white space at either end and holds none of the
    sentence-ending characters [.], [!] and [?]. *)
Theorem searchResume_content (resumeText query : list ascii)
        (e : EvidenceSource) :
  In e (searchResume (Some resumeText) query) ->
  type e = chars "resume" /\
  content e <> [] /\
  trim (content e) = content e /\
  all_of (fun c => negb (is_sentence_end c)) (content e) /\
  contains resumeText (content e).
Proof.
  intros H. apply searchResume_In, survivors_inv in H.
  destruct H as (idx & s & Hnth & _ & ->). simpl.
  apply nth_error_In, sentences_of_In in Hnth. destruct Hnth as [Hin Hne].
  split; [reflexivity|]. split; [exact Hne|]. split; [apply trim_idem|].
  split.
  - apply trim_all.
    pose proof (pieces_no_sep is_sentence_end resumeText) as Hall.
    rewrite List.Forall_forall in Hall. now apply Hall.
  - apply contains_trim. now apply (pieces_contains is_sentence_end).
Qed.

Lemma searchResume_content_witness :
  content (mkEvidence (chars "resume") (chars "Knows Rust") (quotient 1 1)
                      (chars "Sentence 2"))
  <> [].
Proof.
  refine (proj1 (proj2 (searchResume_content
            (chars "Hello there!  Knows Rust. ") (chars "rust") _ _))).
  vm_compute. left. reflexivity.
Defined.

(** X4. The cut of [searchResume] after five entries drops only entries
    that no returned entry scores below: the returned entries and the
    dropped ones together are the sentences that matched, the number
    returned is five or the number that matched if that is smaller, and
    nothing is dropped when at most five matched. *)
Theorem searchResume_cut (resumeText : option (list ascii))
        (query : list ascii) :
  exists dropped,
    Permutation (searchResume resumeText query ++ dropped)
                (survivors resumeText query) /\
    (forall e d, In e (searchResume resumeText query) -> In d dropped ->
                 (relevanceScore d <= relevanceScore e)%Q) /\
    length (searchResume resumeText query)
    = Nat.min 5 (length (survivors resumeText query)) /\
    (length (survivors resumeText query) <= 5 -> dropped = []).
Proof.
  rewrite searchResume_survivors.
  set (ranked := sort by_score_desc (survivors resumeText query)).
  assert (Hperm : Permutation ranked (survivors resumeText query))
    by apply (sort_perm relevanceScore).
  assert (Hsorted : StronglySorted (not_below relevanceScore) ranked)
    by apply (sort_sorted relevanceScore).
  exists (skipn 5 ranked). rewrite firstn_skipn.
  split; [exact Hperm|]. split; [|split].
  - intros e d He Hd. rewrite <- (firstn_skipn 5 ranked) in Hsorted.
    exact (sorted_app _ _ _ Hsorted e d He Hd).
  - rewrite length_firstn. now rewrite (Permutation_length Hperm).
  - intros Hlen. apply skipn_all2. now rewrite (Permutation_length Hperm).
Qed.

(** X5. No two entries that [searchResume] returns have the same location:
    the locations are distinct, so are the entries, and the location
    identifies the entry. *)
Theorem searchResume_locations_distinct (resumeText : option (list ascii))
        (query : list ascii) :
  List.NoDup (map location (searchResume resumeText query)) /\
  List.NoDup (searchResume resumeText query) /\
  forall a b, In a (searchResume resumeText query) ->
              In b (searchResume resumeText query) ->
              location a = location b -> a = b.
Proof.
  assert (Hloc : List.NoDup (map location (searchResume resumeText query))).
  { rewrite searchResume_survivors.
    set (ranked := sort by_score_desc (survivors resumeText query)).
    assert (Hperm : Permutation ranked (survivors resumeText query))
      by apply (sort_perm relevanceScore).
    assert (Hall : List.NoDup (map location ranked)).
    { eapply Permutation_NoDup;
        [apply Permutation_sym, Permutation_map, Hperm
        | apply survivors_locations]. }
    rewrite <- (firstn_skipn 5 ranked), map_app in Hall.
    now apply List.NoDup_app_remove_r in Hall. }
  split; [exact Hloc|]. split.
  - now apply List.NoDup_map_inv in Hloc.
  - intros a b Ha Hb Heq.
    revert Ha Hb Heq Hloc.
    induction (searchResume resumeText query) as [|x l IH]; [contradiction|].
    simpl. intros Ha Hb Heq Hl. inversion Hl as [|? ? Hnot Hrest]; subst.
    destruct Ha as [<-|Ha], Hb as [<-|Hb]; try reflexivity.
    + exfalso. apply Hnot. rewrite Heq. now apply in_map.
    + exfalso. apply Hnot. rewrite <- Heq. now apply in_map.
    + now apply IH.
Qed.

(** X6. Letter case plays no part in the retrieval: two resumes and two
    queries that differ only in letter case give the same entries in the same
    order, with the same scores and locations, the contents differing at most
    in letter case; and the letter case of the query changes nothing at
    all. *)
Theorem searchResume_any_case (resumeText resumeText' query query' : list ascii) :
  same_ignoring_case resumeText resumeText' ->
  same_ignoring_case query query' ->
  Forall2 same_entry (searchResume (Some resumeText) query)
          (searchResume (Some resumeText') query') /\
  map relevanceScore (searchResume (Some resumeText) query)
  = map relevanceScore (searchResume (Some resumeText') query') /\
  map location (searchResume (Some resumeText) query)
  = map location (searchResume (Some resumeText') query') /\
  searchResume (Some resumeText) query' = searchResume (Some resumeText) query.
Proof.
  intros Hr Hq.
  assert (H : Forall2 same_entry (searchResume (Some resumeText) query)
                      (searchResume (Some resumeText') query')).
  { rewrite !searchResume_survivors. apply firstn_Forall2, sort_same_key.
    unfold survivors. rewrite (queryTerms_of_same_case query query' Hq).
    now apply entries_same_case, sentences_of_same_case. }
  split; [exact H|]. split; [|split].
  - induction H as [|a b l l' (_ & _ & Hab & _) _ IH]; simpl;
      [reflexivity | now rewrite Hab, IH].
  - induction H as [|a b l l' (_ & _ & _ & Hab) _ IH]; simpl;
      [reflexivity | now rewrite Hab, IH].
  - rewrite !searchResume_survivors. unfold survivors.
    now rewrite (queryTerms_of_same_case query query' Hq).
Qed.

Lemma searchResume_any_case_witness :
  map location (searchResume (Some (chars "Knows RUST. Likes Go!"))
                             (chars "rust go"))
  = map location (searchResume (Some (chars "knows rust. LIKES GO!"))
                               (chars "Rust GO")).
Proof.
  refine (proj1 (proj2 (proj2 (searchResume_any_case _ _ _ _ _ _))));
    reflexivity.
Defined.

(** X7. For any query, each technology term that [extractEntities] reports
    stands in the query with no word character right before it; a term other
    than C++ has no word character right after it either, while C++ is
    reported only where a word character follows it directly, and wherever
    it stands so a technologies entity is reported. *)
Theorem extractEntities_cpp (query : list ascii) :
  (forall value, extractEntities query !! "technologies" = Some value ->
     exists terms,
       value = join (chars ", ") terms /\
       Forall (fun w =>
                 exists pre post,
                   query = pre ++ w ++ post /\
                   is_word_at (rev pre) = false /\
                   (same_ignoring_case w (chars "C++") ->
                    is_word_at post = true) /\
                   (~ same_ignoring_case w (chars "C++") ->
                    is_word_at post = false)) terms) /\
  (forall pre w post,
      query = pre ++ w ++ post -> same_ignoring_case w (chars "C++") ->
      is_word_at (rev pre) = false -> is_word_at post = true ->
      is_Some (extractEntities query !! "technologies")) /\
  extractEntities (chars "C++ or c++11") !! "technologies"
  = Some (chars "c++") /\
  extractEntities (chars "I know C++") = ∅.
Proof.
  destruct (techPattern_scan query) as (terms & Hscan & Hmatch).
  pose proof (technologies_lookup query) as Htech. rewrite Hmatch in Htech.
  split; [|split; [|split]].
  - intros value Hv. rewrite Htech in Hv. exists terms.
    destruct terms as [|w ws]; [discriminate|]. injection Hv as <-.
    split; [reflexivity|].
    eapply List.Forall_impl; [|apply (Scan_occurrences _ _ _ _ Hscan)].
    intros w' (pre' & post' & Hq & Hocc). simpl in Hq.
    apply word_occurrence_ends in Hocc.
    destruct Hocc as (_ & Hpre & Hyes & Hno). now exists pre', post'.
  - intros pre w post Hq Hcpp Hpre Hpost. rewrite Htech.
    assert (Hne : terms <> []).
    { apply (Scan_nil_iff _ _ _ _ Hscan). exists pre, w, post.
      split; [exact Hq|]. simpl. apply word_occurrence_ends.
      split; [|split; [exact Hpre | split; [now intros _ | now intros []]]].
      exists "C++". split; [|exact Hcpp]. vm_compute. tauto. }
    destruct terms; [congruence | eauto].
  - vm_compute. reflexivity.
  - vm_compute. reflexivity.
Qed.

(** X8. In any series of calls of [getOpenAIClient] that starts with the
    variable [openai] empty, a call under Azure gives the Azure client, and
    all the calls outside Azure that return give one and the same client:
    the one [new OpenAI] built from the key that was set at the first call to
    get that far, whatever the key is later. *)
Theorem getOpenAIClient_one_client
        (newOpenAI : list ascii -> Outcome OpenAI.Client)
        (worlds : list Configuration.Surroundings) :
  let outcomes := fst (calls newOpenAI worlds None) in
  length outcomes = length worlds /\
  (forall i world,
      nth_error worlds i = Some world ->
      Configuration.isUsingAzure world = true ->
      nth_error outcomes i
      = Some (Configuration.getAzureOpenAIClient world)) /\
  (forall i world client,
      nth_error worlds i = Some world ->
      Configuration.isUsingAzure world = false ->
      nth_error outcomes i = Some (Returned client) ->
      snd (calls newOpenAI worlds None) = Some client /\
      exists k first key,
        k <= i /\ nth_error worlds k = Some first /\
        Configuration.isUsingAzure first = false /\
        Configuration.OPENAI_API_KEY first = Some key /\ key <> [] /\
        newOpenAI key = Returned client) /\
  (forall i j wi wj ci cj,
      nth_error worlds i = Some wi -> nth_error worlds j = Some wj ->
      Configuration.isUsingAzure wi = false ->
      Configuration.isUsingAzure wj = false ->
      nth_error outcomes i = Some (Returned ci) ->
      nth_error outcomes j = Some (Returned cj) -> ci = cj).
Proof.
  intros outcomes.
  assert (Hlen : length outcomes = length worlds) by apply calls_length.
  assert (Hserved : exists openai_at : nat -> option OpenAI.Client,
             forall i world outcome,
               nth_error worlds i = Some world ->
               nth_error outcomes i = Some outcome ->
               served (openai_at i) world outcome /\
               forall client, openai_at i = Some client ->
                 snd (calls newOpenAI worlds None) = Some client /\
                 exists k first key,
                   k <= i /\ nth_error worlds k = Some first /\
                   Configuration.isUsingAzure first = false /\
                   Configuration.OPENAI_API_KEY first = Some key /\
                   key <> [] /\ newOpenAI key = Returned client).
  { destruct (calls_empty newOpenAI worlds)
      as [[Hfin Hall]|(before & w & after & key & client & Hw & Haz & Hkey
                       & Hne & Hnew & Hfin & Hbefore & Hafter)].
    - exists (fun _ => None). intros i world outcome Hi Ho.
      split; [exact (Forall2_nth_error _ _ _ Hall i world outcome Hi Ho)|].
      discriminate.
    - exists (fun i => if i <? length before then None else Some client).
      intros i world outcome Hi Ho. fold outcomes in Hbefore, Hafter.
      rewrite <- (firstn_skipn (length before) outcomes) in Ho.
      assert (Hl : length (firstn (length before) outcomes) = length before).
      { rewrite length_firstn, Hlen, Hw, length_app. simpl. lia. }
      destruct (i <? length before) eqn:Ei.
      + apply Nat.ltb_lt in Ei. split; [|discriminate].
        rewrite Hw, nth_error_app1 in Hi by exact Ei.
        rewrite nth_error_app1 in Ho by (now rewrite Hl).
        exact (Forall2_nth_error _ _ _ Hbefore i world outcome Hi Ho).
      + apply Nat.ltb_ge in Ei. split.
        * rewrite Hw, nth_error_app2 in Hi by exact Ei.
          rewrite nth_error_app2, Hl in Ho by (now rewrite Hl).
          exact (Forall2_nth_error _ _ _ Hafter _ world outcome Hi Ho).
        * intros c [= <-]. split; [exact Hfin|].
          exists (length before), w, key. split; [exact Ei|].
          split; [|repeat split; assumption].
          rewrite Hw, nth_error_app2, Nat.sub_diag by lia. reflexivity. }
  destruct Hserved as (openai_at & Hserved).
  assert (Hreturned : forall i world client,
             nth_error worlds i = Some world ->
             Configuration.isUsingAzure world = false ->
             nth_error outcomes i = Some (Returned client) ->
             openai_at i = Some client).
  { intros i world client Hi Haz Ho.
    destruct (Hserved i world _ Hi Ho) as [Hs _]. unfold served in Hs.
    rewrite Haz in Hs. destruct (openai_at i) as [c|].
    - now injection Hs as <-.
    - destruct Hs as [e He]. discriminate. }
  split; [exact Hlen|]. split; [|split].
  - intros i world Hi Haz.
    destruct (nth_error outcomes i) as [outcome|] eqn:Ho.
    + destruct (Hserved i world outcome Hi Ho) as [Hs _]. unfold served in Hs.
      rewrite Haz in Hs. now rewrite Hs.
    + apply nth_error_None in Ho. rewrite Hlen in Ho.
      assert (i < length worlds) by (apply nth_error_Some; congruence). lia.
  - intros i world client Hi Haz Ho.
    destruct (Hserved i world _ Hi Ho) as [_ Hc].
    apply Hc. now apply (Hreturned i world).
  - intros i j wi wj ci cj Hi Hj Hazi Hazj Hoi Hoj.
    destruct (Hserved i wi _ Hi Hoi) as [_ Hci].
    destruct (Hserved j wj _ Hj Hoj) as [_ Hcj].
    destruct (Hci ci (Hreturned i wi ci Hi Hazi Hoi)) as [H1 _].
    destruct (Hcj cj (Hreturned j wj cj Hj Hazj Hoj)) as [H2 _].
    congruence.
Qed.

(** X9. Outside Azure, with no client built yet and no key set (or an empty
    one), [getOpenAIClient] throws the error that names the missing key and
    builds nothing; [validateEnvironment] reports the same message; and
    [generateResponse], which catches the error, answers with the general
    apology. *)
Theorem getOpenAIClient_missing_key
        (newOpenAI : list ascii -> Outcome OpenAI.Client)
        (world : Configuration.Surroundings) :
  Configuration.isUsingAzure world = false ->
  truthy (Configuration.OPENAI_API_KEY world) = false ->
  Configuration.getOpenAIClient newOpenAI world None
  = (Threw (ErrorInstance
              (chars "OPENAI_API_KEY environment variable is not set")),
     None) /\
  Configuration.validateEnvironment world
  = Configuration.mkValidation false
      (Some (chars "OPENAI_API_KEY environment variable is not set")) /\
  forall Number_toString deployment query context intent evidence,
    generateResponse Number_toString
                     (env_of newOpenAI world None deployment)
                     query context intent evidence
    = Returned genericMessage.
Proof.
  intros Haz Hkey.
  assert (Hcall : Configuration.getOpenAIClient newOpenAI world None
                  = (Threw (ErrorInstance Configuration.keyNotSet), None)).
  { unfold Configuration.getOpenAIClient. now rewrite Haz, Hkey. }
  split; [exact Hcall|]. split.
  - unfold Configuration.validateEnvironment. now rewrite Haz, Hkey.
  - intros. unfold generateResponse, attempt, env_of. simpl getOpenAIClient.
    rewrite Hcall. reflexivity.
Qed.

Lemma getOpenAIClient_missing_key_witness :
  Configuration.validateEnvironment
    (Configuration.mkSurroundings false (Threw OtherValue) (Some []) None)
  = Configuration.mkValidation false
      (Some (chars "OPENAI_API_KEY environment variable is not set")).
Proof.
  refine (proj1 (proj2 (getOpenAIClient_missing_key
            (fun _ => Threw OtherValue)
            (Configuration.mkSurroundings false (Threw OtherValue)
                                          (Some []) None) _ _)));
    reflexivity.
Defined.

(** X10. [validateEnvironment] accepts the surroundings exactly when, under
    Azure, the Azure key is set and not empty, and otherwise when the key
    starts with [sk-]; it reports an error exactly when it does not accept,
    and the error is one of three fixed messages.  [getOpenAIClient] does
    not ask for as much: outside Azure it builds a client from any key that
    is not empty, and it hands out a client built earlier without reading
    the key. *)
Theorem validateEnvironment_accepts (world : Configuration.Surroundings) :
  let result := Configuration.validateEnvironment world in
  (Configuration.isValid result = true <->
   if Configuration.isUsingAzure world
   then exists c key,
          Configuration.AZURE_OPENAI_API_KEY world = Some (c :: key)
   else exists rest,
          Configuration.OPENAI_API_KEY world = Some (chars "sk-" ++ rest)) /\
  (Configuration.isValid result = true <->
   Configuration.error result = None) /\
  (forall message, Configuration.error result = Some message ->
     In message [ chars "AZURE_OPENAI_API_KEY environment variable is not set";
                  chars "OPENAI_API_KEY environment variable is not set";
                  chars "OPENAI_API_KEY appears to be invalid (should start with sk-)" ]) /\
  (forall newOpenAI,
     Configuration.isUsingAzure world = false ->
     (forall c key,
        Configuration.OPENAI_API_KEY world = Some (c :: key) ->
        fst (Configuration.getOpenAIClient newOpenAI world None)
        = newOpenAI (c :: key)) /\
     (forall client,
        Configuration.getOpenAIClient newOpenAI world (Some client)
        = (Returned client, Some client))).
Proof.
  intros result. subst result. split; [|split; [|split]].
  - unfold Configuration.validateEnvironment.
    destruct (Configuration.isUsingAzure world).
    + destruct (Configuration.AZURE_OPENAI_API_KEY world) as [[|c key]|];
        simpl; split; try discriminate; eauto;
        intros (c' & key' & H); discriminate.
    + destruct (Configuration.OPENAI_API_KEY world) as [[|c key]|];
        cbn [truthy negb ChatService.text_of].
      * split; [discriminate | intros (rest & H); discriminate].
      * destruct (startsWith (c :: key) (chars "sk-")) eqn:E;
          cbn [negb Configuration.isValid].
        -- split; [|reflexivity]. intros _. apply startsWith_iff in E.
           destruct E as [rest ->]. now exists rest.
        -- split; [discriminate|]. intros (rest & H).
           assert (Hk : c :: key = chars "sk-" ++ rest) by congruence.
           assert (Ht : startsWith (c :: key) (chars "sk-") = true)
             by (apply startsWith_iff; now exists rest).
           congruence.
      * split; [discriminate | intros (rest & H); discriminate].
  - unfold Configuration.validateEnvironment.
    destruct (Configuration.isUsingAzure world).
    + destruct (truthy (Configuration.AZURE_OPENAI_API_KEY world)); simpl;
        split; (discriminate || reflexivity).
    + destruct (truthy (Configuration.OPENAI_API_KEY world)); simpl;
        [|split; discriminate].
      destruct (startsWith _ _); simpl; split; (discriminate || reflexivity).
  - intros message. unfold Configuration.validateEnvironment.
    destruct (Configuration.isUsingAzure world).
    + destruct (truthy (Configuration.AZURE_OPENAI_API_KEY world)); simpl;
        [discriminate|]. intros [= <-]. now left.
    + destruct (truthy (Configuration.OPENAI_API_KEY world)); simpl;
        [|intros [= <-]; right; now left].
      destruct (startsWith _ _); simpl; [discriminate|].
      intros [= <-]. right. right. now left.
  - intros newOpenAI Haz. unfold Configuration.getOpenAIClient. rewrite Haz.
    split; [|reflexivity]. intros c key ->. simpl.
    now destruct (newOpenAI (c :: key)).
Qed.

(** X11. [processedResults] keeps the number of results, their order and
    their identifiers; with at most ten qualified candidates it returns its
    input; and whatever the input, each result is the input result of its
    place, or a qualified candidate of the same identifier with its quartile
    fields set from an index below the number of qualified candidates. *)
Theorem processedResults_frame
        (initialResults : list Dashboard.EvaluationResult) :
  let n := length (qualified initialResults) in
  length (Dashboard.processedResults initialResults) = length initialResults /\
  map Dashboard.candidateId (Dashboard.processedResults initialResults)
  = map Dashboard.candidateId initialResults /\
  (n <= 10 -> Dashboard.processedResults initialResults = initialResults) /\
  Forall2 (fun o r =>
             r = o \/
             exists c i,
               In c (qualified initialResults) /\
               Dashboard.candidateId c = Dashboard.candidateId o /\
               i < n /\ 10 < n /\
               r = Dashboard.with_quartile n (Dashboard.ceil_quarter n) c i)
          initialResults (Dashboard.processedResults initialResults).
Proof.
  intros n.
  assert (Hall : Forall2 (fun o r =>
             r = o \/
             exists c i,
               In c (qualified initialResults) /\
               Dashboard.candidateId c = Dashboard.candidateId o /\
               i < n /\ 10 < n /\
               r = Dashboard.with_quartile n (Dashboard.ceil_quarter n) c i)
          initialResults (Dashboard.processedResults initialResults)).
  { rewrite processedResults_lookup. fold n.
    destruct (10 <? n) eqn:En.
    - apply Nat.ltb_lt in En. apply Forall2_map_self. intros o _.
      destruct (first_with_id (Dashboard.candidateId o)
                              (ranking initialResults))
        as [[i c]|] eqn:E; [|now left].
      right. exists c, i. apply first_with_id_some in E.
      destruct E as [Hnth Hid].
      assert (Hlen : length (ranking initialResults) = n)
        by apply Permutation_length, ranking_perm.
      split; [|split; [exact Hid|split; [|split; [exact En | reflexivity]]]].
      + apply (Permutation_in _ (ranking_perm initialResults)).
        now apply nth_error_In in Hnth.
      + rewrite <- Hlen. apply nth_error_Some. congruence.
    - rewrite <- (map_id initialResults) at 2.
      apply Forall2_map_self. intros o _. now left. }
  split; [|split; [|split; [|exact Hall]]].
  - symmetry. eapply List.Forall2_length, Hall.
  - clear -Hall. induction Hall as [|o r l k [->|(c & i & _ & Hid & _ & _ & ->)] _ IH];
      simpl; [reflexivity | now rewrite IH | now rewrite IH, <- Hid].
  - intros Hn. rewrite processedResults_lookup. fold n.
    destruct (10 <? n) eqn:En; [|reflexivity].
    apply Nat.ltb_lt in En. lia.
Qed.



(** X13. With distinct identifiers and n > 10 qualified candidates, the
    quartile size is n/4 rounded up, three times the size is less than n, and
    of the qualified results [processedResults] returns that many carry each
    of the labels [Top], [Upper-Mid] and [Lower-Mid], while the remaining
    ones, at least one and at most a quartile size, carry [Bottom]. *)
Theorem processedResults_quartiles
        (initialResults : list Dashboard.EvaluationResult) :
  List.NoDup (map Dashboard.candidateId initialResults) ->
  let n := length (qualified initialResults) in
  10 < n ->
  let q := Dashboard.ceil_quarter n in
  let results := Dashboard.processedResults initialResults in
  q = (n + 3) / 4 /\ 3 * q < n /\ n <= 4 * q /\
  length (members "Top Quartile (Top 25%)" results) = q /\
  length (members "Upper-Mid Quartile (25-50%)" results) = q /\
  length (members "Lower-Mid Quartile (50-75%)" results) = q /\
  length (members "Bottom Quartile (Bottom 25%)" results) = n - 3 * q /\
  length (qualified results) = n.
Proof.
  intros distinct n Hn q results.
  assert (Hq : q = (n + 3) / 4) by apply ceil_quarter_eq.
  destruct (quarters n Hn) as [H3 H4]. rewrite <- Hq in H3, H4.
  split; [exact Hq|]. split; [exact H3|]. split; [exact H4|].
  pose proof (with_quartile_tier n q) as Hband.
  split; [|split; [|split; [|split]]].
  - rewrite (members_count initialResults _ 0 q distinct Hn); [lia|].
    intros c i Hi. unfold has_tier. fold n q. rewrite Hband.
    destruct (Nat.leb_spec (i + 1) q); destruct (Nat.ltb_spec i q);
      try lia; [reflexivity|].
    destruct (i + 1 <=? q * 2); [reflexivity|].
    destruct (i + 1 <=? q * 3); reflexivity.
  - rewrite (members_count initialResults _ q (2 * q) distinct Hn); [lia|].
    intros c i Hi. unfold has_tier. fold n q. rewrite Hband.
    destruct (Nat.leb_spec (i + 1) q); destruct (Nat.leb_spec q i);
      destruct (Nat.ltb_spec i (2 * q)); try lia; try reflexivity.
    + destruct (Nat.leb_spec (i + 1) (q * 2)); [reflexivity | lia].
    + destruct (Nat.leb_spec (i + 1) (q * 2)); [lia|].
      destruct (i + 1 <=? q * 3); reflexivity.
  - rewrite (members_count initialResults _ (2 * q) (3 * q) distinct Hn);
      [lia|].
    intros c i Hi. unfold has_tier. fold n q. rewrite Hband.
    destruct (Nat.leb_spec (i + 1) q); destruct (Nat.leb_spec (2 * q) i);
      destruct (Nat.ltb_spec i (3 * q)); try lia; try reflexivity.
    + destruct (Nat.leb_spec (i + 1) (q * 2)); [lia|].
      destruct (Nat.leb_spec (i + 1) (q * 3)); [reflexivity | lia].
    + destruct (Nat.leb_spec (i + 1) (q * 2)); [lia|].
      destruct (Nat.leb_spec (i + 1) (q * 3)); [lia | reflexivity].
    + destruct (Nat.leb_spec (i + 1) (q * 2)); [reflexivity|lia].
  - rewrite (members_count initialResults _ (3 * q) n distinct Hn); [lia|].
    intros c i Hi. unfold has_tier. fold n q. rewrite Hband.
    destruct (Nat.leb_spec (i + 1) q); destruct (Nat.leb_spec (3 * q) i);
      destruct (Nat.ltb_spec i n); try lia; try reflexivity.
    + destruct (Nat.leb_spec (i + 1) (q * 2)); [lia|].
      destruct (Nat.leb_spec (i + 1) (q * 3)); [lia | reflexivity].
    + destruct (Nat.leb_spec (i + 1) (q * 2)); [reflexivity|].
      destruct (Nat.leb_spec (i + 1) (q * 3)); [reflexivity | lia].
  - destruct (processedResults_places initialResults distinct Hn)
      as (Hout & _).
    unfold results, qualified. rewrite Hout, filter_map_length.
    fold n. unfold n, qualified. f_equal. apply filter_ext. intros o.
    now destruct (Dashboard.mustHavesMet o) eqn:E.
Qed.

Lemma processedResults_quartiles_witness :
  length (members "Bottom Quartile (Bottom 25%)"
                  (Dashboard.processedResults thirteen)) = 3.
Proof.
  refine (proj1 (proj2 (proj2 (proj2 (proj2 (proj2 (proj2
            (processedResults_quartiles thirteen thirteen_distinct _)))))))).
  vm_compute. lia.
Defined.

(** X14. In an expanded row a nice-to-have requirement is shown as [Gap]
    whenever some gap mentions it in any letter case, also when a strength
    mentions it too; as [Aligned] when a strength but no gap mentions it; and
    as [Neutral] otherwise.  A must-have requirement is shown as not met
    exactly when the must-haves are not met and some gap mentions it, so with
    no gap listed every must-have is shown as met; and the empty requirement
    is mentioned by every text. *)
Theorem requirement_lines (result : Dashboard.EvaluationResult)
        (req : list ascii) :
  let gap := exists text, In text (Dashboard.gaps result)
                          /\ occurs_ignoring_case req text in
  let strength := exists text, In text (Dashboard.strengths result)
                               /\ occurs_ignoring_case req text in
  (gap ->
   Dashboard.niceToHave result req = (chars "Gap", chars "text-red-600")) /\
  (~ gap -> strength ->
   Dashboard.niceToHave result req
   = (chars "Aligned", chars "text-green-600")) /\
  (~ gap -> ~ strength ->
   Dashboard.niceToHave result req
   = (chars "Neutral", chars "text-gray-600")) /\
  (Dashboard.isMet result req = false <->
   Dashboard.mustHavesMet result = false /\ gap) /\
  (Dashboard.gaps result = [] -> Dashboard.isMet result req = true) /\
  (forall text, Dashboard.mentions text [] = true).
Proof.
  intros gap strength.
  pose proof (some_mentions (Dashboard.gaps result) req) as Hg.
  pose proof (some_mentions (Dashboard.strengths result) req) as Hs.
  fold gap in Hg. fold strength in Hs.
  assert (Hng : ~ gap ->
                existsb (fun text => Dashboard.mentions text req)
                        (Dashboard.gaps result) = false).
  { intros H. apply not_true_is_false. tauto. }
  assert (Hns : ~ strength ->
                existsb (fun text => Dashboard.mentions text req)
                        (Dashboard.strengths result) = false).
  { intros H. apply not_true_is_false. tauto. }
  unfold Dashboard.niceToHave, Dashboard.isMet.
  split; [|split; [|split; [|split; [|split]]]].
  - intros H. apply Hg in H. now rewrite H.
  - intros H1 H2. apply Hs in H2. now rewrite (Hng H1), H2.
  - intros H1 H2. now rewrite (Hng H1), (Hns H2).
  - rewrite orb_false_iff, negb_false_iff, Hg. tauto.
  - intros ->. apply orb_true_r.
  - intros text. apply includes_empty.
Qed.

(** X15. Before any error the boundary renders its children.  Once it has
    caught an error it never renders them again: it renders the fallback it
    was given, if that is present, and its own box otherwise; outside
    development what it renders does not depend on the errors caught, and
    the box holds the fixed request to refresh the page, never the message
    of an error. *)
Theorem errorBoundary_render
        (ReactNode : Type) (present : ReactNode -> bool)
        (props : ErrorBoundary.Props ReactNode)
        (development : bool) (errors : list (list ascii)) :
  ErrorBoundary.render ReactNode present development props (state_after [])
  = ErrorBoundary.Children ReactNode (ErrorBoundary.children ReactNode props) /\
  (errors <> [] ->
   (forall node,
       ErrorBoundary.render ReactNode present development props
                            (state_after errors)
       <> ErrorBoundary.Children ReactNode node) /\
   (forall node,
       ErrorBoundary.render ReactNode present development props
                            (state_after errors)
       = ErrorBoundary.Fallback ReactNode node <->
       ErrorBoundary.fallback ReactNode props = Some node /\
       present node = true) /\
   (forall errors', errors' <> [] ->
       ErrorBoundary.render ReactNode present false props (state_after errors')
       = ErrorBoundary.render ReactNode present false props
                              (state_after errors)) /\
   (forall text,
       ErrorBoundary.render ReactNode present false props (state_after errors)
       = ErrorBoundary.Box ReactNode text ->
       text = Some (chars "Please refresh the page to try again.")) /\
   (forall text,
       ErrorBoundary.render ReactNode present true props (state_after errors)
       = ErrorBoundary.Box ReactNode text ->
       text = Some (List.last errors []))).
Proof.
  split; [reflexivity|]. intros Hne.
  rewrite (state_after_caught errors Hne). unfold ErrorBoundary.render.
  cbn [ErrorBoundary.hasError ErrorBoundary.error].
  split; [|split; [|split; [|split]]].
  - intros node.
    destruct (ErrorBoundary.fallback ReactNode props) as [f|];
      [destruct (present f)|]; discriminate.
  - intros node.
    destruct (ErrorBoundary.fallback ReactNode props) as [f|];
      [destruct (present f) eqn:E|]; split;
      try discriminate; try (intros [H _]; discriminate H).
    + intros [= <-]. now split.
    + intros [[= <-] _]. reflexivity.
    + intros [[= <-] H]. congruence.
  - intros errors' Hne'. now rewrite (state_after_caught errors' Hne').
  - intros text.
    destruct (ErrorBoundary.fallback ReactNode props) as [f|];
      [destruct (present f)|]; try discriminate; now intros [= <-].
  - intros text.
    destruct (ErrorBoundary.fallback ReactNode props) as [f|];
      [destruct (present f)|]; try discriminate; now intros [= <-].
Qed.

(** X16. The request [generateResponse] sends to the client, and with it the
    text it returns, depend on the context only through the candidate's
    name, the first 500 characters of the job description, the must-have
    attributes and the evaluation; on the intent only through its name and
    confidence; and on the evidence only through the contents.  Neither
    depends on the resume text of the context, on the entities of the intent
    or on the type, score and location of the evidence.  (The function looks
    at the resume text only to decide what its development logging writes to
    the console, which is no part of the request or of the result.) *)
Theorem generateResponse_independence
        (Number_toString : Q -> list ascii) (env : Env) (query : list ascii)
        (context context' : ChatContext)
        (intent intent' : IntentClassificationResult)
        (evidence evidence' : list EvidenceSource) :
  candidateName context = candidateName context' ->
  option_map (firstn 500) (jobDescription context)
  = option_map (firstn 500) (jobDescription context') ->
  mustHaveAttributes context = mustHaveAttributes context' ->
  evaluationResult context = evaluationResult context' ->
  ChatService.intent intent = ChatService.intent intent' ->
  confidence intent = confidence intent' ->
  map content evidence = map content evidence' ->
  request Number_toString env query context intent evidence
  = request Number_toString env query context' intent' evidence' /\
  generateResponse Number_toString env query context intent evidence
  = generateResponse Number_toString env query context' intent' evidence'.
Proof.
  intros Hn Hjd Hm He Hi Hc Hev.
  assert (Hreq : request Number_toString env query context intent evidence
                 = request Number_toString env query context' intent' evidence').
  { unfold request, userMessage.
    rewrite (contextInfo_depends Number_toString context context' Hn Hjd Hm He).
    rewrite (evidenceText_contents evidence evidence' Hev).
    now rewrite Hi, Hc. }
  split; [exact Hreq|].
  unfold generateResponse, attempt. now rewrite Hreq.
Qed.

Lemma generateResponse_independence_witness :
  generateResponse (fun _ => []) (mkEnv false []
       (Returned (fun r =>
          Returned (OpenAI.mkCompletion
            [OpenAI.mkChoice
               (Some (OpenAI.mkMessage
                        (Some (snd (nth 1 (OpenAI.messages r)
                                        ([], []))))))]))))
    (chars "Why?")
    (mkContext (Some (chars "Ada")) (Some (chars "Knows Rust."))
               None None None)
    (mkIntentResult unknown (3 # 10) ∅)
    [mkEvidence (chars "resume") (chars "Knows Rust") 1 (chars "Sentence 1")]
  = generateResponse (fun _ => []) (mkEnv false []
       (Returned (fun r =>
          Returned (OpenAI.mkCompletion
            [OpenAI.mkChoice
               (Some (OpenAI.mkMessage
                        (Some (snd (nth 1 (OpenAI.messages r)
                                        ([], []))))))]))))
      (chars "Why?")
      (mkContext (Some (chars "Ada")) None None None None)
      (mkIntentResult unknown (3 # 10) {[ "technologies" := chars "Rust" ]})
      [mkEvidence (chars "other") (chars "Knows Rust") 0 []].
Proof.
  refine (proj2 (generateResponse_independence _ _ _ _ _ _ _ _ _ _ _ _ _ _ _ _));
    reflexivity.
Defined.
